(** * Matrix_CPP: a model of [src/matrix.cc] and the properties of its operations

    The class [Matrix] owns a grid of [double] together with its two
    dimensions.  The development has two layers.

    - Member functions that are [const] and receive no other [Matrix] by
      reference ([Transpose], [GetSubmatrix], [Determinant],
      [CalcComplements], [InverseMatrix], [operator*(double)]) are functions
      of the value of the receiver; their locals are values as well.
    - Member functions that mutate the receiver or receive a [Matrix] by
      reference run over an object store: references are addresses, a local
      object lives in the store for the time of its scope, and element reads
      and writes go through the store, so that a reference that aliases the
      receiver sees the receiver's writes.  A throwing call returns the
      store it has reached, so that a write before the throw would show.

    An operator has the name of the C++ operator ([operator_mul_assign] for
    [operator*=], [operator_call] for [operator()], and so on).

    [double] is IEEE 754 binary64, which is what the kernel's primitive
    floats are.  [int] is modelled by [Z]: every counter stays between 0
    and a dimension, [i + j] below twice a dimension, and a grid whose
    dimension reaches half of [INT_MAX] cannot be allocated.  [new] is
    taken to succeed.

    The file has the model first, then the definitions the statements are
    written with, then the lemmas on the loops, on doubles, on the value
    layer and on the store layer, then one section for each of the
    properties C1 to C10, and last further properties of the member
    functions, X1 to X24. *)

From Stdlib Require Import ZArith Lia Bool String Floats.
From stdpp Require Import base option list.

Open Scope Z_scope.

(* ================================================================= *)
(** ** Exceptions and results *)

(** The exception classes of [matrixexception.h], and [std::terminate] for
    an exception that reaches the boundary of a [noexcept] function. *)
Inductive exception : Type :=
| MatrixInvalidArgumentException
| MatrixOutOfRangeException
| MatrixLogicErrorException (what : string)
| Terminate.

Inductive result (A : Type) : Type :=
| Ok (a : A)
| Throw (e : exception).
Arguments Ok {A} a.
Arguments Throw {A} e.

Definition bindR {A B} (r : result A) (k : A → result B) : result B :=
  match r with
  | Ok a => k a
  | Throw e => Throw e
  end.

Notation "'let*' x ':=' r 'in' k" := (bindR r (fun x => k))
  (at level 10, x pattern, r at level 100, k at level 200).

(** A [noexcept] function turns an escaping exception into [std::terminate]. *)
Definition noexcept {A} (r : result A) : result A :=
  match r with
  | Ok a => Ok a
  | Throw _ => Throw Terminate
  end.

(* ================================================================= *)
(** ** Doubles *)

(** Modelled from the spec: the constant [kAccuracy] is declared in
    [matrix.h], which is not part of the sources; the spec gives the
    tolerance as [1e-7].  The literal denotes the binary64 value nearest to
    it, written here in hexadecimal. *)
Definition kAccuracy : float := 0x1.ad7f29abcaf48p-24%float.

(** [(k % 2 == 0 ? 1 : -1)], an [int] converted to [double] by the product. *)
Definition sign (k : Z) : float :=
  if Z.rem k 2 =? 0 then 1%float else (-1)%float.

(* ================================================================= *)
(** ** The object *)

Abbreviation grid := (list (list float)).

(** [matrix_] is [None] for [nullptr]; otherwise it holds the rows that
    [AllocateMatrixMemory] has allocated. *)
Record Matrix : Type := mkMatrix {
  rows_ : Z;
  cols_ : Z;
  matrix_ : option grid
}.

(** [matrix_[i][j]] as an rvalue.  The code reads inside the allocated grid
    only; outside of it (undefined behaviour in C++) the model reads 0. *)
Definition cell (g : option grid) (i j : Z) : float :=
  match g with
  | Some rows =>
    match rows !! Z.to_nat i with
    | Some row => default 0%float (row !! Z.to_nat j)
    | None => 0%float
    end
  | None => 0%float
  end.

(** [matrix_[i][j] = v].  A write outside the allocated grid changes nothing
    in the model. *)
Definition set_cell (g : option grid) (i j : Z) (v : float) : option grid :=
  alter (λ row, <[Z.to_nat j := v]> row) (Z.to_nat i) <$> g.

Definition get (m : Matrix) (i j : Z) : float := cell (matrix_ m) i j.

Definition put (m : Matrix) (i j : Z) (v : float) : Matrix :=
  mkMatrix (rows_ m) (cols_ m) (set_cell (matrix_ m) i j v).

(* ================================================================= *)
(** ** Loops *)

(** [for (int i = 0; i < n; ++i) body], threading the state the body
    updates.  The bound of every loop of [matrix.cc] is a field or a local
    that the loop does not write, so it is evaluated once. *)
Fixpoint iterate {St} (k : nat) (i : Z) (body : Z → St → St) (s : St) : St :=
  match k with
  | O => s
  | S k' => iterate k' (i + 1) body (body i s)
  end.

Definition for_ {St} (n : Z) (body : Z → St → St) (s : St) : St :=
  iterate (Z.to_nat n) 0 body s.

(** The same loop with a body that may throw: the exception leaves the
    loop. *)
Fixpoint iterateR {St} (k : nat) (i : Z) (body : Z → St → result St) (s : St)
  : result St :=
  match k with
  | O => Ok s
  | S k' => let* s' := body i s in iterateR k' (i + 1) body s'
  end.

Definition forR {St} (n : Z) (body : Z → St → result St) (s : St) : result St :=
  iterateR (Z.to_nat n) 0 body s.

(* ================================================================= *)
(** ** Member functions of the value layer *)

Definition IsNaturalNumbers (rows cols : Z) : bool :=
  (0 <? rows) && (0 <? cols).

Definition IsSameDimensionMatrix (this other : Matrix) : bool :=
  (cols_ this =? cols_ other) && (rows_ this =? rows_ other).

Definition IsSquareMatrix (this : Matrix) : bool :=
  rows_ this =? cols_ this.

Definition IsMatrixNumber (this : Matrix) : bool :=
  (rows_ this =? 1) && (cols_ this =? 1).

Definition GetRows (this : Matrix) : Z := rows_ this.
Definition GetCols (this : Matrix) : Z := cols_ this.

(** [new double*[rows]] followed by [new double[cols]{}] for every row. *)
Definition zero_grid (rows cols : Z) : grid :=
  replicate (Z.to_nat rows) (replicate (Z.to_nat cols) 0%float).

(** The fields after [AllocateMatrixMemory(rows, cols)]. *)
Definition allocated (rows cols : Z) : Matrix :=
  mkMatrix rows cols (Some (zero_grid rows cols)).

(** The fields after [InvalidateMatrix()]: the moved-from, empty state. *)
Definition invalid : Matrix := mkMatrix 0 0 None.

(** [Matrix::Matrix(const int rows, const int cols)]. *)
Definition Matrix_new (rows cols : Z) : result Matrix :=
  if negb (IsNaturalNumbers rows cols) then Throw MatrixInvalidArgumentException
  else Ok (allocated rows cols).

(** [Matrix::Matrix()]. *)
Definition Matrix_default : result Matrix := Matrix_new 3 3.

(** [Matrix::Matrix(const int size)]. *)
Definition Matrix_square (size : Z) : result Matrix := Matrix_new size size.

(** [CopyMatrixElements] into an object that nothing else refers to. *)
Definition CopyMatrixElements_val (this other : Matrix) : Matrix :=
  for_ (rows_ this) (λ i self,
    for_ (cols_ this) (λ j self, put self i j (get other i j)) self) this.

(** [Matrix::Matrix(const Matrix& other)]: the object under construction is
    new, so [this != &other] holds. *)
Definition Matrix_copy (other : Matrix) : Matrix :=
  CopyMatrixElements_val (allocated (rows_ other) (cols_ other)) other.

(** [MulNumber] on an object that nothing else refers to. *)
Definition MulNumber_val (this : Matrix) (num : float) : Matrix :=
  for_ (rows_ this) (λ i self,
    for_ (cols_ this) (λ j self, put self i j (get self i j * num)%float) self) this.

(** [Matrix::operator*(const double num) const]. *)
Definition operator_mul_number (this : Matrix) (num : float) : Matrix :=
  let result := Matrix_copy this in
  let result := MulNumber_val result num in
  Matrix_copy result.

(** [operator*(const double num, Matrix& other)]. *)
Definition operator_number_mul (num : float) (other : Matrix) : Matrix :=
  let result := Matrix_copy other in
  let result := MulNumber_val result num in
  Matrix_copy result.

(** [Matrix::Transpose() const noexcept]. *)
Definition Transpose (this : Matrix) : result Matrix :=
  noexcept (
    let* result := Matrix_new (cols_ this) (rows_ this) in
    Ok (for_ (rows_ this) (λ i result,
          for_ (cols_ this) (λ j result, put result j i (get this i j)) result)
        result)).

(** [Matrix::GetSubmatrix(int, int) const noexcept]; the loop states carry
    the counters [new_i] and [new_j] next to [result]. *)
Definition GetSubmatrix (this : Matrix) (deleted_row deleted_col : Z)
  : result Matrix :=
  noexcept (
    let* result := Matrix_new (rows_ this - 1) (cols_ this - 1) in
    Ok (fst (for_ (rows_ this) (λ old_i '(result, new_i),
          if old_i =? deleted_row then (result, new_i)
          else
            let row_done :=
              for_ (cols_ this) (λ old_j '(result, new_j),
                if old_j =? deleted_col then (result, new_j)
                else (put result new_i new_j (get this old_i old_j), new_j + 1))
              (result, 0) in
            (fst row_done, new_i + 1))
        (result, 0)))).

(** [Matrix::Determinant() const].  The recursion is on the size of the
    matrix; [fuel] bounds its depth and [None] says that the bound was
    reached.  [Determinant_fuel_enough] below shows that the bound used by
    [Determinant] is never reached. *)
Fixpoint Determinant_fuel (fuel : nat) (this : Matrix) : option (result float) :=
  match fuel with
  | O => None
  | S fuel' =>
    if negb (IsSquareMatrix this) then
      Some (Throw (MatrixLogicErrorException "Matrix is not square"))
    else if IsMatrixNumber this then Some (Ok (get this 0 0))
    else
      for_ (cols_ this) (λ j acc,
        match acc with
        | Some (Ok result) =>
          if (kAccuracy <? abs (get this 0 j))%float then
            match GetSubmatrix this 0 j with
            | Ok sub =>
              match Determinant_fuel fuel' sub with
              | Some (Ok d) => Some (Ok (result + get this 0 j * d * sign j)%float)
              | stopped => stopped
              end
            | Throw e => Some (Throw e)
            end
          else acc
        | stopped => stopped
        end) (Some (Ok 0%float))
  end.

Definition Determinant (this : Matrix) : result float :=
  match Determinant_fuel (S (Z.to_nat (rows_ this))) this with
  | Some r => r
  | None => Throw Terminate
  end.

(** [Matrix::CalcComplements() const]. *)
Definition CalcComplements (this : Matrix) : result Matrix :=
  if negb (IsSquareMatrix this) then
    Throw (MatrixLogicErrorException "Matrix is not square")
  else
    let* result := Matrix_new (rows_ this) (cols_ this) in
    if IsMatrixNumber this then Ok (put result 0 0 1%float)
    else
      forR (rows_ this) (λ i result,
        forR (cols_ this) (λ j result,
          let* sub := GetSubmatrix this i j in
          let* d := Determinant sub in
          Ok (put result i j (d * sign (i + j))%float)) result) result.

(** [Matrix::InverseMatrix() const]. *)
Definition InverseMatrix (this : Matrix) : result Matrix :=
  let* determinant := Determinant this in
  if (abs determinant <? kAccuracy)%float then
    Throw (MatrixLogicErrorException "Matrix determinant is 0")
  else
    let* complements := CalcComplements this in
    let* transposed := Transpose complements in
    Ok (operator_mul_number transposed (1 / determinant)%float).

(** A matrix given by its rows, for examples. *)
Definition of_rows (rows : list (list float)) : Matrix :=
  mkMatrix (Z.of_nat (length rows))
           (Z.of_nat (length (default [] (head rows))))
           (Some rows).


(* ================================================================= *)
(** ** The object store *)

(** A reference to a [Matrix] is the address of the object.  The store
    lists the live objects; an object that is created is added at the end,
    and a local is removed when its scope ends. *)
Abbreviation addr := nat.
Abbreviation store := (list Matrix).

(** A computation runs over the store and returns normally or throws; the
    store is there in both cases, so that what a throwing call has written
    stays visible. *)
Definition M (A : Type) : Type := store → result A * store.

Definition ret {A} (a : A) : M A := λ σ, (Ok a, σ).

Definition throw {A} (e : exception) : M A := λ σ, (Throw e, σ).

Definition bind {A B} (m : M A) (k : A → M B) : M B :=
  λ σ, match m σ with
       | (Ok a, σ') => k a σ'
       | (Throw e, σ') => (Throw e, σ')
       end.

Notation "'let!' x ':=' m 'in' k" := (bind m (fun x => k))
  (at level 10, x pattern, m at level 100, k at level 200).
Notation "m >> k" := (bind m (fun _ => k))
  (at level 62, right associativity).

Definition noexceptM {A} (m : M A) : M A :=
  λ σ, match m σ with
       | (Ok a, σ') => (Ok a, σ')
       | (Throw _, σ') => (Throw Terminate, σ')
       end.

(** Reading through a reference.  References are valid in every call the
    theorems consider; a dangling one reads the empty object. *)
Definition load (a : addr) : M Matrix :=
  λ σ, (Ok (default invalid (σ !! a)), σ).

Definition save (a : addr) (m : Matrix) : M unit :=
  λ σ, (Ok tt, <[a := m]> σ).

Definition field {A} (f : Matrix → A) (a : addr) : M A :=
  let! m := load a in ret (f m).

Definition set_rows_ (a : addr) (v : Z) : M unit :=
  let! m := load a in save a (mkMatrix v (cols_ m) (matrix_ m)).

Definition set_cols_ (a : addr) (v : Z) : M unit :=
  let! m := load a in save a (mkMatrix (rows_ m) v (matrix_ m)).

Definition set_matrix_ (a : addr) (v : option grid) : M unit :=
  let! m := load a in save a (mkMatrix (rows_ m) (cols_ m) v).

(** [std::swap] on one field of two objects. *)
Definition swap_rows_ (a b : addr) : M unit :=
  let! x := field rows_ a in
  let! y := field rows_ b in
  set_rows_ a y >> set_rows_ b x.

Definition swap_cols_ (a b : addr) : M unit :=
  let! x := field cols_ a in
  let! y := field cols_ b in
  set_cols_ a y >> set_cols_ b x.

Definition swap_matrix_ (a b : addr) : M unit :=
  let! x := field matrix_ a in
  let! y := field matrix_ b in
  set_matrix_ a y >> set_matrix_ b x.

(** [a.matrix_[i][j]] read and written in place. *)
Definition read_cell (a : addr) (i j : Z) : M float :=
  let! m := load a in ret (get m i j).

Definition write_cell (a : addr) (i j : Z) (v : float) : M unit :=
  let! m := load a in save a (put m i j v).

(** [for (int i = 0; i < n; ++i) body] over the store.  The bound is a
    field that no loop body of [matrix.cc] writes, so it is read once. *)
Fixpoint iterateM (k : nat) (i : Z) (body : Z → M unit) : M unit :=
  match k with
  | O => ret tt
  | S k' => body i >> iterateM k' (i + 1) body
  end.

Definition forM (n : Z) (body : Z → M unit) : M unit :=
  iterateM (Z.to_nat n) 0 body.

(** A loop whose body may [return v;] from the enclosing function: [Some v]
    stops the loop, [None] goes on. *)
Fixpoint iterate_return {R} (k : nat) (i : Z) (body : Z → M (option R))
  : M (option R) :=
  match k with
  | O => ret None
  | S k' =>
    let! r := body i in
    match r with
    | Some v => ret (Some v)
    | None => iterate_return k' (i + 1) body
    end
  end.

Definition for_return {R} (n : Z) (body : Z → M (option R)) : M (option R) :=
  iterate_return (Z.to_nat n) 0 body.

(* ================================================================= *)
(** ** Storage and lifetime *)

Definition InvalidateMatrix (this : addr) : M unit :=
  set_rows_ this 0 >> set_cols_ this 0 >> set_matrix_ this None.

(** [FreeMatrixMemory]: the rows and the row table are released, which the
    store does not record, and the fields are invalidated. *)
Definition FreeMatrixMemory (this : addr) : M unit :=
  InvalidateMatrix this.

Definition AllocateMatrixMemory (this : addr) (rows cols : Z) : M unit :=
  set_rows_ this rows >> set_cols_ this cols >>
  set_matrix_ this (Some (zero_grid rows cols)).

Definition CopyMatrixElements (this other : addr) : M unit :=
  let! rows := field rows_ this in
  let! cols := field cols_ this in
  forM rows (λ i,
    forM cols (λ j,
      let! v := read_cell other i j in
      write_cell this i j v)).

Definition CopyFrom (this other : addr) : M unit :=
  if decide (this ≠ other) then
    let! t := load this in
    let! o := load other in
    (if negb (IsSameDimensionMatrix t o) then
       FreeMatrixMemory this >>
       AllocateMatrixMemory this (rows_ o) (cols_ o)
     else ret tt) >>
    CopyMatrixElements this other
  else ret tt.

(** An object under construction: it enters the store with the fields its
    member initialisers give it ([fields]; the model takes the empty state
    where the constructor has none), the constructor body runs on it, and
    when the body throws the object has never existed. *)
Definition construct (fields : Matrix) (body : addr → M unit) : M addr :=
  λ σ, let this := length σ in
       match body this (σ ++ [fields]) with
       | (Ok _, σ') => (Ok this, σ')
       | (Throw e, σ') => (Throw e, take this σ')
       end.

(** [Matrix::Matrix(const int rows, const int cols)]. *)
Definition Matrix_ctor (rows cols : Z) : M addr :=
  construct invalid (λ this,
    if negb (IsNaturalNumbers rows cols) then throw MatrixInvalidArgumentException
    else AllocateMatrixMemory this rows cols).

(** [Matrix::Matrix(const Matrix& other) noexcept]. *)
Definition Matrix_copy_ctor (other : addr) : M addr :=
  noexceptM (construct invalid (λ this,
    if decide (this ≠ other) then
      let! o := load other in
      AllocateMatrixMemory this (rows_ o) (cols_ o) >>
      CopyMatrixElements this other
    else ret tt)).

(** [Matrix::Matrix(Matrix&& other) noexcept]. *)
Definition Matrix_move_ctor (other : addr) : M addr :=
  noexceptM (construct (mkMatrix 0 0 None) (λ this,
    if decide (this ≠ other) then
      swap_matrix_ this other >>
      swap_rows_ this other >>
      swap_cols_ this other
    else ret tt)).

(** [Matrix::~Matrix()]. *)
Definition Matrix_dtor (this : addr) : M unit :=
  let! m := load this in
  match matrix_ m with
  | Some _ => FreeMatrixMemory this
  | None => ret tt
  end.

(** The scope of a local: it is constructed, the rest of the block runs,
    and on the way out, normal or not, it is destroyed and leaves the
    store. *)
Definition local {A} (ctor : M addr) (block : addr → M A) : M A :=
  λ σ, match ctor σ with
       | (Throw e, σ') => (Throw e, σ')
       | (Ok a, σ1) =>
         let '(r, σ2) := block a σ1 in
         let '(_, σ3) := Matrix_dtor a σ2 in
         (r, take a σ3)
       end.

(** A function that returns [Matrix] and whose operand is a reference
    copy-constructs the returned object from it; the caller receives the
    fields of that object. *)
Definition return_by_value (r : addr) : M Matrix :=
  let! m := load r in ret (Matrix_copy m).

(** [Matrix B = f(...);]: the object a function returns by value becomes
    the named object (the copy is elided). *)
Definition declare (value : Matrix) : M addr :=
  construct value (λ _, ret tt).

(** [Matrix::operator=(const Matrix& other) noexcept]. *)
Definition operator_assign (this other : addr) : M addr :=
  noexceptM (
    (if decide (this ≠ other) then CopyFrom this other else ret tt) >>
    ret this).

(** [Matrix::operator=(Matrix&& other) noexcept]. *)
Definition operator_move_assign (this other : addr) : M addr :=
  noexceptM (
    (if decide (this ≠ other) then CopyFrom this other else ret tt) >>
    ret this).

(* ================================================================= *)
(** ** Dimensions and element access *)

(** The statements of [SetDimension] after the declaration of [result]:
    the elements inside both the old and the new bounds are copied into
    [result], and the fields of the two objects are swapped. *)
Definition SetDimension_swap (this : addr) (new_rows new_cols : Z) (result : addr)
  : M unit :=
  let! rows := field rows_ this in
  let! cols := field cols_ this in
  let old_rows := Z.min rows new_rows in
  let old_cols := Z.min cols new_cols in
  forM old_rows (λ i,
    forM old_cols (λ j,
      let! v := read_cell this i j in
      write_cell result i j v)) >>
  swap_matrix_ this result >>
  swap_rows_ this result >>
  swap_cols_ this result.

Definition SetDimension (this : addr) (new_rows new_cols : Z) : M unit :=
  if negb (IsNaturalNumbers new_rows new_cols) then
    throw MatrixInvalidArgumentException
  else
    let! rows := field rows_ this in
    let! cols := field cols_ this in
    if (new_rows =? rows) && (new_cols =? cols) then ret tt
    else
      local (Matrix_ctor new_rows new_cols)
            (SetDimension_swap this new_rows new_cols).

Definition SetRows (this : addr) (new_rows : Z) : M unit :=
  let! cols := field cols_ this in SetDimension this new_rows cols.

Definition SetCols (this : addr) (new_cols : Z) : M unit :=
  let! rows := field rows_ this in SetDimension this rows new_cols.

(** [double& Matrix::operator()(int i, int j)]: the reference it returns is
    the place of the element. *)
Definition operator_call (this : addr) (i j : Z) : M (addr * Z * Z) :=
  let! m := load this in
  if (rows_ m <=? i) || (cols_ m <=? j) || (i <? 0) || (j <? 0) then
    throw MatrixOutOfRangeException
  else ret (this, i, j).

Definition read_ref (r : addr * Z * Z) : M float :=
  let '(a, i, j) := r in read_cell a i j.

Definition write_ref (r : addr * Z * Z) (v : float) : M unit :=
  let '(a, i, j) := r in write_cell a i j v.

(* ================================================================= *)
(** ** Comparison and arithmetic *)

Definition EqMatrix (this other : addr) : M bool :=
  if decide (this = other) then ret true
  else
    let! t := load this in
    let! o := load other in
    if negb (IsSameDimensionMatrix t o) then ret false
    else
      let! rows := field rows_ this in
      let! cols := field cols_ this in
      let! found :=
        for_return rows (λ i,
          for_return cols (λ j,
            let! x := read_cell this i j in
            let! y := read_cell other i j in
            if (kAccuracy <? abs (x - y))%float then ret (Some false)
            else ret None)) in
      ret (default true found).

(** [Matrix::operator==]. *)
Definition operator_eq (this other : addr) : M bool := EqMatrix this other.

Definition SumMatrix (this other : addr) : M unit :=
  let! t := load this in
  let! o := load other in
  if negb (IsSameDimensionMatrix t o) then
    throw (MatrixLogicErrorException "Different dimensions of matrices")
  else
    let! rows := field rows_ this in
    let! cols := field cols_ this in
    forM rows (λ i,
      forM cols (λ j,
        let! x := read_cell this i j in
        let! y := read_cell other i j in
        write_cell this i j (x + y)%float)).

Definition SubMatrix (this other : addr) : M unit :=
  let! t := load this in
  let! o := load other in
  if negb (IsSameDimensionMatrix t o) then
    throw (MatrixLogicErrorException "Different dimensions of matrices")
  else
    let! rows := field rows_ this in
    let! cols := field cols_ this in
    forM rows (λ i,
      forM cols (λ j,
        let! x := read_cell this i j in
        let! y := read_cell other i j in
        write_cell this i j (x - y)%float)).

Definition MulNumber (this : addr) (num : float) : M unit :=
  noexceptM (
    let! rows := field rows_ this in
    let! cols := field cols_ this in
    forM rows (λ i,
      forM cols (λ j,
        let! x := read_cell this i j in
        write_cell this i j (x * num)%float))).

Definition MulMatrix (this other : addr) : M unit :=
  let! t := load this in
  let! o := load other in
  if negb (cols_ t =? rows_ o) then
    throw (MatrixLogicErrorException
      "The number of columns of the first matrix is not equal to the number of rows of the second matrix")
  else
    local (Matrix_ctor (rows_ t) (cols_ o)) (λ result,
      let! rows := field rows_ this in
      let! other_cols := field cols_ other in
      let! cols := field cols_ this in
      forM rows (λ i,
        forM other_cols (λ j,
          forM cols (λ k,
            let! acc := read_cell result i j in
            let! x := read_cell this i k in
            let! y := read_cell other k j in
            write_cell result i j (acc + x * y)%float))) >>
      operator_assign this result >> ret tt).

(** [operator+=], [operator-=], [operator*=]: each returns [*this]. *)
Definition operator_plus_assign (this other : addr) : M addr :=
  SumMatrix this other >> ret this.

Definition operator_minus_assign (this other : addr) : M addr :=
  SubMatrix this other >> ret this.

Definition operator_mul_assign (this other : addr) : M addr :=
  MulMatrix this other >> ret this.

Definition operator_mul_assign_number (this : addr) (num : float) : M addr :=
  noexceptM (MulNumber this num >> ret this).

(** [operator+], [operator-], [operator*] on two matrices: a local copy of
    the receiver is updated in place and returned by value. *)
Definition operator_plus (this other : addr) : M Matrix :=
  local (Matrix_copy_ctor this) (λ result,
    let! r := operator_plus_assign result other in return_by_value r).

Definition operator_minus (this other : addr) : M Matrix :=
  local (Matrix_copy_ctor this) (λ result,
    let! r := operator_minus_assign result other in return_by_value r).

Definition operator_mul (this other : addr) : M Matrix :=
  local (Matrix_copy_ctor this) (λ result,
    let! r := operator_mul_assign result other in return_by_value r).

(** A [const] member function of the value layer called on an object of the
    store. *)
Definition call {A} (f : Matrix → result A) (this : addr) : M A :=
  let! m := load this in
  match f m with
  | Ok a => ret a
  | Throw e => throw e
  end.

(* ================================================================= *)
(** ** Representation invariant and closed forms *)

(** A grid of [rows] rows of [cols] elements each. *)
Definition shaped (g : grid) (rows cols : Z) : Prop :=
  length g = Z.to_nat rows ∧ Forall (λ row, length row = Z.to_nat cols) g.

(** The invariant of a live object: positive dimensions and storage of
    that shape. *)
Definition live (m : Matrix) : Prop :=
  0 < rows_ m ∧ 0 < cols_ m ∧
  ∃ g, matrix_ m = Some g ∧ shaped g (rows_ m) (cols_ m).

(** The invariant as a test, for concrete matrices. *)
Definition liveb (m : Matrix) : bool :=
  (0 <? rows_ m) && (0 <? cols_ m) &&
  match matrix_ m with
  | Some g =>
    (length g =? Z.to_nat (rows_ m))%nat &&
    forallb (λ row, (length row =? Z.to_nat (cols_ m))%nat) g
  | None => false
  end.

(** The grid whose element [(i, j)] is [f i j]. *)
Definition tabulate (rows cols : Z) (f : Z → Z → float) : grid :=
  (λ i, (λ j, f i j) <$> seqZ 0 cols) <$> seqZ 0 rows.

Definition table (rows cols : Z) (f : Z → Z → float) : Matrix :=
  mkMatrix rows cols (Some (tabulate rows cols f)).

(** The elements of a table after one of them is written. *)
Definition update (f : Z → Z → float) (i j : Z) (v : float) : Z → Z → float :=
  λ i' j', if (i' =? i) && (j' =? j) then v else f i' j'.

(** The index in the matrix of the element that lands at index [k] once
    index [d] is deleted. *)
Definition skip (d k : Z) : Z := if k <? d then k else k + 1.

(** The value of the counter [new_i] when the loop reaches [old_i]. *)
Definition kept (d old : Z) : Z := if old <=? d then old else old - 1.

(** One level of [Determinant], with the determinants of the minors given
    by [rec]: the body of the function as it is written. *)
Definition Determinant_body (rec : Matrix → result float) (this : Matrix)
  : result float :=
  if negb (IsSquareMatrix this) then
    Throw (MatrixLogicErrorException "Matrix is not square")
  else if IsMatrixNumber this then Ok (get this 0 0)
  else
    forR (cols_ this) (λ j result,
      if (kAccuracy <? abs (get this 0 j))%float then
        let* sub := GetSubmatrix this 0 j in
        let* d := rec sub in
        Ok (result + get this 0 j * d * sign j)%float
      else Ok result) 0%float.

(** The matrix without row [dr] and column [dc]. *)
Definition minor (A : Matrix) (dr dc : Z) : Matrix :=
  table (rows_ A - 1) (cols_ A - 1) (λ i j, get A (skip dr i) (skip dc j)).

(** The first-row cofactor expansion with every term, for an [n]-by-[n]
    matrix. *)
Fixpoint cofactor_sum (n : nat) (A : Matrix) : float :=
  match n with
  | O => 0%float
  | S O => get A 0 0
  | S n' =>
    for_ (Z.of_nat n) (λ j acc,
      (acc + get A 0 j * cofactor_sum n' (minor A 0 j) * sign j)%float) 0%float
  end.

Definition cofactor_expansion (A : Matrix) : float :=
  cofactor_sum (Z.to_nat (rows_ A)) A.

(** The first-row expansion of an [n]-by-[n] matrix over the columns whose
    first-row element exceeds the tolerance in absolute value, every minor
    expanded in the same way. *)
Fixpoint restricted_sum (n : nat) (A : Matrix) : float :=
  match n with
  | O => 0%float
  | S O => get A 0 0
  | S n' =>
    for_ (Z.of_nat n) (λ j acc,
      if (kAccuracy <? abs (get A 0 j))%float
      then (acc + get A 0 j * restricted_sum n' (minor A 0 j) * sign j)%float
      else acc) 0%float
  end.

Definition restricted_expansion (A : Matrix) : float :=
  restricted_sum (Z.to_nat (rows_ A)) A.

(** The determinant as a number, where [Determinant] returns one. *)
Definition det (A : Matrix) : float :=
  match Determinant A with
  | Ok d => d
  | Throw _ => 0%float
  end.


(** The inner product of row [i] of [A] and column [j] of [B], accumulated
    from 0 in the order of the loop over [k]. *)
Definition dot (A B : Matrix) (i j : Z) : float :=
  for_ (cols_ A) (λ k acc, (acc + get A i k * get B k j)%float) 0%float.

Definition product (A B : Matrix) : Matrix :=
  table (rows_ A) (cols_ B) (dot A B).


(** The object after [SetDimension(new_rows, new_cols)] has changed it. *)
Definition resized (A : Matrix) (new_rows new_cols : Z) : Matrix :=
  table new_rows new_cols (λ i j,
    if (i <? Z.min (rows_ A) new_rows) && (j <? Z.min (cols_ A) new_cols)
    then get A i j else 0%float).

(** The first [Some] among [f 0], ..., [f (n - 1)]. *)
Fixpoint find_from {R} (k : nat) (i : Z) (f : Z → option R) : option R :=
  match k with
  | O => None
  | S k' =>
    match f i with
    | Some v => Some v
    | None => find_from k' (i + 1) f
    end
  end.

Definition first_some {R} (n : Z) (f : Z → option R) : option R :=
  find_from (Z.to_nat n) 0 f.

(** The two matrices have the same dimensions and no pair of elements
    differs by more than the tolerance. *)
Definition close (A B : Matrix) : Prop :=
  rows_ A = rows_ B ∧ cols_ A = cols_ B ∧
  ∀ i j, 0 ≤ i < rows_ A → 0 ≤ j < cols_ A →
         (kAccuracy <? abs (get A i j - get B i j))%float = false.

(** The result of [EqMatrix] on two different objects. *)
Definition EqMatrix_val (A B : Matrix) : bool :=
  if negb (IsSameDimensionMatrix A B) then false
  else
    default true
      (first_some (rows_ A) (λ i,
         first_some (cols_ A) (λ j,
           if (kAccuracy <? abs (get A i j - get B i j))%float
           then Some false else None))).

(** The computation returns normally from every store. *)
Definition succeeds {A} (m : M A) : Prop :=
  ∀ σ, ∃ a σ', m σ = (Ok a, σ').


(* ================================================================= *)
(** ** The delegating constructors *)

(** [Matrix::Matrix() : Matrix(3, 3) {}]. *)
Definition Matrix_default_ctor : M addr := Matrix_ctor 3 3.

(** [Matrix::Matrix(const int size) : Matrix(size, size) {}]. *)
Definition Matrix_size_ctor (size : Z) : M addr := Matrix_ctor size size.

(** The state in which the program can find an object: live, or with both
    dimensions 0 (after a move, or copied from such an object). *)
Definition reachable (m : Matrix) : Prop :=
  live m ∨ (rows_ m = 0 ∧ cols_ m = 0).

(** From the store [σ], the call writes no object but [this], and [this]
    is live after it, whether the call returns or throws. *)
Definition writes_only {R} (m : M R) (this : addr) (σ : store) : Prop :=
  ∀ r σ', m σ = (r, σ') → ∃ A', live A' ∧ σ' = <[this := A']> σ.

(** The identity matrix of size [n]. *)
Definition identity (n : Z) : Matrix :=
  table n n (λ i j, if i =? j then 1%float else 0%float).

(* ================================================================= *)
(** ** Properties of the loops *)

Lemma iterate_S {St} (k : nat) (i : Z) (body : Z → St → St) (s : St) :
  iterate (S k) i body s = iterate k (i + 1) body (body i s).
Proof. reflexivity. Qed.

Lemma iterate_succ {St} (k : nat) (i : Z) (body : Z → St → St) (s : St) :
  iterate (S k) i body s = body (i + Z.of_nat k) (iterate k i body s).
Proof.
  revert i s. induction k as [|k IH]; intros i s.
  - cbn [iterate]. by rewrite Z.add_0_r.
  - rewrite iterate_S, IH, (iterate_S k i). f_equal. lia.
Qed.

Lemma for_nonpos {St} (n : Z) (body : Z → St → St) (s : St) :
  n ≤ 0 → for_ n body s = s.
Proof. intros Hn. unfold for_. by replace (Z.to_nat n) with O by lia. Qed.

Lemma for_succ {St} (n : Z) (body : Z → St → St) (s : St) :
  0 ≤ n → for_ (n + 1) body s = body n (for_ n body s).
Proof.
  intros Hn. unfold for_.
  replace (Z.to_nat (n + 1)) with (S (Z.to_nat n)) by lia.
  rewrite iterate_succ. f_equal. lia.
Qed.

(** The invariant rule of the counted loop. *)
Lemma for_ind {St} (P : Z → St → Prop) (n : Z) (body : Z → St → St) (s : St) :
  0 ≤ n →
  P 0 s →
  (∀ i s', 0 ≤ i < n → P i s' → P (i + 1) (body i s')) →
  P n (for_ n body s).
Proof.
  intros Hn H0 Hstep.
  assert (∀ k : nat, Z.of_nat k ≤ n → P (Z.of_nat k) (for_ (Z.of_nat k) body s)) as H.
  { induction k as [|k IH]; intros Hk.
    - by rewrite for_nonpos.
    - replace (Z.of_nat (S k)) with (Z.of_nat k + 1) by lia.
      rewrite for_succ by lia. apply Hstep; [lia|]. apply IH. lia. }
  specialize (H (Z.to_nat n)). rewrite Z2Nat.id in H by done. apply H. lia.
Qed.

Lemma for_ext {St} (n : Z) (body body' : Z → St → St) (s : St) :
  (∀ i s', 0 ≤ i < n → body i s' = body' i s') →
  for_ n body s = for_ n body' s.
Proof.
  intros Hext. destruct (Z.le_gt_cases 0 n) as [Hn|Hn].
  - apply (for_ind (λ i s', s' = for_ i body' s)); [done|by rewrite for_nonpos|].
    intros i s' Hi ->. rewrite for_succ by lia. by apply Hext.
  - by rewrite !for_nonpos by lia.
Qed.

Lemma iterateR_S {St} (k : nat) (i : Z) (body : Z → St → result St) (s : St) :
  iterateR (S k) i body s = let* s' := body i s in iterateR k (i + 1) body s'.
Proof. reflexivity. Qed.

Lemma iterateR_succ {St} (k : nat) (i : Z) (body : Z → St → result St) (s : St) :
  iterateR (S k) i body s =
  let* s' := iterateR k i body s in body (i + Z.of_nat k) s'.
Proof.
  revert i s. induction k as [|k IH]; intros i s.
  - cbn [iterateR bindR]. rewrite Z.add_0_r. by destruct (body i s).
  - rewrite iterateR_S, (iterateR_S k i).
    destruct (body i s) as [s'|e]; cbn [bindR]; [|done].
    rewrite IH. destruct (iterateR k (i + 1) body s'); cbn [bindR]; [|done].
    f_equal. lia.
Qed.

Lemma forR_nonpos {St} (n : Z) (body : Z → St → result St) (s : St) :
  n ≤ 0 → forR n body s = Ok s.
Proof. intros Hn. unfold forR. by replace (Z.to_nat n) with O by lia. Qed.

Lemma forR_succ {St} (n : Z) (body : Z → St → result St) (s : St) :
  0 ≤ n → forR (n + 1) body s = let* s' := forR n body s in body n s'.
Proof.
  intros Hn. unfold forR.
  replace (Z.to_nat (n + 1)) with (S (Z.to_nat n)) by lia.
  rewrite iterateR_succ. destruct (iterateR _ _ _ _); cbn [bindR]; [|done].
  f_equal. lia.
Qed.

(** A loop whose body never throws is a loop of the plain kind. *)
Lemma forR_pure {St} (n : Z) (body : Z → St → result St) (f : Z → St → St) (s : St) :
  (∀ i s', 0 ≤ i < n → body i s' = Ok (f i s')) →
  forR n body s = Ok (for_ n f s).
Proof.
  intros Hb. destruct (Z.le_gt_cases 0 n) as [Hn|Hn].
  - assert (∀ k : nat, Z.of_nat k ≤ n →
        forR (Z.of_nat k) body s = Ok (for_ (Z.of_nat k) f s)) as H.
    { induction k as [|k IH]; intros Hk.
      - by rewrite forR_nonpos, for_nonpos.
      - replace (Z.of_nat (S k)) with (Z.of_nat k + 1) by lia.
        rewrite forR_succ, for_succ, IH by lia. cbn [bindR]. apply Hb. lia. }
    specialize (H (Z.to_nat n)). rewrite Z2Nat.id in H by done. apply H. lia.
  - by rewrite forR_nonpos, for_nonpos by lia.
Qed.

(* ================================================================= *)
(** ** Grids in closed form *)

Lemma lookup_tabulate_row (rows cols : Z) (f : Z → Z → float) (i : nat) :
  tabulate rows cols f !! i =
  if decide (Z.of_nat i < rows)
  then Some ((λ j, f (Z.of_nat i) j) <$> seqZ 0 cols) else None.
Proof.
  unfold tabulate. rewrite list_lookup_fmap. case_decide.
  - by rewrite lookup_seqZ_lt.
  - by rewrite lookup_seqZ_ge by lia.
Qed.

Lemma lookup_tabulate_col (cols : Z) (h : Z → float) (j : nat) :
  ((λ j, h j) <$> seqZ 0 cols) !! j =
  if decide (Z.of_nat j < cols) then Some (h (Z.of_nat j)) else None.
Proof.
  rewrite list_lookup_fmap. case_decide.
  - by rewrite lookup_seqZ_lt.
  - by rewrite lookup_seqZ_ge by lia.
Qed.

Lemma cell_tabulate (rows cols : Z) (f : Z → Z → float) (i j : Z) :
  0 ≤ i < rows → 0 ≤ j < cols →
  cell (Some (tabulate rows cols f)) i j = f i j.
Proof.
  intros Hi Hj. unfold cell.
  rewrite lookup_tabulate_row, decide_True by lia.
  rewrite lookup_tabulate_col, decide_True by lia.
  cbn. by rewrite !Z2Nat.id by lia.
Qed.

Lemma shaped_tabulate (rows cols : Z) (f : Z → Z → float) :
  shaped (tabulate rows cols f) rows cols.
Proof.
  split.
  - unfold tabulate. by rewrite length_fmap, length_seqZ.
  - apply Forall_lookup_2. intros i row. rewrite lookup_tabulate_row.
    case_decide; [|done]. intros [= <-]. by rewrite length_fmap, length_seqZ.
Qed.

Lemma tabulate_ext (rows cols : Z) (f g : Z → Z → float) :
  (∀ i j, 0 ≤ i < rows → 0 ≤ j < cols → f i j = g i j) →
  tabulate rows cols f = tabulate rows cols g.
Proof.
  intros Hfg. apply list_eq. intros i. rewrite !lookup_tabulate_row.
  case_decide; [|done]. f_equal. apply list_eq. intros j.
  rewrite !lookup_tabulate_col. case_decide; [|done]. f_equal. apply Hfg; lia.
Qed.

Lemma shaped_is_tabulate (g : grid) (rows cols : Z) :
  shaped g rows cols → g = tabulate rows cols (cell (Some g)).
Proof.
  intros [Hlen Hrows]. apply list_eq. intros i. rewrite lookup_tabulate_row.
  case_decide as Hi.
  - destruct (lookup_lt_is_Some_2 g i) as [row Hrow]; [lia|]. rewrite Hrow. f_equal.
    pose proof (Forall_lookup_1 _ _ _ _ Hrows Hrow) as Hc. cbn beta in Hc.
    apply list_eq. intros j. rewrite lookup_tabulate_col. unfold cell.
    rewrite Nat2Z.id, Hrow. case_decide as Hj.
    + destruct (lookup_lt_is_Some_2 row j) as [x Hx]; [lia|].
      by rewrite Nat2Z.id, Hx.
    + apply lookup_ge_None_2. lia.
  - apply lookup_ge_None_2. lia.
Qed.

Lemma zero_grid_tabulate (rows cols : Z) :
  zero_grid rows cols = tabulate rows cols (λ _ _, 0%float).
Proof.
  apply list_eq. intros i. rewrite lookup_tabulate_row. unfold zero_grid.
  case_decide.
  - rewrite lookup_replicate_2 by lia. f_equal. apply list_eq. intros j.
    rewrite lookup_tabulate_col. case_decide.
    + by rewrite lookup_replicate_2 by lia.
    + apply lookup_ge_None_2. rewrite length_replicate. lia.
  - apply lookup_ge_None_2. rewrite length_replicate. lia.
Qed.

Lemma set_cell_tabulate (rows cols : Z) (f : Z → Z → float) (i j : Z) (v : float) :
  0 ≤ i → 0 ≤ j →
  set_cell (Some (tabulate rows cols f)) i j v =
  Some (tabulate rows cols (update f i j v)).
Proof.
  intros Hi Hj. unfold set_cell. cbn. f_equal. apply list_eq. intros i'.
  rewrite list_lookup_alter, !lookup_tabulate_row.
  case_decide as Hii.
  - subst i'. rewrite Z2Nat.id by done. case_decide; [|done]. cbn. f_equal.
    apply list_eq. intros j'. rewrite list_lookup_insert, !lookup_tabulate_col.
    rewrite length_fmap, length_seqZ. unfold update. rewrite Z.eqb_refl. cbn.
    case_decide as Hjj.
    + destruct Hjj as [<- Hlt]. rewrite Z2Nat.id, Z.eqb_refl by done.
      by rewrite decide_True by lia.
    + case_decide; [|done]. f_equal.
      destruct (Z.eqb_spec (Z.of_nat j') j); [|done]. exfalso. apply Hjj. lia.
  - case_decide; [|done]. f_equal. apply list_eq. intros j'.
    rewrite !lookup_tabulate_col. case_decide; [|done]. f_equal. unfold update.
    destruct (Z.eqb_spec (Z.of_nat i') i); [lia|done].
Qed.

(* ================================================================= *)
(** ** Properties of doubles *)

Section spec_float.
(** The operations of [SpecFloat] for any precision and exponent range. *)
Variables prec emax : Z.

Lemma SFabs_binary_normalize_opp (m e : Z) :
  SFabs (binary_normalize prec emax (- m) e false) =
  SFabs (binary_normalize prec emax m e false).
Proof.
  destruct m as [|p|p]; simpl; try reflexivity;
    unfold binary_round;
    destruct (shl_align p e _) as [mz ez];
    unfold binary_round_aux;
    destruct (shr_fexp prec emax (Z.pos mz) ez loc_Exact) as [mrs' e'];
    destruct (shr_fexp prec emax _ e' loc_Exact) as [mrs'' e''];
    destruct (shr_m mrs''); try reflexivity;
    destruct (Z.leb e'' _); reflexivity.
Qed.

Lemma SFabs_sub_comm (x y : spec_float) :
  SFabs (SFsub prec emax x y) = SFabs (SFsub prec emax y x).
Proof.
  destruct x as [sx|sx| |sx mx ex], y as [sy|sy| |sy my ey];
    cbn [SFsub SFabs]; try done; try (by destruct sx, sy).
  rewrite (Z.min_comm ey ex), <- SFabs_binary_normalize_opp.
  do 2 f_equal. lia.
Qed.

Lemma SFsub_diag (s : spec_float) :
  SFsub prec emax s s = S754_nan ∨ SFsub prec emax s s = S754_zero false.
Proof.
  destruct s as [b|b| |b m e]; cbn [SFsub].
  - right. by destruct b.
  - left. by destruct b.
  - by left.
  - right. by rewrite Z.sub_diag.
Qed.
End spec_float.

(** [|a - b|] and [|b - a|] are the same double. *)
Lemma abs_sub_comm (a b : float) : abs (a - b) = abs (b - a).
Proof.
  apply Prim2SF_inj. rewrite !abs_spec, !sub_spec. apply SFabs_sub_comm.
Qed.

(** A double does not differ from itself by more than the tolerance: the
    difference is 0, or NaN for an infinity or a NaN. *)
Lemma not_above_self (x : float) : (kAccuracy <? abs (x - x))%float = false.
Proof.
  rewrite ltb_spec, abs_spec, sub_spec. unfold SF64sub.
  by destruct (SFsub_diag prec emax (Prim2SF x)) as [-> | ->].
Qed.

Lemma SFcompare_antisym (x y : spec_float) :
  SFcompare y x = CompOpp <$> SFcompare x y.
Proof.
  destruct x as [sx|sx| |sx mx ex], y as [sy|sy| |sy my ey];
    cbn [SFcompare fmap option_fmap option_map]; try done;
    try (by destruct sx); try (by destruct sy); try (by destruct sx, sy).
  f_equal. rewrite (Z.compare_antisym ex ey).
  change (Pos.compare_cont Eq my mx) with (Pos.compare_cont (CompOpp Eq) my mx).
  rewrite <- (Pos.compare_cont_antisym mx my Eq).
  destruct sx, sy; try done; destruct (ex ?= ey); cbn [CompOpp]; done.
Qed.

(** For a difference that is a number, "not above the tolerance" is "at
    most the tolerance". *)
Lemma not_above_iff_at_most (d : float) :
  is_nan d = false →
  (kAccuracy <? abs d)%float = false ↔ (abs d <=? kAccuracy)%float = true.
Proof.
  intros Hnan. rewrite ltb_spec, leb_spec. unfold SFltb, SFleb.
  rewrite (SFcompare_antisym (Prim2SF kAccuracy)).
  assert (SFcompare (Prim2SF kAccuracy) (Prim2SF (abs d)) ≠ None) as Hc.
  { rewrite abs_spec. unfold is_nan in Hnan. rewrite FloatAxioms.eqb_spec in Hnan.
    destruct (Prim2SF d) as [s|s| |s m e]; try done. }
  destruct (SFcompare (Prim2SF kAccuracy) (Prim2SF (abs d))) as [[]|]; try done.
Qed.

(* ================================================================= *)
(** ** The value layer in closed form *)

(** Case analysis on the integer tests of a goal. *)
Ltac ztests :=
  repeat match goal with
  | |- context [Z.ltb ?a ?b] => destruct (Z.ltb_spec a b)
  | |- context [Z.leb ?a ?b] => destruct (Z.leb_spec a b)
  | |- context [Z.eqb ?a ?b] => destruct (Z.eqb_spec a b)
  | H : context [Z.ltb ?a ?b] |- _ => destruct (Z.ltb_spec a b)
  | H : context [Z.leb ?a ?b] |- _ => destruct (Z.leb_spec a b)
  | H : context [Z.eqb ?a ?b] |- _ => destruct (Z.eqb_spec a b)
  end;
  cbn [andb orb negb]; try first [done | lia].

Lemma get_table (rows cols : Z) (f : Z → Z → float) (i j : Z) :
  0 ≤ i < rows → 0 ≤ j < cols → get (table rows cols f) i j = f i j.
Proof. intros. unfold get, table. cbn [matrix_]. by apply cell_tabulate. Qed.

Lemma put_table (rows cols : Z) (f : Z → Z → float) (i j : Z) (v : float) :
  0 ≤ i → 0 ≤ j →
  put (table rows cols f) i j v = table rows cols (update f i j v).
Proof.
  intros. unfold put, table. cbn [matrix_ rows_ cols_].
  by rewrite set_cell_tabulate.
Qed.

Lemma table_ext (rows cols : Z) (f g : Z → Z → float) :
  (∀ i j, 0 ≤ i < rows → 0 ≤ j < cols → f i j = g i j) →
  table rows cols f = table rows cols g.
Proof. intros. unfold table. f_equal. f_equal. by apply tabulate_ext. Qed.

Lemma live_is_table (m : Matrix) :
  live m → m = table (rows_ m) (cols_ m) (get m).
Proof.
  intros (_ & _ & g & Hg & Hshape). destruct m as [r c mg]. cbn in *. subst mg.
  unfold table. f_equal. f_equal. by apply shaped_is_tabulate.
Qed.

Lemma live_table (rows cols : Z) (f : Z → Z → float) :
  0 < rows → 0 < cols → live (table rows cols f).
Proof.
  intros. split; [done|]. split; [done|]. eexists. split; [done|].
  apply shaped_tabulate.
Qed.

Lemma liveb_live (m : Matrix) : liveb m = true → live m.
Proof.
  unfold liveb, live. destruct (matrix_ m) as [g|]; [|by rewrite andb_false_r].
  rewrite !andb_true_iff, !Z.ltb_lt, Nat.eqb_eq, forallb_forall.
  intros [[? ?] [? Hall]]. repeat split; [done..|]. exists g. repeat split; [done..|].
  apply Forall_forall. intros row Hrow. apply Nat.eqb_eq, Hall.
  by apply list_elem_of_In.
Qed.

Lemma allocated_table (rows cols : Z) :
  allocated rows cols = table rows cols (λ _ _, 0%float).
Proof. unfold allocated, table. by rewrite zero_grid_tabulate. Qed.

(** Two nested loops that visit every element [(i, j)] with [i < n] and
    [j < m] once, with a body that replaces the element by a function of
    its value. *)
Lemma for_fill_body (rows cols n m : Z) (body : Z → Z → Matrix → Matrix)
    (G : Z → Z → float → float) (f : Z → Z → float) :
  0 ≤ n → 0 ≤ m →
  (∀ i j F, 0 ≤ i < n → 0 ≤ j < m →
     body i j (table rows cols F) = table rows cols (update F i j (G i j (F i j)))) →
  for_ n (λ i R, for_ m (λ j R, body i j R) R) (table rows cols f) =
  table rows cols (λ i j, if (i <? n) && (j <? m) then G i j (f i j) else f i j).
Proof.
  intros Hn Hm Hbody.
  etrans; [apply (for_ind (λ i R, R = table rows cols
    (λ i' j', if (i' <? i) && (j' <? m) then G i' j' (f i' j') else f i' j'))); [lia| |]|].
  - apply table_ext. intros. ztests.
  - intros i R Hi ->.
    etrans; [apply (for_ind (λ j R, R = table rows cols
      (λ i' j', if ((i' <? i) && (j' <? m)) || ((i' =? i) && (j' <? j))
                then G i' j' (f i' j') else f i' j'))); [lia| |]|].
    + apply table_ext. intros. ztests.
    + intros j R Hj ->. rewrite Hbody by lia.
      apply table_ext. intros i' j' Hi' Hj'. unfold update. ztests; subst; ztests.
    + apply table_ext. intros. ztests.
  - done.
Qed.

Lemma for_fill (rows cols n m : Z) (G : Z → Z → float → float) (f : Z → Z → float) :
  0 ≤ n ≤ rows → 0 ≤ m ≤ cols →
  for_ n (λ i R, for_ m (λ j R, put R i j (G i j (get R i j))) R) (table rows cols f) =
  table rows cols (λ i j, if (i <? n) && (j <? m) then G i j (f i j) else f i j).
Proof.
  intros Hn Hm. apply (for_fill_body rows cols n m (λ i j R, put R i j (G i j (get R i j))));
    [lia..|].
  intros i j F Hi Hj. by rewrite get_table, put_table by lia.
Qed.

Lemma CopyMatrixElements_val_table (rows cols : Z) (f : Z → Z → float) (other : Matrix) :
  0 ≤ rows → 0 ≤ cols →
  CopyMatrixElements_val (table rows cols f) other = table rows cols (get other).
Proof.
  intros Hr Hc. unfold CopyMatrixElements_val.
  change (rows_ (table rows cols f)) with rows.
  change (cols_ (table rows cols f)) with cols.
  rewrite (for_fill rows cols rows cols (λ i j _, get other i j)) by lia.
  apply table_ext. intros. ztests.
Qed.

Lemma Matrix_copy_table (m : Matrix) :
  0 ≤ rows_ m → 0 ≤ cols_ m →
  Matrix_copy m = table (rows_ m) (cols_ m) (get m).
Proof.
  intros. unfold Matrix_copy. rewrite allocated_table.
  by apply CopyMatrixElements_val_table.
Qed.

(** The copy of a live object has the fields of the object. *)
Lemma Matrix_copy_live (m : Matrix) : live m → Matrix_copy m = m.
Proof.
  intros Hm. rewrite Matrix_copy_table by (destruct Hm as (? & ? & _); lia).
  symmetry. by apply live_is_table.
Qed.

Lemma MulNumber_val_table (rows cols : Z) (f : Z → Z → float) (num : float) :
  0 ≤ rows → 0 ≤ cols →
  MulNumber_val (table rows cols f) num =
  table rows cols (λ i j, (f i j * num)%float).
Proof.
  intros Hr Hc. unfold MulNumber_val.
  change (rows_ (table rows cols f)) with rows.
  change (cols_ (table rows cols f)) with cols.
  rewrite (for_fill rows cols rows cols (λ _ _ x, (x * num)%float)) by lia.
  apply table_ext. intros. ztests.
Qed.

Lemma operator_mul_number_live (m : Matrix) (num : float) :
  live m →
  operator_mul_number m num = table (rows_ m) (cols_ m) (λ i j, (get m i j * num)%float).
Proof.
  intros Hm. pose proof Hm as (Hr & Hc & _). unfold operator_mul_number.
  rewrite (Matrix_copy_live m) by done.
  rewrite (live_is_table m Hm) at 1.
  rewrite MulNumber_val_table by lia.
  apply Matrix_copy_live, live_table; lia.
Qed.

Lemma Matrix_new_ok (rows cols : Z) :
  0 < rows → 0 < cols → Matrix_new rows cols = Ok (table rows cols (λ _ _, 0%float)).
Proof.
  intros. unfold Matrix_new, IsNaturalNumbers.
  rewrite (proj2 (Z.ltb_lt 0 rows)), (proj2 (Z.ltb_lt 0 cols)) by done.
  cbn. by rewrite allocated_table.
Qed.

Lemma Matrix_new_throw (rows cols : Z) :
  rows ≤ 0 ∨ cols ≤ 0 → Matrix_new rows cols = Throw MatrixInvalidArgumentException.
Proof.
  intros H. unfold Matrix_new, IsNaturalNumbers.
  destruct (Z.ltb_spec 0 rows), (Z.ltb_spec 0 cols); cbn; try done; lia.
Qed.

(** [Transpose] in closed form. *)
Lemma Transpose_table (A : Matrix) :
  0 < rows_ A → 0 < cols_ A →
  Transpose A = Ok (table (cols_ A) (rows_ A) (λ j i, get A i j)).
Proof.
  intros Hr Hc. unfold Transpose. rewrite Matrix_new_ok by done.
  cbn [bindR noexcept]. f_equal.
  etrans; [apply (for_ind (λ i R, R = table (cols_ A) (rows_ A)
    (λ j' i', if i' <? i then get A i' j' else 0%float))); [lia| |]|].
  - apply table_ext. intros. ztests.
  - intros i R Hi ->.
    etrans; [apply (for_ind (λ j R, R = table (cols_ A) (rows_ A)
      (λ j' i', if (i' <? i) || ((i' =? i) && (j' <? j))
                then get A i' j' else 0%float))); [lia| |]|].
    + apply table_ext. intros. ztests.
    + intros j R Hj ->. rewrite put_table by lia.
      apply table_ext. intros j' i' Hj' Hi'. unfold update. ztests; subst; ztests.
    + apply table_ext. intros. ztests.
  - apply table_ext. intros. ztests.
Qed.

(** [GetSubmatrix] in closed form. *)
Lemma GetSubmatrix_table (A : Matrix) (dr dc : Z) :
  1 < rows_ A → 1 < cols_ A → 0 ≤ dr < rows_ A → 0 ≤ dc < cols_ A →
  GetSubmatrix A dr dc =
  Ok (table (rows_ A - 1) (cols_ A - 1) (λ i j, get A (skip dr i) (skip dc j))).
Proof.
  intros Hr Hc Hdr Hdc. unfold GetSubmatrix. rewrite Matrix_new_ok by lia.
  cbn [bindR noexcept]. f_equal.
  set (r' := rows_ A - 1). set (c' := cols_ A - 1).
  set (F := λ i j, get A (skip dr i) (skip dc j)).
  match goal with |- fst (for_ _ ?body _) = _ =>
    assert (for_ (rows_ A) body (table r' c' (λ _ _, 0%float), 0) =
            (table r' c' F, r')) as ->; [|done]
  end.
  etrans; [apply (for_ind (λ i s, s =
    (table r' c' (λ i' j', if i' <? kept dr i then F i' j' else 0%float),
     kept dr i))); [lia| |]|].
  - f_equal; [apply table_ext; intros|]; unfold kept; ztests.
  - intros i s Hi ->. destruct (Z.eqb_spec i dr) as [->|Hne].
    + f_equal; [apply table_ext; intros|]; unfold kept; ztests.
    + f_equal; [|unfold kept; ztests].
      match goal with |- fst (for_ _ ?body _) = _ =>
        assert (for_ (cols_ A) body
                  (table r' c' (λ i' j', if i' <? kept dr i then F i' j' else 0%float), 0) =
                (table r' c' (λ i' j', if i' <? kept dr i + 1 then F i' j' else 0%float), c'))
          as ->
      end.
      * etrans; [apply (for_ind (λ j s, s =
          (table r' c' (λ i' j',
             if (i' <? kept dr i) || ((i' =? kept dr i) && (j' <? kept dc j))
             then F i' j' else 0%float), kept dc j))); [lia| |]|].
        -- f_equal; [apply table_ext; intros|]; unfold kept; ztests.
        -- intros j s Hj ->. destruct (Z.eqb_spec j dc) as [->|Hnej].
           ++ f_equal; [apply table_ext; intros|]; unfold kept; ztests.
           ++ f_equal; [|unfold kept; ztests].
              rewrite put_table by (unfold kept; ztests).
              apply table_ext. intros i' j' Hi' Hj'. unfold update, F, skip, kept.
              ztests; subst; try lia; f_equal; lia.
        -- f_equal; [apply table_ext; intros|]; unfold kept, c'; ztests.
      * cbn [fst]. apply table_ext. intros. unfold kept. ztests.
  - f_equal; [apply table_ext; intros|]; unfold kept, r'; ztests.
Qed.

(** *** The determinant *)

Lemma for_option_result {St} (n : Z) (body : Z → option (result St) → option (result St))
    (bodyR : Z → St → result St) (s : St) :
  (∀ j x, 0 ≤ j < n → body j (Some (Ok x)) = Some (bodyR j x)) →
  (∀ j e, 0 ≤ j < n → body j (Some (Throw e)) = Some (Throw e)) →
  for_ n body (Some (Ok s)) = Some (forR n bodyR s).
Proof.
  intros Hok Hthrow. destruct (Z.le_gt_cases 0 n) as [Hn|Hn].
  - assert (∀ k : nat, Z.of_nat k ≤ n →
      for_ (Z.of_nat k) body (Some (Ok s)) = Some (forR (Z.of_nat k) bodyR s)) as H.
    { induction k as [|k IH]; intros Hk.
      - by rewrite for_nonpos, forR_nonpos.
      - replace (Z.of_nat (S k)) with (Z.of_nat k + 1) by lia.
        rewrite for_succ, forR_succ, IH by lia.
        destruct (forR (Z.of_nat k) bodyR s); cbn [bindR].
        + apply Hok. lia.
        + apply Hthrow. lia. }
    specialize (H (Z.to_nat n)). rewrite Z2Nat.id in H by done. apply H. lia.
  - by rewrite for_nonpos, forR_nonpos by lia.
Qed.

Lemma forR_ext {St} (n : Z) (body body' : Z → St → result St) (s : St) :
  (∀ i s', 0 ≤ i < n → body i s' = body' i s') →
  forR n body s = forR n body' s.
Proof.
  intros Hext. destruct (Z.le_gt_cases 0 n) as [Hn|Hn].
  - assert (∀ k : nat, Z.of_nat k ≤ n →
      forR (Z.of_nat k) body s = forR (Z.of_nat k) body' s) as H.
    { induction k as [|k IH]; intros Hk.
      - by rewrite !forR_nonpos.
      - replace (Z.of_nat (S k)) with (Z.of_nat k + 1) by lia.
        rewrite !forR_succ, IH by lia.
        destruct (forR (Z.of_nat k) body' s); cbn [bindR]; [|done].
        apply Hext. lia. }
    specialize (H (Z.to_nat n)). rewrite Z2Nat.id in H by done. apply H. lia.
  - by rewrite !forR_nonpos by lia.
Qed.

(** With fuel above the number of rows, the bound is not reached, and the
    result is one level of the body over the results for the minors. *)
Lemma Determinant_fuel_body (k : nat) :
  ∀ A, (Z.to_nat (rows_ A) < k)%nat →
  ∃ r, Determinant_fuel k A = Some r ∧
       ∀ rec,
         (∀ j, 0 ≤ j < cols_ A → 1 < rows_ A → rows_ A = cols_ A →
               ∀ sub, GetSubmatrix A 0 j = Ok sub →
               Determinant_fuel (Nat.pred k) sub = Some (rec sub)) →
         r = Determinant_body rec A.
Proof.
  induction k as [|k IH]; intros A Hk; [lia|].
  cbn [Determinant_fuel]. unfold Determinant_body.
  destruct (IsSquareMatrix A) eqn:Hsq; cbn [negb]; [|by eexists].
  destruct (IsMatrixNumber A) eqn:Hnum; [by eexists|].
  apply Z.eqb_eq in Hsq. unfold IsMatrixNumber in Hnum.
  set (body := λ (rec : Matrix → result float) j (result : float),
    if (kAccuracy <? abs (get A 0 j))%float then
      let* sub := GetSubmatrix A 0 j in
      let* d := rec sub in
      Ok (result + get A 0 j * d * sign j)%float
    else Ok result).
  set (rec0 := λ sub, default (Throw Terminate) (Determinant_fuel k sub)).
  exists (forR (cols_ A) (body rec0) 0%float). split.
  - apply for_option_result; [|done].
    intros j x Hj. unfold body.
    destruct (kAccuracy <? abs (get A 0 j))%float; [|done].
    assert (1 < rows_ A) as Hr by (ztests).
    rewrite GetSubmatrix_table by lia. cbn [bindR].
    destruct (IH (table (rows_ A - 1) (cols_ A - 1)
                   (λ i j0, get A (skip 0 i) (skip j j0)))) as (r & Hfuel & _).
    { cbn [rows_ table]. lia. }
    unfold rec0. rewrite Hfuel. cbn [default]. by destruct r.
  - intros rec Hrec. apply forR_ext. intros j x Hj. unfold body.
    destruct (kAccuracy <? abs (get A 0 j))%float; [|done].
    assert (1 < rows_ A) as Hr by (ztests).
    destruct (GetSubmatrix A 0 j) as [sub|e] eqn:Hsub; cbn [bindR]; [|done].
    unfold rec0. cbn [Nat.pred] in Hrec. by rewrite (Hrec j Hj Hr Hsq sub Hsub).
Qed.

Lemma Determinant_fuel_enough (A : Matrix) :
  Determinant_fuel (S (Z.to_nat (rows_ A))) A = Some (Determinant A).
Proof.
  unfold Determinant.
  destruct (Determinant_fuel_body (S (Z.to_nat (rows_ A))) A) as (r & -> & _); [lia|done].
Qed.

(** The equation of the recursive function. *)
Lemma Determinant_unfold (A : Matrix) :
  Determinant A = Determinant_body Determinant A.
Proof.
  destruct (Determinant_fuel_body (S (Z.to_nat (rows_ A))) A) as (r & Hr & Hbody); [lia|].
  pose proof (Determinant_fuel_enough A) as He. rewrite Hr in He.
  injection He as ->. apply Hbody.
  intros j Hj Hrows Hsq sub Hsub. cbn [Nat.pred].
  rewrite GetSubmatrix_table in Hsub by lia. injection Hsub as <-.
  rewrite <- Determinant_fuel_enough. cbn [rows_ table]. do 2 f_equal. lia.
Qed.

Lemma forR_ok {St} (n : Z) (body : Z → St → result St) (s : St) :
  (∀ i s', 0 ≤ i < n → ∃ s'', body i s' = Ok s'') →
  ∃ s', forR n body s = Ok s'.
Proof.
  intros Hb. destruct (Z.le_gt_cases 0 n) as [Hn|Hn].
  - assert (∀ k : nat, Z.of_nat k ≤ n → ∃ s', forR (Z.of_nat k) body s = Ok s') as H.
    { induction k as [|k IH]; intros Hk.
      - rewrite forR_nonpos by lia. by eexists.
      - replace (Z.of_nat (S k)) with (Z.of_nat k + 1) by lia.
        rewrite forR_succ by lia. destruct IH as [s' ->]; [lia|].
        cbn [bindR]. apply Hb. lia. }
    specialize (H (Z.to_nat n)). rewrite Z2Nat.id in H by done. apply H. lia.
  - rewrite forR_nonpos by lia. by eexists.
Qed.

(** The determinant of a square matrix of positive size is computed: no
    exception, and the recursion ends. *)
Lemma Determinant_ok (A : Matrix) :
  0 < rows_ A → rows_ A = cols_ A → ∃ d, Determinant A = Ok d.
Proof.
  remember (Z.to_nat (rows_ A)) as n eqn:Hn. revert A Hn.
  induction n as [|n IH]; intros A Hn Hpos Hsq; [lia|].
  rewrite Determinant_unfold. unfold Determinant_body, IsSquareMatrix.
  rewrite (proj2 (Z.eqb_eq _ _) Hsq). cbn [negb].
  destruct (IsMatrixNumber A) eqn:Hnum; [by eexists|].
  unfold IsMatrixNumber in Hnum. assert (1 < rows_ A) as Hr by ztests.
  apply forR_ok. intros j acc Hj.
  destruct (kAccuracy <? abs (get A 0 j))%float; [|by eexists].
  rewrite GetSubmatrix_table by lia. cbn [bindR].
  destruct (IH (table (rows_ A - 1) (cols_ A - 1) (λ i j0, get A (skip 0 i) (skip j j0))))
    as [d Hd]; [cbn [rows_ cols_ table]; lia..|].
  rewrite Hd. cbn [bindR]. by eexists.
Qed.

(** When no element lies within the tolerance of zero, no term is left
    out. *)
Lemma Determinant_cofactor_sum (n : nat) :
  ∀ A, Z.of_nat n = rows_ A → rows_ A = cols_ A → 0 < rows_ A →
  (∀ i j, 0 ≤ i < rows_ A → 0 ≤ j < cols_ A →
          (kAccuracy <? abs (get A i j))%float = true) →
  Determinant A = Ok (cofactor_sum n A).
Proof.
  induction n as [|n IH]; intros A Hn Hsq Hpos Hbig; [lia|].
  rewrite Determinant_unfold. unfold Determinant_body, IsSquareMatrix.
  rewrite (proj2 (Z.eqb_eq _ _) Hsq). cbn [negb].
  destruct (IsMatrixNumber A) eqn:Hnum; unfold IsMatrixNumber in Hnum.
  - assert (n = O) as -> by ztests. done.
  - assert (1 < rows_ A) as Hr by ztests.
    destruct n as [|n]; [lia|]. cbn [cofactor_sum].
    rewrite <- Hsq, <- Hn. apply forR_pure. intros j acc Hj.
    rewrite Hbig by lia. rewrite GetSubmatrix_table by lia. cbn [bindR].
    fold (minor A 0 j). rewrite (IH (minor A 0 j)); [done|unfold minor; cbn [rows_ cols_ table]; lia..|].
    intros i' j' Hi' Hj'. unfold minor in *. cbn [rows_ cols_ table] in Hi', Hj'.
    rewrite get_table by done. apply Hbig; unfold skip; ztests.
Qed.

Lemma Determinant_det (A : Matrix) :
  0 < rows_ A → rows_ A = cols_ A → Determinant A = Ok (det A).
Proof.
  intros Hpos Hsq. unfold det.
  by destruct (Determinant_ok A Hpos Hsq) as [d ->].
Qed.

Lemma CalcComplements_not_square (A : Matrix) :
  rows_ A ≠ cols_ A →
  CalcComplements A = Throw (MatrixLogicErrorException "Matrix is not square").
Proof.
  intros Hne. unfold CalcComplements, IsSquareMatrix.
  by rewrite (proj2 (Z.eqb_neq _ _) Hne).
Qed.

Lemma CalcComplements_number (A : Matrix) :
  rows_ A = 1 → cols_ A = 1 →
  CalcComplements A = Ok (table 1 1 (λ _ _, 1%float)).
Proof.
  intros Hr Hc. unfold CalcComplements, IsSquareMatrix, IsMatrixNumber.
  rewrite Hr, Hc. cbn [Z.eqb Pos.eqb negb andb]. rewrite Matrix_new_ok by lia.
  cbn [bindR]. by rewrite put_table by lia.
Qed.

(** [CalcComplements] in closed form. *)
Lemma CalcComplements_table (A : Matrix) :
  1 < rows_ A → rows_ A = cols_ A →
  CalcComplements A =
  Ok (table (rows_ A) (cols_ A) (λ i j, (det (minor A i j) * sign (i + j))%float)).
Proof.
  intros Hr Hsq. unfold CalcComplements, IsSquareMatrix, IsMatrixNumber.
  rewrite (proj2 (Z.eqb_eq _ _) Hsq). cbn [negb].
  rewrite Matrix_new_ok by lia. cbn [bindR].
  replace (rows_ A =? 1) with false by (symmetry; apply Z.eqb_neq; lia).
  cbn [andb].
  erewrite forR_pure; [f_equal|].
  2:{ intros i R Hi. apply forR_pure. intros j R' Hj.
      rewrite GetSubmatrix_table by lia. cbn [bindR]. fold (minor A i j).
      rewrite Determinant_det by (unfold minor; cbn [rows_ cols_ table]; lia).
      cbn [bindR]. reflexivity. }
  cbn beta.
  rewrite (for_fill (rows_ A) (cols_ A) (rows_ A) (cols_ A)
             (λ i j _, (det (minor A i j) * sign (i + j))%float)) by lia.
  apply table_ext. intros. ztests.
Qed.

Lemma InverseMatrix_singular (A : Matrix) (d : float) :
  Determinant A = Ok d → (abs d <? kAccuracy)%float = true →
  InverseMatrix A = Throw (MatrixLogicErrorException "Matrix determinant is 0").
Proof. intros Hd Hlt. unfold InverseMatrix. rewrite Hd. cbn [bindR]. by rewrite Hlt. Qed.

Lemma InverseMatrix_regular (A : Matrix) (d : float) (C T : Matrix) :
  Determinant A = Ok d → (abs d <? kAccuracy)%float = false →
  CalcComplements A = Ok C → Transpose C = Ok T →
  InverseMatrix A = Ok (operator_mul_number T (1 / d)%float).
Proof.
  intros Hd Hlt HC HT. unfold InverseMatrix. rewrite Hd. cbn [bindR].
  rewrite Hlt, HC. cbn [bindR]. by rewrite HT.
Qed.

(** A property of the state that every iteration keeps. *)
Lemma for_keeps {St} (P : St → Prop) (n : Z) (body : Z → St → St) (s : St) :
  P s → (∀ i s', P s' → P (body i s')) → P (for_ n body s).
Proof.
  intros Hs Hbody. unfold for_. generalize 0 as i. revert s Hs.
  induction (Z.to_nat n) as [|k IH]; intros s Hs i; [done|].
  cbn [iterate]. apply IH. by apply Hbody.
Qed.

Lemma Matrix_copy_dims (O : Matrix) :
  rows_ (Matrix_copy O) = rows_ O ∧ cols_ (Matrix_copy O) = cols_ O.
Proof.
  unfold Matrix_copy, CopyMatrixElements_val.
  apply (for_keeps (λ R, rows_ R = rows_ O ∧ cols_ R = cols_ O)); [done|].
  intros i R HR. by apply for_keeps.
Qed.


Lemma for_fill_any (rows cols n m : Z) (G : Z → Z → float → float) (f : Z → Z → float) :
  n ≤ rows → m ≤ cols →
  for_ n (λ i R, for_ m (λ j R, put R i j (G i j (get R i j))) R) (table rows cols f) =
  table rows cols (λ i j, if (i <? n) && (j <? m) then G i j (f i j) else f i j).
Proof.
  intros Hn Hm. destruct (Z.le_gt_cases 0 n) as [Hn0|Hn0].
  - destruct (Z.le_gt_cases 0 m) as [Hm0|Hm0]; [by apply for_fill|].
    etrans; [apply (for_keeps (λ R, R = table rows cols f)); [done|]|].
    + intros i R ->. by rewrite for_nonpos by lia.
    + apply table_ext. intros. ztests.
  - rewrite for_nonpos by lia. apply table_ext. intros. ztests.
Qed.


Lemma sign_even (k : Z) :
  sign k = if Z.even k then 1%float else (-1)%float.
Proof.
  unfold sign. rewrite Zeven_mod.
  destruct (Z.eqb_spec (Z.rem k 2) 0) as [H|H], (Z.eqb_spec (k mod 2) 0) as [H'|H'];
    try done; exfalso; by rewrite Z.rem_mod_eq_0 in H.
Qed.

(** The minor is the grid without one row and without one element of
    every other row. *)
Lemma minor_delete (A : Matrix) (g : grid) (dr dc : Z) :
  matrix_ A = Some g → shaped g (rows_ A) (cols_ A) →
  0 ≤ dr < rows_ A → 0 ≤ dc < cols_ A →
  matrix_ (minor A dr dc) =
  Some (delete (Z.to_nat dc) <$> delete (Z.to_nat dr) g).
Proof.
  intros Hg [Hlen Hrows] Hdr Hdc. unfold minor, table. cbn [matrix_]. f_equal.
  apply list_eq. intros i. rewrite lookup_tabulate_row, list_lookup_fmap.
  rewrite list_lookup_delete.
  assert (∀ i' : nat, (i' < length g)%nat →
     ∃ row, g !! i' = Some row ∧ length row = Z.to_nat (cols_ A)) as Hrow.
  { intros i' Hi'. destruct (lookup_lt_is_Some_2 g i' Hi') as [row Hrow].
    exists row. split; [done|]. by apply (Forall_lookup_1 _ _ _ _ Hrows Hrow). }
  case_decide as Hi.
  - set (i' := if decide (i < Z.to_nat dr)%nat then i else S i).
    assert (Z.of_nat i' = skip dr (Z.of_nat i)) as Hskip.
    { unfold i', skip. case_decide; ztests. }
    destruct (Hrow i') as (row & Hi' & Hrowlen).
    { unfold i'. case_decide; lia. }
    fold i'. rewrite Hi'. cbn [fmap option_fmap option_map]. f_equal.
    apply list_eq. intros j. rewrite lookup_tabulate_col, list_lookup_delete.
    unfold get, cell. rewrite Hg, <- Hskip, Nat2Z.id, Hi'.
    case_decide as Hj.
    + set (j' := if decide (j < Z.to_nat dc)%nat then j else S j).
      assert (Z.of_nat j' = skip dc (Z.of_nat j)) as Hskipj.
      { unfold j', skip. case_decide; ztests. }
      rewrite <- Hskipj, Nat2Z.id. fold j'.
      destruct (lookup_lt_is_Some_2 row j') as [x ->]; [|done].
      unfold j'. case_decide; lia.
    + symmetry. case_decide; apply lookup_ge_None_2; lia.
  - symmetry. case_decide.
    + rewrite lookup_ge_None_2 by lia. done.
    + rewrite lookup_ge_None_2 by lia. done.
Qed.

(** The determinant of a square matrix of size 2 or more is the sum, from
    0 and in the order of the columns, of the signed products of the
    first-row elements above the tolerance with the determinants of their
    minors. *)
Lemma Determinant_expansion (A : Matrix) :
  1 < rows_ A → rows_ A = cols_ A →
  Determinant A =
  Ok (for_ (cols_ A) (λ j acc,
        if (kAccuracy <? abs (get A 0 j))%float
        then (acc + get A 0 j * det (minor A 0 j) * sign j)%float
        else acc) 0%float).
Proof.
  intros Hr Hsq. rewrite Determinant_unfold. unfold Determinant_body, IsSquareMatrix.
  rewrite (proj2 (Z.eqb_eq _ _) Hsq). cbn [negb]. unfold IsMatrixNumber.
  replace (rows_ A =? 1) with false by (symmetry; ztests). cbn [andb].
  apply forR_pure. intros j acc Hj.
  destruct (kAccuracy <? abs (get A 0 j))%float; [|done].
  rewrite GetSubmatrix_table by lia. cbn [bindR]. fold (minor A 0 j).
  rewrite Determinant_det by (unfold minor; cbn [rows_ cols_ table]; lia). done.
Qed.

Lemma Determinant_number (A : Matrix) :
  rows_ A = 1 → cols_ A = 1 → Determinant A = Ok (get A 0 0).
Proof.
  intros Hr Hc. rewrite Determinant_unfold.
  unfold Determinant_body, IsSquareMatrix, IsMatrixNumber. by rewrite Hr, Hc.
Qed.

Lemma Determinant_not_square (A : Matrix) :
  rows_ A ≠ cols_ A →
  Determinant A = Throw (MatrixLogicErrorException "Matrix is not square").
Proof.
  intros Hne. rewrite Determinant_unfold. unfold Determinant_body, IsSquareMatrix.
  by rewrite (proj2 (Z.eqb_neq _ _) Hne).
Qed.

Lemma GetSubmatrix_minor (A : Matrix) (dr dc : Z) :
  1 < rows_ A → 1 < cols_ A → 0 ≤ dr < rows_ A → 0 ≤ dc < cols_ A →
  GetSubmatrix A dr dc = Ok (minor A dr dc).
Proof. apply GetSubmatrix_table. Qed.

(* ================================================================= *)
(** ** The store layer *)

(** *** Running straight-line code *)

Lemma run_bind {A B} (m : M A) (k : A → M B) (σ σ' : store) (a : A) :
  m σ = (Ok a, σ') → (let! x := m in k x) σ = k a σ'.
Proof. intros H. unfold bind. by rewrite H. Qed.

Lemma run_bind_throw {A B} (m : M A) (k : A → M B) (σ σ' : store) (e : exception) :
  m σ = (Throw e, σ') → (let! x := m in k x) σ = (Throw e, σ').
Proof. intros H. unfold bind. by rewrite H. Qed.

Section object.
(** An object [A] at the address [a] of the store [σ]. *)
Variables (a : addr) (σ : store) (A : Matrix).
Hypothesis Ha : σ !! a = Some A.

Lemma run_load : load a σ = (Ok A, σ).
Proof. unfold load. by rewrite Ha. Qed.

Lemma run_field {T} (f : Matrix → T) : field f a σ = (Ok (f A), σ).
Proof. unfold field. by rewrite (run_bind _ _ _ _ _ run_load). Qed.

Lemma run_read_cell (i j : Z) : read_cell a i j σ = (Ok (get A i j), σ).
Proof. unfold read_cell. by rewrite (run_bind _ _ _ _ _ run_load). Qed.

Lemma run_write_cell (i j : Z) (v : float) :
  write_cell a i j v σ = (Ok tt, <[a := put A i j v]> σ).
Proof. unfold write_cell. by rewrite (run_bind _ _ _ _ _ run_load). Qed.

Lemma run_set_rows_ (v : Z) :
  set_rows_ a v σ = (Ok tt, <[a := mkMatrix v (cols_ A) (matrix_ A)]> σ).
Proof. unfold set_rows_. by rewrite (run_bind _ _ _ _ _ run_load). Qed.

Lemma run_set_cols_ (v : Z) :
  set_cols_ a v σ = (Ok tt, <[a := mkMatrix (rows_ A) v (matrix_ A)]> σ).
Proof. unfold set_cols_. by rewrite (run_bind _ _ _ _ _ run_load). Qed.

Lemma run_set_matrix_ (v : option grid) :
  set_matrix_ a v σ = (Ok tt, <[a := mkMatrix (rows_ A) (cols_ A) v]> σ).
Proof. unfold set_matrix_. by rewrite (run_bind _ _ _ _ _ run_load). Qed.

Lemma lookup_insert_same (X : Matrix) : <[a := X]> σ !! a = Some X.
Proof. apply list_lookup_insert_eq. by eapply lookup_lt_Some. Qed.
End object.

(** Writing the three fields of an object one after the other. *)
Lemma run_set_fields (a : addr) (σ : store) (A : Matrix) (r c : Z) (g : option grid) :
  σ !! a = Some A →
  (set_rows_ a r >> set_cols_ a c >> set_matrix_ a g) σ =
  (Ok tt, <[a := mkMatrix r c g]> σ).
Proof.
  intros H.
  rewrite (run_bind _ _ _ _ _ (run_set_rows_ _ _ _ H _)).
  rewrite (run_bind _ _ _ _ _
    (run_set_cols_ _ _ _ (lookup_insert_same _ _ _ H _) _)).
  rewrite (run_set_matrix_ _ _ (mkMatrix r c (matrix_ A))).
  - cbn [rows_ cols_]. by rewrite !list_insert_insert_eq.
  - rewrite list_insert_insert_eq. by eapply lookup_insert_same.
Qed.

Lemma run_InvalidateMatrix (a : addr) (σ : store) (A : Matrix) :
  σ !! a = Some A → InvalidateMatrix a σ = (Ok tt, <[a := invalid]> σ).
Proof. intros H. unfold InvalidateMatrix. by rewrite (run_set_fields _ _ _ _ _ _ H). Qed.

Lemma run_AllocateMatrixMemory (a : addr) (σ : store) (A : Matrix) (r c : Z) :
  σ !! a = Some A →
  AllocateMatrixMemory a r c σ = (Ok tt, <[a := allocated r c]> σ).
Proof. intros H. unfold AllocateMatrixMemory. by rewrite (run_set_fields _ _ _ _ _ _ H). Qed.

(** *** Loops over the store *)

Lemma iterateM_S (k : nat) (i : Z) (body : Z → M unit) :
  iterateM (S k) i body = (body i >> iterateM k (i + 1) body).
Proof. reflexivity. Qed.

Lemma forM_nonpos (n : Z) (body : Z → M unit) (σ : store) :
  n ≤ 0 → forM n body σ = (Ok tt, σ).
Proof. intros Hn. unfold forM. by replace (Z.to_nat n) with O by lia. Qed.

Lemma iterateM_succ (k : nat) (i : Z) (body : Z → M unit) (σ : store) :
  iterateM (S k) i body σ = (iterateM k i body >> body (i + Z.of_nat k)) σ.
Proof.
  revert i σ. induction k as [|k IH]; intros i σ.
  - cbn [iterateM]. unfold bind, ret. rewrite Z.add_0_r.
    by destruct (body i σ) as [[[]|e] σ'].
  - rewrite (iterateM_S (S k)), (iterateM_S k i). unfold bind.
    destruct (body i σ) as [[[]|e] σ']; [|done].
    rewrite IH. unfold bind. destruct (iterateM k (i + 1) body σ') as [[[]|e] σ'']; [|done].
    f_equal; lia.
Qed.

Lemma forM_succ (n : Z) (body : Z → M unit) (σ : store) :
  0 ≤ n → forM (n + 1) body σ = (forM n body >> body n) σ.
Proof.
  intros Hn. unfold forM.
  replace (Z.to_nat (n + 1)) with (S (Z.to_nat n)) by lia.
  rewrite iterateM_succ. unfold bind.
  destruct (iterateM _ _ _ _) as [[[]|e] σ']; [|done]. f_equal; lia.
Qed.

(** A loop whose body updates one object [r] by a function of the object
    is the loop of that function on the object. *)
Lemma forM_pure (r : addr) (f : Z → Matrix → Matrix) (n : Z) (body : Z → M unit)
    (σ : store) (R : Matrix) :
  σ !! r = Some R →
  (∀ i R', 0 ≤ i < n → body i (<[r := R']> σ) = (Ok tt, <[r := f i R']> σ)) →
  forM n body σ = (Ok tt, <[r := for_ n f R]> σ).
Proof.
  intros Hr Hbody. destruct (Z.le_gt_cases 0 n) as [Hn|Hn].
  - assert (∀ k : nat, Z.of_nat k ≤ n →
      forM (Z.of_nat k) body σ = (Ok tt, <[r := for_ (Z.of_nat k) f R]> σ)) as H.
    { induction k as [|k IH]; intros Hk.
      - rewrite forM_nonpos, for_nonpos by lia. by rewrite list_insert_id.
      - replace (Z.of_nat (S k)) with (Z.of_nat k + 1) by lia.
        rewrite forM_succ, for_succ by lia.
        rewrite (run_bind _ _ _ _ _ (IH ltac:(lia))). apply Hbody. lia. }
    specialize (H (Z.to_nat n)). rewrite Z2Nat.id in H by done. apply H. lia.
  - rewrite forM_nonpos, for_nonpos by lia. by rewrite list_insert_id.
Qed.

(** The same for two nested loops, the form every element-wise loop of
    [matrix.cc] has. *)
Lemma forM_pure2 (r : addr) (f : Z → Z → Matrix → Matrix) (n m : Z)
    (body : Z → Z → M unit) (σ : store) (R : Matrix) :
  σ !! r = Some R →
  (∀ i j R', 0 ≤ i < n → 0 ≤ j < m →
     body i j (<[r := R']> σ) = (Ok tt, <[r := f i j R']> σ)) →
  forM n (λ i, forM m (λ j, body i j)) σ =
  (Ok tt, <[r := for_ n (λ i R, for_ m (λ j R, f i j R) R) R]> σ).
Proof.
  intros Hr Hbody. apply forM_pure; [done|]. intros i R' Hi.
  rewrite (forM_pure r (f i) m (body i) (<[r := R']> σ) R').
  - by rewrite list_insert_insert_eq.
  - by eapply lookup_insert_same.
  - intros j R'' Hj. rewrite !list_insert_insert_eq. by apply Hbody.
Qed.

(** *** The store with a local at its end *)

Section local_at_end.
(** The store [σ] followed by a local [X], which has the address
    [length σ]. *)
Variables (σ : store) (X : Matrix).

Lemma snoc_lookup_old (a : addr) (A : Matrix) :
  σ !! a = Some A → (σ ++ [X]) !! a = Some A.
Proof. apply lookup_app_l_Some. Qed.

Lemma snoc_lookup_new : (σ ++ [X]) !! length σ = Some X.
Proof. by apply list_lookup_middle. Qed.

Lemma snoc_insert_new (Y : Matrix) : <[length σ := Y]> (σ ++ [X]) = σ ++ [Y].
Proof. rewrite insert_app_r_alt by lia. by rewrite Nat.sub_diag. Qed.

Lemma snoc_insert_old (Y : Matrix) (a : addr) (A : Matrix) :
  σ !! a = Some A → <[a := Y]> (σ ++ [X]) = <[a := Y]> σ ++ [X].
Proof. intros H. apply insert_app_l. by eapply lookup_lt_Some. Qed.
End local_at_end.

Lemma lookup_old_ne_new (σ : store) (a : addr) (A : Matrix) :
  σ !! a = Some A → a ≠ length σ.
Proof. intros H%lookup_lt_Some. lia. Qed.

(** *** Copies *)

Lemma run_CopyMatrixElements (this other : addr) (σ : store) (T O : Matrix) :
  this ≠ other → σ !! this = Some T → σ !! other = Some O →
  CopyMatrixElements this other σ = (Ok tt, <[this := CopyMatrixElements_val T O]> σ).
Proof.
  intros Hne Ht Ho. unfold CopyMatrixElements.
  rewrite (run_bind _ _ _ _ _ (run_field _ _ _ Ht rows_)).
  rewrite (run_bind _ _ _ _ _ (run_field _ _ _ Ht cols_)).
  apply (forM_pure2 this (λ i j R, put R i j (get O i j))); [done|].
  intros i j R' Hi Hj.
  rewrite (run_bind _ _ _ (<[this := R']> σ) (get O i j)).
  - rewrite (run_write_cell _ _ R') by (by eapply lookup_insert_same).
    by rewrite list_insert_insert_eq.
  - apply run_read_cell. by rewrite list_lookup_insert_ne.
Qed.

Lemma run_reallocate (this : addr) (r c : Z) (σ : store) (T : Matrix) :
  σ !! this = Some T →
  (FreeMatrixMemory this >> AllocateMatrixMemory this r c) σ =
  (Ok tt, <[this := allocated r c]> σ).
Proof.
  intros Ht. unfold FreeMatrixMemory.
  rewrite (run_bind _ _ _ _ _ (run_InvalidateMatrix _ _ _ Ht)).
  rewrite (run_AllocateMatrixMemory _ _ invalid) by (by eapply lookup_insert_same).
  by rewrite list_insert_insert_eq.
Qed.

Lemma run_CopyFrom (this other : addr) (σ : store) (T O : Matrix) :
  this ≠ other → σ !! this = Some T → σ !! other = Some O →
  live O → live T ∨ IsSameDimensionMatrix T O = false →
  CopyFrom this other σ = (Ok tt, <[this := O]> σ).
Proof.
  intros Hne Ht Ho HO HT. unfold CopyFrom. rewrite decide_True by done.
  rewrite (run_bind _ _ _ _ _ (run_load _ _ _ Ht)).
  rewrite (run_bind _ _ _ _ _ (run_load _ _ _ Ho)).
  pose proof HO as (HOr & HOc & _).
  destruct (IsSameDimensionMatrix T O) eqn:Hsame; cbn [negb].
  - destruct HT as [HT|HT]; [|done].
    unfold bind at 1, ret at 1.
    rewrite (run_CopyMatrixElements this other σ T O) by done. do 2 f_equal.
    unfold IsSameDimensionMatrix in Hsame. apply andb_true_iff in Hsame as [Hc Hr].
    apply Z.eqb_eq in Hc, Hr.
    rewrite (live_is_table T HT), Hc, Hr, CopyMatrixElements_val_table by lia.
    symmetry. by apply live_is_table.
  - rewrite (run_bind _ _ _ _ _ (run_reallocate _ _ _ _ _ Ht)).
    rewrite (run_CopyMatrixElements this other _ (allocated (rows_ O) (cols_ O)) O);
      [|done|by eapply lookup_insert_same|by rewrite list_lookup_insert_ne].
    rewrite list_insert_insert_eq. do 2 f_equal.
    by apply Matrix_copy_live.
Qed.

Lemma run_operator_assign (this other : addr) (σ : store) (T O : Matrix) :
  this ≠ other → σ !! this = Some T → σ !! other = Some O →
  live O → live T ∨ IsSameDimensionMatrix T O = false →
  operator_assign this other σ = (Ok this, <[this := O]> σ).
Proof.
  intros Hne Ht Ho HO HT. unfold operator_assign, noexceptM.
  rewrite decide_True by done.
  by rewrite (run_bind _ _ _ _ _ (run_CopyFrom _ _ _ _ _ Hne Ht Ho HO HT)).
Qed.

Lemma run_operator_assign_self (this : addr) (σ : store) :
  operator_assign this this σ = (Ok this, σ).
Proof. unfold operator_assign, noexceptM. by rewrite decide_False by (by intros []). Qed.

(** The move assignment has the body of the copy assignment. *)
Lemma operator_move_assign_is_copy (this other : addr) :
  operator_move_assign this other = operator_assign this other.
Proof. reflexivity. Qed.

(** *** Constructors, destructor, scopes *)

Lemma run_Matrix_ctor (rows cols : Z) (σ : store) :
  0 < rows → 0 < cols →
  Matrix_ctor rows cols σ = (Ok (length σ), σ ++ [table rows cols (λ _ _, 0%float)]).
Proof.
  intros Hr Hc. unfold Matrix_ctor, construct, IsNaturalNumbers.
  rewrite (proj2 (Z.ltb_lt 0 rows)), (proj2 (Z.ltb_lt 0 cols)) by done.
  cbn [andb negb].
  rewrite (run_AllocateMatrixMemory _ _ invalid) by apply snoc_lookup_new.
  by rewrite snoc_insert_new, allocated_table.
Qed.

Lemma run_Matrix_ctor_throw (rows cols : Z) (σ : store) :
  rows ≤ 0 ∨ cols ≤ 0 →
  Matrix_ctor rows cols σ = (Throw MatrixInvalidArgumentException, σ).
Proof.
  intros H. unfold Matrix_ctor, construct, IsNaturalNumbers.
  replace ((0 <? rows) && (0 <? cols)) with false by (symmetry; ztests).
  cbn [negb]. unfold throw. by rewrite take_app_length.
Qed.

Lemma run_Matrix_copy_ctor (other : addr) (σ : store) (O : Matrix) :
  σ !! other = Some O →
  Matrix_copy_ctor other σ = (Ok (length σ), σ ++ [Matrix_copy O]).
Proof.
  intros Ho. unfold Matrix_copy_ctor, noexceptM, construct.
  rewrite decide_True by (symmetry; by eapply lookup_old_ne_new).
  rewrite (run_bind _ _ _ _ _ (run_load _ _ _ (snoc_lookup_old _ _ _ _ Ho))).
  rewrite (run_bind _ _ _ _ _
    (run_AllocateMatrixMemory _ _ _ _ _ (snoc_lookup_new _ _))).
  rewrite snoc_insert_new.
  rewrite (run_CopyMatrixElements _ other _ (allocated (rows_ O) (cols_ O)) O);
    [|symmetry; by eapply lookup_old_ne_new|apply snoc_lookup_new|by apply snoc_lookup_old].
  by rewrite snoc_insert_new.
Qed.

Lemma run_swap_rows_ (a b : addr) (σ : store) (X Y : Matrix) :
  a ≠ b → σ !! a = Some X → σ !! b = Some Y →
  swap_rows_ a b σ =
  (Ok tt, <[b := mkMatrix (rows_ X) (cols_ Y) (matrix_ Y)]>
            (<[a := mkMatrix (rows_ Y) (cols_ X) (matrix_ X)]> σ)).
Proof.
  intros Hne Ha Hb. unfold swap_rows_.
  rewrite (run_bind _ _ _ _ _ (run_field _ _ _ Ha rows_)).
  rewrite (run_bind _ _ _ _ _ (run_field _ _ _ Hb rows_)).
  rewrite (run_bind _ _ _ _ _ (run_set_rows_ _ _ _ Ha _)).
  apply run_set_rows_. by rewrite list_lookup_insert_ne.
Qed.

Lemma run_swap_cols_ (a b : addr) (σ : store) (X Y : Matrix) :
  a ≠ b → σ !! a = Some X → σ !! b = Some Y →
  swap_cols_ a b σ =
  (Ok tt, <[b := mkMatrix (rows_ Y) (cols_ X) (matrix_ Y)]>
            (<[a := mkMatrix (rows_ X) (cols_ Y) (matrix_ X)]> σ)).
Proof.
  intros Hne Ha Hb. unfold swap_cols_.
  rewrite (run_bind _ _ _ _ _ (run_field _ _ _ Ha cols_)).
  rewrite (run_bind _ _ _ _ _ (run_field _ _ _ Hb cols_)).
  rewrite (run_bind _ _ _ _ _ (run_set_cols_ _ _ _ Ha _)).
  apply run_set_cols_. by rewrite list_lookup_insert_ne.
Qed.

Lemma run_swap_matrix_ (a b : addr) (σ : store) (X Y : Matrix) :
  a ≠ b → σ !! a = Some X → σ !! b = Some Y →
  swap_matrix_ a b σ =
  (Ok tt, <[b := mkMatrix (rows_ Y) (cols_ Y) (matrix_ X)]>
            (<[a := mkMatrix (rows_ X) (cols_ X) (matrix_ Y)]> σ)).
Proof.
  intros Hne Ha Hb. unfold swap_matrix_.
  rewrite (run_bind _ _ _ _ _ (run_field _ _ _ Ha matrix_)).
  rewrite (run_bind _ _ _ _ _ (run_field _ _ _ Hb matrix_)).
  rewrite (run_bind _ _ _ _ _ (run_set_matrix_ _ _ _ Ha _)).
  apply run_set_matrix_. by rewrite list_lookup_insert_ne.
Qed.

(** The three swaps exchange the two objects. *)
Lemma run_swap_all (a b : addr) (σ : store) (X Y : Matrix) :
  a ≠ b → σ !! a = Some X → σ !! b = Some Y →
  (swap_matrix_ a b >> swap_rows_ a b >> swap_cols_ a b) σ =
  (Ok tt, <[b := X]> (<[a := Y]> σ)).
Proof.
  intros Hne Ha Hb.
  rewrite (run_bind _ _ _ _ _ (run_swap_matrix_ _ _ _ _ _ Hne Ha Hb)).
  set (σ1 := <[b := _]> (<[a := _]> σ)).
  assert (σ1 !! a = Some (mkMatrix (rows_ X) (cols_ X) (matrix_ Y))) as Ha1.
  { unfold σ1. rewrite list_lookup_insert_ne by done. by eapply lookup_insert_same. }
  assert (σ1 !! b = Some (mkMatrix (rows_ Y) (cols_ Y) (matrix_ X))) as Hb1.
  { unfold σ1. eapply lookup_insert_same. by rewrite list_lookup_insert_ne. }
  rewrite (run_bind _ _ _ _ _ (run_swap_rows_ _ _ _ _ _ Hne Ha1 Hb1)).
  set (σ2 := <[b := _]> (<[a := _]> σ1)).
  assert (σ2 !! a = Some (mkMatrix (rows_ Y) (cols_ X) (matrix_ Y))) as Ha2.
  { unfold σ2. rewrite list_lookup_insert_ne by done. by eapply lookup_insert_same. }
  assert (σ2 !! b = Some (mkMatrix (rows_ X) (cols_ Y) (matrix_ X))) as Hb2.
  { unfold σ2. eapply lookup_insert_same. by rewrite list_lookup_insert_ne. }
  rewrite (run_swap_cols_ _ _ _ _ _ Hne Ha2 Hb2). cbn [rows_ cols_ matrix_].
  unfold σ2, σ1. f_equal. apply list_eq. intros k.
  rewrite !list_lookup_insert, !length_insert.
  destruct X as [xr xc xg], Y as [yr yc yg]. cbn [rows_ cols_ matrix_].
  repeat case_decide; try done; try lia; exfalso; naive_solver.
Qed.

Lemma run_Matrix_move_ctor (other : addr) (σ : store) (O : Matrix) :
  σ !! other = Some O →
  Matrix_move_ctor other σ = (Ok (length σ), <[other := invalid]> σ ++ [O]).
Proof.
  intros Ho. unfold Matrix_move_ctor, noexceptM, construct.
  pose proof (lookup_old_ne_new _ _ _ Ho) as Hne.
  rewrite decide_True by done.
  rewrite (run_swap_all (length σ) other _ (mkMatrix 0 0 None) O);
    [|done|apply snoc_lookup_new|by apply snoc_lookup_old].
  rewrite snoc_insert_new. by rewrite (snoc_insert_old _ _ _ _ _ Ho).
Qed.

Lemma run_Matrix_dtor (this : addr) (σ : store) (X : Matrix) :
  σ !! this = Some X → ∃ X', Matrix_dtor this σ = (Ok tt, <[this := X']> σ).
Proof.
  intros Hx. unfold Matrix_dtor.
  rewrite (run_bind _ _ _ _ _ (run_load _ _ _ Hx)).
  destruct (matrix_ X).
  - exists invalid. unfold FreeMatrixMemory. by eapply run_InvalidateMatrix.
  - exists X. unfold ret. by rewrite list_insert_id.
Qed.

(** A block with a local: when the block leaves the store of length
    [length σ] followed by the local, the local is destroyed and what is
    left is that store. *)
Lemma run_local {A} (ctor : M addr) (block : addr → M A) (σ σ' : store)
    (R0 X : Matrix) (res : result A) :
  ctor σ = (Ok (length σ), σ ++ [R0]) →
  block (length σ) (σ ++ [R0]) = (res, σ' ++ [X]) →
  length σ' = length σ →
  local ctor block σ = (res, σ').
Proof.
  intros Hctor Hblock Hlen. unfold local. rewrite Hctor, Hblock.
  destruct (run_Matrix_dtor (length σ) (σ' ++ [X]) X) as [X' ->].
  - rewrite <- Hlen. apply snoc_lookup_new.
  - rewrite <- Hlen, snoc_insert_new. by rewrite take_app_length.
Qed.

Lemma run_local_throw {A} (ctor : M addr) (block : addr → M A) (σ σ' : store)
    (e : exception) :
  ctor σ = (Throw e, σ') → local ctor block σ = (Throw e, σ').
Proof. intros Hctor. unfold local. by rewrite Hctor. Qed.

(** *** Multiplication *)

Lemma for_accumulate (rows cols : Z) (F : Z → Z → float) (i j n : Z) (t : Z → float) :
  0 ≤ i < rows → 0 ≤ j < cols →
  for_ n (λ k R, put R i j (get R i j + t k)%float) (table rows cols F) =
  table rows cols (update F i j (for_ n (λ k acc, (acc + t k)%float) (F i j))).
Proof.
  intros Hi Hj. destruct (Z.le_gt_cases 0 n) as [Hn|Hn].
  - apply (for_ind (λ k R, R = table rows cols
      (update F i j (for_ k (λ k acc, (acc + t k)%float) (F i j))))); [done| |].
    + rewrite for_nonpos by done. apply table_ext. intros. unfold update. ztests.
      by subst.
    + intros k R Hk ->. rewrite get_table, put_table, for_succ by lia.
      apply table_ext. intros i' j' Hi' Hj'. unfold update. ztests.
  - rewrite !for_nonpos by lia. apply table_ext. intros. unfold update. ztests.
    by subst.
Qed.

Lemma product_loops (A B : Matrix) :
  0 ≤ rows_ A → 0 ≤ cols_ B →
  for_ (rows_ A) (λ i R,
    for_ (cols_ B) (λ j R,
      for_ (cols_ A) (λ k R,
        put R i j (get R i j + get A i k * get B k j)%float) R) R)
    (table (rows_ A) (cols_ B) (λ _ _, 0%float)) =
  product A B.
Proof.
  intros Hr Hc.
  rewrite (for_fill_body (rows_ A) (cols_ B) (rows_ A) (cols_ B)
    (λ i j R, for_ (cols_ A) (λ k R,
        put R i j (get R i j + get A i k * get B k j)%float) R)
    (λ i j x, for_ (cols_ A) (λ k acc, (acc + get A i k * get B k j)%float) x));
    [|done..|].
  - apply table_ext. intros. unfold dot. ztests.
  - intros i j F Hi Hj.
    by rewrite (for_accumulate _ _ F i j (cols_ A) (λ k, (get A i k * get B k j)%float)).
Qed.

Lemma live_product (A B : Matrix) :
  0 < rows_ A → 0 < cols_ B → live (product A B).
Proof. intros. by apply live_table. Qed.

(** [MulMatrix] on compatible operands. *)
Lemma run_MulMatrix (this other : addr) (σ : store) (A B : Matrix) :
  σ !! this = Some A → σ !! other = Some B →
  live A → cols_ A = rows_ B → 0 < cols_ B →
  MulMatrix this other σ = (Ok tt, <[this := product A B]> σ).
Proof.
  intros Ha Hb HA Hdim HBc. pose proof HA as (HAr & HAc & _).
  unfold MulMatrix.
  rewrite (run_bind _ _ _ _ _ (run_load _ _ _ Ha)).
  rewrite (run_bind _ _ _ _ _ (run_load _ _ _ Hb)).
  rewrite (proj2 (Z.eqb_eq _ _) Hdim). cbn [negb].
  eapply run_local.
  - by apply run_Matrix_ctor.
  - set (R0 := table (rows_ A) (cols_ B) (λ _ _, 0%float)).
    pose proof (snoc_lookup_old σ R0 _ _ Ha) as Ha1.
    pose proof (snoc_lookup_old σ R0 _ _ Hb) as Hb1.
    rewrite (run_bind _ _ _ _ _ (run_field _ _ _ Ha1 rows_)).
    rewrite (run_bind _ _ _ _ _ (run_field _ _ _ Hb1 cols_)).
    rewrite (run_bind _ _ _ _ _ (run_field _ _ _ Ha1 cols_)).
    erewrite run_bind.
    2:{ apply (forM_pure2 (length σ) (λ i j R, for_ (cols_ A) (λ k R,
            put R i j (get R i j + get A i k * get B k j)%float) R));
          [apply snoc_lookup_new|].
        intros i j R' Hi Hj. rewrite snoc_insert_new.
        rewrite (forM_pure (length σ) (λ k R,
            put R i j (get R i j + get A i k * get B k j)%float) _ _ _ R');
          [by rewrite !snoc_insert_new|apply snoc_lookup_new|].
        intros k R'' Hk. rewrite !snoc_insert_new.
        rewrite (run_bind _ _ _ _ _ (run_read_cell _ _ _ (snoc_lookup_new _ _) _ _)).
        rewrite (run_bind _ _ _ _ _
          (run_read_cell _ _ _ (snoc_lookup_old _ R'' _ _ Ha) _ _)).
        rewrite (run_bind _ _ _ _ _
          (run_read_cell _ _ _ (snoc_lookup_old _ R'' _ _ Hb) _ _)).
        rewrite (run_write_cell _ _ _ (snoc_lookup_new _ _) _ _ _).
        by rewrite snoc_insert_new. }
    unfold R0. rewrite product_loops, snoc_insert_new by lia.
    erewrite run_bind.
    2:{ apply (run_operator_assign this (length σ) _ A (product A B)).
        - by eapply lookup_old_ne_new.
        - by apply snoc_lookup_old.
        - apply snoc_lookup_new.
        - apply live_product; lia.
        - by left. }
    rewrite (snoc_insert_old _ _ _ _ _ Ha). reflexivity.
  - by rewrite length_insert.
Qed.

Lemma run_MulMatrix_mismatch (this other : addr) (σ : store) (A B : Matrix) :
  σ !! this = Some A → σ !! other = Some B → cols_ A ≠ rows_ B →
  MulMatrix this other σ =
  (Throw (MatrixLogicErrorException
     "The number of columns of the first matrix is not equal to the number of rows of the second matrix"),
   σ).
Proof.
  intros Ha Hb Hdim. unfold MulMatrix.
  rewrite (run_bind _ _ _ _ _ (run_load _ _ _ Ha)).
  rewrite (run_bind _ _ _ _ _ (run_load _ _ _ Hb)).
  by rewrite (proj2 (Z.eqb_neq _ _) Hdim).
Qed.

(** [operator*] on two matrices. *)
Lemma run_operator_mul (this other : addr) (σ : store) (A B : Matrix) :
  σ !! this = Some A → σ !! other = Some B →
  live A → cols_ A = rows_ B → 0 < cols_ B →
  operator_mul this other σ = (Ok (product A B), σ).
Proof.
  intros Ha Hb HA Hdim HBc. pose proof HA as (HAr & HAc & _).
  unfold operator_mul. eapply run_local.
  - by apply run_Matrix_copy_ctor.
  - rewrite Matrix_copy_live by done. unfold operator_mul_assign.
    rewrite (run_bind _ _ _ _ _
      (run_bind _ _ _ _ _
        (run_MulMatrix (length σ) other (σ ++ [A]) A B (snoc_lookup_new _ _)
           (snoc_lookup_old _ _ _ _ Hb) HA Hdim HBc))).
    unfold return_by_value.
    rewrite snoc_insert_new.
    rewrite (run_bind _ _ _ _ _ (run_load _ _ _ (snoc_lookup_new _ _))).
    rewrite Matrix_copy_live by (apply live_product; lia). reflexivity.
  - done.
Qed.

Lemma run_operator_mul_mismatch (this other : addr) (σ : store) (A B : Matrix) :
  σ !! this = Some A → σ !! other = Some B → cols_ A ≠ rows_ B →
  operator_mul this other σ =
  (Throw (MatrixLogicErrorException
     "The number of columns of the first matrix is not equal to the number of rows of the second matrix"),
   σ).
Proof.
  intros Ha Hb Hdim. unfold operator_mul. eapply run_local.
  - by apply run_Matrix_copy_ctor.
  - unfold operator_mul_assign.
    rewrite (run_bind_throw _ _ _ _ _
      (run_bind_throw _ _ _ _ _
        (run_MulMatrix_mismatch (length σ) other (σ ++ [Matrix_copy A]) (Matrix_copy A) B
           (snoc_lookup_new _ _) (snoc_lookup_old _ _ _ _ Hb)
           ltac:(by rewrite (proj2 (Matrix_copy_dims A)))))).
    reflexivity.
  - done.
Qed.

(** *** Dimensions *)

Lemma run_SetDimension_invalid (this : addr) (new_rows new_cols : Z) (σ : store) :
  new_rows ≤ 0 ∨ new_cols ≤ 0 →
  SetDimension this new_rows new_cols σ = (Throw MatrixInvalidArgumentException, σ).
Proof.
  intros H. unfold SetDimension, IsNaturalNumbers.
  by replace ((0 <? new_rows) && (0 <? new_cols)) with false by (symmetry; ztests).
Qed.

Lemma run_SetDimension_same (this : addr) (σ : store) (A : Matrix) :
  σ !! this = Some A → 0 < rows_ A → 0 < cols_ A →
  SetDimension this (rows_ A) (cols_ A) σ = (Ok tt, σ).
Proof.
  intros Ha Hr Hc. unfold SetDimension, IsNaturalNumbers.
  replace ((0 <? rows_ A) && (0 <? cols_ A)) with true by (symmetry; ztests).
  cbn [negb].
  rewrite (run_bind _ _ _ _ _ (run_field _ _ _ Ha rows_)).
  rewrite (run_bind _ _ _ _ _ (run_field _ _ _ Ha cols_)).
  by rewrite !Z.eqb_refl.
Qed.

Lemma run_SetDimension (this : addr) (new_rows new_cols : Z) (σ : store) (A : Matrix) :
  σ !! this = Some A → 0 < new_rows → 0 < new_cols →
  new_rows ≠ rows_ A ∨ new_cols ≠ cols_ A →
  SetDimension this new_rows new_cols σ =
  (Ok tt, <[this := resized A new_rows new_cols]> σ).
Proof.
  intros Ha Hr Hc Hne. unfold SetDimension, IsNaturalNumbers.
  replace ((0 <? new_rows) && (0 <? new_cols)) with true by (symmetry; ztests).
  cbn [negb].
  rewrite (run_bind _ _ _ _ _ (run_field _ _ _ Ha rows_)).
  rewrite (run_bind _ _ _ _ _ (run_field _ _ _ Ha cols_)).
  replace ((new_rows =? rows_ A) && (new_cols =? cols_ A)) with false
    by (symmetry; ztests).
  eapply run_local.
  - by apply run_Matrix_ctor.
  - set (R0 := table new_rows new_cols (λ _ _, 0%float)).
    pose proof (snoc_lookup_old σ R0 _ _ Ha) as Ha1.
    pose proof (lookup_old_ne_new _ _ _ Ha) as Hnew.
    unfold SetDimension_swap.
    rewrite (run_bind _ _ _ _ _ (run_field _ _ _ Ha1 rows_)).
    rewrite (run_bind _ _ _ _ _ (run_field _ _ _ Ha1 cols_)).
    cbn zeta.
    erewrite run_bind.
    2:{ apply (forM_pure2 (length σ) (λ i j R, put R i j (get A i j)));
          [apply snoc_lookup_new|].
        intros i j R' Hi Hj. rewrite !snoc_insert_new.
        rewrite (run_bind _ _ _ _ _
          (run_read_cell _ _ _ (snoc_lookup_old _ R' _ _ Ha) _ _)).
        rewrite (run_write_cell _ _ _ (snoc_lookup_new _ _) _ _ _).
        by rewrite snoc_insert_new. }
    unfold R0.
    rewrite (for_fill_any new_rows new_cols _ _ (λ i j _, get A i j)) by lia.
    rewrite snoc_insert_new. fold (resized A new_rows new_cols).
    rewrite (run_swap_all this (length σ) _ A (resized A new_rows new_cols));
      [|done|by apply snoc_lookup_old|apply snoc_lookup_new].
    rewrite (snoc_insert_old _ _ _ _ _ Ha).
    replace (length σ) with (length (<[this := resized A new_rows new_cols]> σ))
      by apply length_insert.
    rewrite snoc_insert_new. reflexivity.
  - by rewrite length_insert.
Qed.

Lemma run_SetRows (this : addr) (n : Z) (σ : store) (A : Matrix) :
  σ !! this = Some A → SetRows this n σ = SetDimension this n (cols_ A) σ.
Proof.
  intros Ha. unfold SetRows. by rewrite (run_bind _ _ _ _ _ (run_field _ _ _ Ha cols_)).
Qed.

Lemma run_SetCols (this : addr) (n : Z) (σ : store) (A : Matrix) :
  σ !! this = Some A → SetCols this n σ = SetDimension this (rows_ A) n σ.
Proof.
  intros Ha. unfold SetCols. by rewrite (run_bind _ _ _ _ _ (run_field _ _ _ Ha rows_)).
Qed.

(** *** Comparison *)

Lemma find_from_None {R} (k : nat) (i : Z) (f : Z → option R) :
  find_from k i f = None ↔ ∀ i', i ≤ i' < i + Z.of_nat k → f i' = None.
Proof.
  revert i. induction k as [|k IH]; intros i; cbn [find_from].
  - split; [|done]. intros _ i' Hi'. lia.
  - destruct (f i) as [v|] eqn:Hi.
    + split; [done|]. intros H. rewrite H in Hi by lia. done.
    + rewrite IH. split.
      * intros H i' Hi'. destruct (decide (i' = i)) as [->|]; [done|].
        apply H. lia.
      * intros H i' Hi'. apply H. lia.
Qed.

Lemma first_some_None {R} (n : Z) (f : Z → option R) :
  first_some n f = None ↔ ∀ i, 0 ≤ i < n → f i = None.
Proof.
  unfold first_some. rewrite find_from_None. split; intros H i Hi; apply H; lia.
Qed.

Lemma find_from_Some {R} (k : nat) (i : Z) (f : Z → option R) (v : R) :
  find_from k i f = Some v → ∃ i', i ≤ i' < i + Z.of_nat k ∧ f i' = Some v.
Proof.
  revert i. induction k as [|k IH]; intros i; cbn [find_from]; [done|].
  destruct (f i) as [w|] eqn:Hi.
  - intros [= ->]. exists i. split; [lia|done].
  - intros (i' & Hi' & Hv)%IH. exists i'. split; [lia|done].
Qed.

Lemma first_some_Some {R} (n : Z) (f : Z → option R) (v : R) :
  first_some n f = Some v → ∃ i, 0 ≤ i < n ∧ f i = Some v.
Proof.
  intros (i & Hi & Hv)%find_from_Some. exists i. split; [lia|done].
Qed.

Lemma iterate_return_pure {R} (k : nat) (i : Z) (body : Z → M (option R))
    (f : Z → option R) (σ : store) :
  (∀ i', i ≤ i' < i + Z.of_nat k → body i' σ = (Ok (f i'), σ)) →
  iterate_return k i body σ = (Ok (find_from k i f), σ).
Proof.
  revert i. induction k as [|k IH]; intros i Hbody; [done|].
  cbn [iterate_return find_from].
  rewrite (run_bind _ _ _ _ _ (Hbody i ltac:(lia))).
  destruct (f i); [done|]. apply IH. intros i' Hi'. apply Hbody. lia.
Qed.

(** A searching loop whose body only reads the store. *)
Lemma for_return_pure {R} (n : Z) (body : Z → M (option R)) (f : Z → option R)
    (σ : store) :
  (∀ i, 0 ≤ i < n → body i σ = (Ok (f i), σ)) →
  for_return n body σ = (Ok (first_some n f), σ).
Proof.
  intros Hbody. apply iterate_return_pure. intros i Hi. apply Hbody. lia.
Qed.

Lemma run_EqMatrix (this other : addr) (σ : store) (A B : Matrix) :
  this ≠ other → σ !! this = Some A → σ !! other = Some B →
  EqMatrix this other σ = (Ok (EqMatrix_val A B), σ).
Proof.
  intros Hne Ha Hb. unfold EqMatrix, EqMatrix_val. rewrite decide_False by done.
  rewrite (run_bind _ _ _ _ _ (run_load _ _ _ Ha)).
  rewrite (run_bind _ _ _ _ _ (run_load _ _ _ Hb)).
  destruct (negb (IsSameDimensionMatrix A B)); [done|].
  rewrite (run_bind _ _ _ _ _ (run_field _ _ _ Ha rows_)).
  rewrite (run_bind _ _ _ _ _ (run_field _ _ _ Ha cols_)).
  erewrite run_bind; [reflexivity|].
  apply for_return_pure. intros i Hi.
  apply (for_return_pure _ _ (λ j,
    if (kAccuracy <? abs (get A i j - get B i j))%float then Some false else None)).
  intros j Hj.
  rewrite (run_bind _ _ _ _ _ (run_read_cell _ _ _ Ha _ _)).
  rewrite (run_bind _ _ _ _ _ (run_read_cell _ _ _ Hb _ _)).
  by destruct (kAccuracy <? abs (get A i j - get B i j))%float.
Qed.

Lemma run_EqMatrix_self (this : addr) (σ : store) :
  EqMatrix this this σ = (Ok true, σ).
Proof. unfold EqMatrix. by rewrite decide_True. Qed.

Lemma EqMatrix_val_true (A B : Matrix) :
  EqMatrix_val A B = true ↔ close A B.
Proof.
  unfold EqMatrix_val, close, IsSameDimensionMatrix.
  destruct (Z.eqb_spec (cols_ A) (cols_ B)) as [Hc|Hc]; cbn [andb negb];
    [|split; [done|tauto]].
  destruct (Z.eqb_spec (rows_ A) (rows_ B)) as [Hr|Hr]; cbn [andb negb];
    [|split; [done|tauto]].
  set (inner := λ i, first_some (cols_ A) (λ j,
    if (kAccuracy <? abs (get A i j - get B i j))%float then Some false else None)).
  split.
  - intros Htrue. split; [done|]. split; [done|]. intros i j Hi Hj.
    destruct (first_some (rows_ A) inner) as [b|] eqn:Hfound.
    + simpl in Htrue. subst b.
      apply first_some_Some in Hfound as (i' & _ & Hin).
      apply first_some_Some in Hin as (j' & _ & Hin).
      by destruct (kAccuracy <? abs (get A i' j' - get B i' j'))%float.
    + pose proof (proj1 (first_some_None _ _) Hfound i Hi) as Hin.
      pose proof (proj1 (first_some_None _ _) Hin j Hj) as Hcell. cbn beta in Hcell.
      by destruct (kAccuracy <? abs (get A i j - get B i j))%float.
  - intros (_ & _ & Hall).
    replace (first_some (rows_ A) inner) with (@None bool); [done|].
    symmetry. apply first_some_None. intros i Hi. apply first_some_None.
    intros j Hj. by rewrite Hall.
Qed.

Lemma close_refl (A : Matrix) : close A A.
Proof. split; [done|]. split; [done|]. intros. apply not_above_self. Qed.

Lemma close_sym (A B : Matrix) : close A B → close B A.
Proof.
  intros (Hr & Hc & Hall). split; [done|]. split; [done|]. intros i j Hi Hj.
  rewrite abs_sub_comm. apply Hall; lia.
Qed.

(** *** Computations that do not throw *)

Lemma succeeds_ret {A} (a : A) : succeeds (ret a).
Proof. intros σ. by exists a, σ. Qed.

Lemma succeeds_bind {A B} (m : M A) (k : A → M B) :
  succeeds m → (∀ a, succeeds (k a)) → succeeds (let! x := m in k x).
Proof.
  intros Hm Hk σ. destruct (Hm σ) as (a & σ' & Hrun).
  rewrite (run_bind _ _ _ _ _ Hrun). apply Hk.
Qed.

Lemma succeeds_load (a : addr) : succeeds (load a).
Proof. intros σ. by eexists _, _. Qed.

Lemma succeeds_save (a : addr) (m : Matrix) : succeeds (save a m).
Proof. intros σ. by eexists _, _. Qed.

Lemma succeeds_noexceptM {A} (m : M A) : succeeds m → succeeds (noexceptM m).
Proof.
  intros Hm σ. destruct (Hm σ) as (a & σ' & Hrun). unfold noexceptM. rewrite Hrun.
  by eexists _, _.
Qed.

Lemma succeeds_iterateM (k : nat) (i : Z) (body : Z → M unit) :
  (∀ i, succeeds (body i)) → succeeds (iterateM k i body).
Proof.
  intros Hbody. revert i. induction k as [|k IH]; intros i.
  - apply succeeds_ret.
  - cbn [iterateM]. apply succeeds_bind; [apply Hbody|]. intros _. apply IH.
Qed.

Lemma succeeds_forM (n : Z) (body : Z → M unit) :
  (∀ i, succeeds (body i)) → succeeds (forM n body).
Proof. apply succeeds_iterateM. Qed.

Create HintDb succeeds.
#[local] Hint Resolve succeeds_ret succeeds_load succeeds_save succeeds_noexceptM
  succeeds_forM : succeeds.
#[local] Hint Extern 2 (succeeds (bind _ _)) =>
  apply succeeds_bind; [|intros ?] : succeeds.
#[local] Hint Extern 3 (succeeds (if ?b then _ else _)) => destruct b : succeeds.
#[local] Hint Extern 3 (succeeds (match ?o with Some _ => _ | None => _ end)) =>
  destruct o : succeeds.
#[local] Hint Unfold field set_rows_ set_cols_ set_matrix_ swap_rows_ swap_cols_
  swap_matrix_ read_cell write_cell InvalidateMatrix FreeMatrixMemory
  AllocateMatrixMemory CopyMatrixElements CopyFrom operator_assign Matrix_dtor
  SetDimension_swap : succeeds.

Ltac succeeds_tac :=
  intros; cbn beta; autounfold with succeeds; solve [eauto 60 with succeeds].

Lemma succeeds_CopyFrom (this other : addr) : succeeds (CopyFrom this other).
Proof. succeeds_tac. Qed.

Lemma succeeds_operator_assign (this other : addr) : succeeds (operator_assign this other).
Proof. succeeds_tac. Qed.

(** A block that does not throw, in the scope of a local that was
    constructed. *)
Lemma local_succeeds {A} (ctor : M addr) (block : addr → M A) (σ σ1 : store) (a : addr) :
  ctor σ = (Ok a, σ1) → succeeds (block a) →
  ∃ res σ', local ctor block σ = (Ok res, σ').
Proof.
  intros Hctor Hblock. unfold local. rewrite Hctor.
  destruct (Hblock σ1) as (res & σ2 & ->).
  destruct (Matrix_dtor a σ2) as [? σ3]. by eexists _, _.
Qed.

(** When the constructor of the local writes nothing where it throws, and
    the block does not throw, a throwing scope has written nothing. *)
Lemma local_throw_unchanged {A} (ctor : M addr) (block : addr → M A)
    (σ σ' : store) (e : exception) :
  (∀ σ0 e0 σ1, ctor σ0 = (Throw e0, σ1) → σ1 = σ0) →
  (∀ a, succeeds (block a)) →
  local ctor block σ = (Throw e, σ') → σ' = σ.
Proof.
  intros Hctor Hblock. destruct (ctor σ) as [[a|e0] σ1] eqn:Hrun.
  - destruct (local_succeeds _ block _ _ _ Hrun (Hblock a)) as (res & σ2 & ->). done.
  - rewrite (run_local_throw _ _ _ _ _ Hrun). intros [= _ <-]. by eapply Hctor.
Qed.

Lemma succeeds_SetDimension_swap (this : addr) (new_rows new_cols : Z) (result : addr) :
  succeeds (SetDimension_swap this new_rows new_cols result).
Proof. succeeds_tac. Qed.

Lemma Matrix_ctor_cases (rows cols : Z) (σ : store) :
  Matrix_ctor rows cols σ = (Throw MatrixInvalidArgumentException, σ) ∨
  ∃ σ1, Matrix_ctor rows cols σ = (Ok (length σ), σ1).
Proof.
  destruct (Z.lt_ge_cases 0 rows) as [Hr|Hr]; [|left; apply run_Matrix_ctor_throw; lia].
  destruct (Z.lt_ge_cases 0 cols) as [Hc|Hc]; [|left; apply run_Matrix_ctor_throw; lia].
  right. eexists. by apply run_Matrix_ctor.
Qed.

(** A throwing call of these functions has written nothing. *)
Lemma SumMatrix_throw (this other : addr) (σ σ' : store) (e : exception) :
  SumMatrix this other σ = (Throw e, σ') → σ' = σ.
Proof.
  unfold SumMatrix, bind at 1 2, load.
  destruct (negb (IsSameDimensionMatrix _ _)); [by intros [= _ <-]|].
  match goal with |- ?m σ = _ → _ => assert (succeeds m) as Hs by succeeds_tac end.
  destruct (Hs σ) as (a & σ1 & ->). done.
Qed.

Lemma SubMatrix_throw (this other : addr) (σ σ' : store) (e : exception) :
  SubMatrix this other σ = (Throw e, σ') → σ' = σ.
Proof.
  unfold SubMatrix, bind at 1 2, load.
  destruct (negb (IsSameDimensionMatrix _ _)); [by intros [= _ <-]|].
  match goal with |- ?m σ = _ → _ => assert (succeeds m) as Hs by succeeds_tac end.
  destruct (Hs σ) as (a & σ1 & ->). done.
Qed.

Lemma MulMatrix_throw (this other : addr) (σ σ' : store) (e : exception) :
  MulMatrix this other σ = (Throw e, σ') → σ' = σ.
Proof.
  unfold MulMatrix, bind at 1 2, load.
  destruct (negb (_ =? _)); [by intros [= _ <-]|].
  match goal with |- local (Matrix_ctor ?r ?c) ?block σ = _ → _ =>
    destruct (Matrix_ctor_cases r c σ) as [Hctor|[σ1 Hctor]];
    [rewrite (run_local_throw _ _ _ _ _ Hctor); by intros [= _ <-]|];
    destruct (local_succeeds _ block _ _ _ Hctor) as (res & σ2 & ->); [|done]
  end.
  succeeds_tac.
Qed.

Lemma SetDimension_throw (this : addr) (new_rows new_cols : Z) (σ σ' : store)
    (e : exception) :
  SetDimension this new_rows new_cols σ = (Throw e, σ') → σ' = σ.
Proof.
  unfold SetDimension.
  destruct (negb (IsNaturalNumbers _ _)); [by intros [= _ <-]|].
  unfold bind at 1 2, field at 1 2, bind at 1 2, load, ret.
  destruct (_ && _); [by intros [= _ <-]|].
  match goal with |- local (Matrix_ctor ?r ?c) ?block σ = _ → _ =>
    destruct (Matrix_ctor_cases r c σ) as [Hctor|[σ1 Hctor]];
    [rewrite (run_local_throw _ _ _ _ _ Hctor); by intros [= _ <-]|];
    destruct (local_succeeds _ block _ _ _ Hctor) as (res & σ2 & ->); [|done]
  end.
  succeeds_tac.
Qed.

Lemma SetRows_throw (this : addr) (n : Z) (σ σ' : store) (e : exception) :
  SetRows this n σ = (Throw e, σ') → σ' = σ.
Proof. unfold SetRows, bind, field, bind, load, ret. apply SetDimension_throw. Qed.

Lemma SetCols_throw (this : addr) (n : Z) (σ σ' : store) (e : exception) :
  SetCols this n σ = (Throw e, σ') → σ' = σ.
Proof. unfold SetCols, bind, field, bind, load, ret. apply SetDimension_throw. Qed.

Lemma operator_call_throw (this : addr) (i j : Z) (σ σ' : store) (e : exception) :
  operator_call this i j σ = (Throw e, σ') → σ' = σ.
Proof.
  unfold operator_call, bind, load. destruct (_ || _); by intros [= _ <-].
Qed.

Lemma call_unchanged {A} (f : Matrix → result A) (this : addr) (σ σ' : store)
    (r : result A) :
  call f this σ = (r, σ') → σ' = σ.
Proof.
  unfold call, bind, load. destruct (f _); by intros [= _ <-].
Qed.

(* ================================================================= *)
(** ** The order of the operands of a sum and of a product of doubles *)

Section spec_float_comm.
Variables prec emax : Z.

Lemma SFadd_comm (x y : spec_float) : SFadd prec emax x y = SFadd prec emax y x.
Proof.
  destruct x as [sx|sx| |sx mx ex], y as [sy|sy| |sy my ey];
    cbn [SFadd]; try done; try (by destruct sx, sy).
  rewrite (Z.min_comm ey ex). f_equal. lia.
Qed.

Lemma SFmul_comm (x y : spec_float) : SFmul prec emax x y = SFmul prec emax y x.
Proof.
  destruct x as [sx|sx| |sx mx ex], y as [sy|sy| |sy my ey];
    cbn [SFmul]; try done; try (by rewrite xorb_comm).
  by rewrite xorb_comm, Pos.mul_comm, Z.add_comm.
Qed.
End spec_float_comm.

(** The sum and the product of two doubles do not depend on the order of
    the operands. *)
Lemma float_add_comm (a b : float) : (a + b = b + a)%float.
Proof. apply Prim2SF_inj. rewrite !add_spec. apply SFadd_comm. Qed.

Lemma float_mul_comm (a b : float) : (a * b = b * a)%float.
Proof. apply Prim2SF_inj. rewrite !mul_spec. apply SFmul_comm. Qed.

(* ================================================================= *)
(** ** Element-wise arithmetic on the store *)

(** An element-wise loop over every element of a live object. *)
Lemma for_fill_live (A : Matrix) (G : Z → Z → float → float) :
  live A →
  for_ (rows_ A) (λ i R, for_ (cols_ A) (λ j R, put R i j (G i j (get R i j))) R) A =
  table (rows_ A) (cols_ A) (λ i j, G i j (get A i j)).
Proof.
  intros HA. pose proof HA as (Hr & Hc & _).
  transitivity (for_ (rows_ A) (λ i R,
      for_ (cols_ A) (λ j R, put R i j (G i j (get R i j))) R)
    (table (rows_ A) (cols_ A) (get A))).
  { by rewrite <- (live_is_table A HA). }
  rewrite for_fill by lia. apply table_ext. intros i j Hi Hj. ztests.
Qed.

(** The loop that [SumMatrix] and [SubMatrix] share, with the operation
    they apply.  [other] may be [this]: the element read through [other]
    is then the one the receiver holds at that moment, which is still the
    old one, since every element is read before it is written. *)
Lemma run_elementwise (op : float → float → float) (this other : addr) (σ : store)
    (A B : Matrix) :
  σ !! this = Some A → σ !! other = Some B → live A →
  forM (rows_ A) (λ i,
    forM (cols_ A) (λ j,
      let! x := read_cell this i j in
      let! y := read_cell other i j in
      write_cell this i j (op x y))) σ =
  (Ok tt, <[this := table (rows_ A) (cols_ A) (λ i j, op (get A i j) (get B i j))]> σ).
Proof.
  intros Ha Hb HA. pose proof HA as (Hr & Hc & _).
  destruct (decide (this = other)) as [<-|Hne].
  - assert (B = A) as -> by congruence.
    rewrite (forM_pure2 this (λ i j R, put R i j (op (get R i j) (get R i j)))
               _ _ _ σ A Ha).
    + do 2 f_equal. exact (for_fill_live A (λ _ _ x, op x x) HA).
    + intros i j R' Hi Hj.
      pose proof (lookup_insert_same this σ A Ha R') as HR.
      rewrite (run_bind _ _ _ _ _ (run_read_cell _ _ _ HR i j)).
      rewrite (run_bind _ _ _ _ _ (run_read_cell _ _ _ HR i j)).
      rewrite (run_write_cell _ _ _ HR). by rewrite list_insert_insert_eq.
  - rewrite (forM_pure2 this (λ i j R, put R i j (op (get R i j) (get B i j)))
               _ _ _ σ A Ha).
    + do 2 f_equal. exact (for_fill_live A (λ i j x, op x (get B i j)) HA).
    + intros i j R' Hi Hj.
      pose proof (lookup_insert_same this σ A Ha R') as HR.
      rewrite (run_bind _ _ _ _ _ (run_read_cell _ _ _ HR i j)).
      rewrite (run_bind _ _ _ (<[this := R']> σ) (get B i j)).
      * rewrite (run_write_cell _ _ _ HR). by rewrite list_insert_insert_eq.
      * apply run_read_cell. by rewrite list_lookup_insert_ne.
Qed.

Lemma same_dimension (A B : Matrix) :
  IsSameDimensionMatrix A B = true ↔ rows_ A = rows_ B ∧ cols_ A = cols_ B.
Proof. unfold IsSameDimensionMatrix. rewrite andb_true_iff, !Z.eqb_eq. tauto. Qed.

Lemma run_SumMatrix (this other : addr) (σ : store) (A B : Matrix) :
  σ !! this = Some A → σ !! other = Some B → live A →
  rows_ A = rows_ B → cols_ A = cols_ B →
  SumMatrix this other σ =
  (Ok tt, <[this := table (rows_ A) (cols_ A) (λ i j, (get A i j + get B i j)%float)]> σ).
Proof.
  intros Ha Hb HA Hr Hc. unfold SumMatrix.
  rewrite (run_bind _ _ _ _ _ (run_load _ _ _ Ha)).
  rewrite (run_bind _ _ _ _ _ (run_load _ _ _ Hb)).
  rewrite (proj2 (same_dimension A B)) by done. cbn [negb].
  rewrite (run_bind _ _ _ _ _ (run_field _ _ _ Ha rows_)).
  rewrite (run_bind _ _ _ _ _ (run_field _ _ _ Ha cols_)).
  by apply (run_elementwise (λ x y, (x + y)%float)).
Qed.

Lemma run_SubMatrix (this other : addr) (σ : store) (A B : Matrix) :
  σ !! this = Some A → σ !! other = Some B → live A →
  rows_ A = rows_ B → cols_ A = cols_ B →
  SubMatrix this other σ =
  (Ok tt, <[this := table (rows_ A) (cols_ A) (λ i j, (get A i j - get B i j)%float)]> σ).
Proof.
  intros Ha Hb HA Hr Hc. unfold SubMatrix.
  rewrite (run_bind _ _ _ _ _ (run_load _ _ _ Ha)).
  rewrite (run_bind _ _ _ _ _ (run_load _ _ _ Hb)).
  rewrite (proj2 (same_dimension A B)) by done. cbn [negb].
  rewrite (run_bind _ _ _ _ _ (run_field _ _ _ Ha rows_)).
  rewrite (run_bind _ _ _ _ _ (run_field _ _ _ Ha cols_)).
  by apply (run_elementwise (λ x y, (x - y)%float)).
Qed.

Lemma run_SumMatrix_mismatch (this other : addr) (σ : store) (A B : Matrix) :
  σ !! this = Some A → σ !! other = Some B →
  rows_ A ≠ rows_ B ∨ cols_ A ≠ cols_ B →
  SumMatrix this other σ =
  (Throw (MatrixLogicErrorException "Different dimensions of matrices"), σ).
Proof.
  intros Ha Hb Hne. unfold SumMatrix.
  rewrite (run_bind _ _ _ _ _ (run_load _ _ _ Ha)).
  rewrite (run_bind _ _ _ _ _ (run_load _ _ _ Hb)).
  destruct (IsSameDimensionMatrix A B) eqn:Hs; [|done].
  apply same_dimension in Hs. lia.
Qed.

Lemma run_SubMatrix_mismatch (this other : addr) (σ : store) (A B : Matrix) :
  σ !! this = Some A → σ !! other = Some B →
  rows_ A ≠ rows_ B ∨ cols_ A ≠ cols_ B →
  SubMatrix this other σ =
  (Throw (MatrixLogicErrorException "Different dimensions of matrices"), σ).
Proof.
  intros Ha Hb Hne. unfold SubMatrix.
  rewrite (run_bind _ _ _ _ _ (run_load _ _ _ Ha)).
  rewrite (run_bind _ _ _ _ _ (run_load _ _ _ Hb)).
  destruct (IsSameDimensionMatrix A B) eqn:Hs; [|done].
  apply same_dimension in Hs. lia.
Qed.

(** [operator+] and [operator-]: the sum or the difference is built in a
    local copy of the receiver, returned by value, and the local is gone
    when the operator returns. *)
Lemma run_operator_plus (this other : addr) (σ : store) (A B : Matrix) :
  σ !! this = Some A → σ !! other = Some B → live A →
  rows_ A = rows_ B → cols_ A = cols_ B →
  operator_plus this other σ =
  (Ok (table (rows_ A) (cols_ A) (λ i j, (get A i j + get B i j)%float)), σ).
Proof.
  intros Ha Hb HA Hr Hc. pose proof HA as (HAr & HAc & _).
  unfold operator_plus. eapply run_local.
  - by apply run_Matrix_copy_ctor.
  - rewrite Matrix_copy_live by done. unfold operator_plus_assign.
    rewrite (run_bind _ _ _ _ _
      (run_bind _ _ _ _ _
        (run_SumMatrix (length σ) other (σ ++ [A]) A B (snoc_lookup_new _ _)
           (snoc_lookup_old _ _ _ _ Hb) HA Hr Hc))).
    unfold return_by_value. rewrite snoc_insert_new.
    rewrite (run_bind _ _ _ _ _ (run_load _ _ _ (snoc_lookup_new _ _))).
    rewrite Matrix_copy_live by (by apply live_table). reflexivity.
  - done.
Qed.

Lemma run_operator_minus (this other : addr) (σ : store) (A B : Matrix) :
  σ !! this = Some A → σ !! other = Some B → live A →
  rows_ A = rows_ B → cols_ A = cols_ B →
  operator_minus this other σ =
  (Ok (table (rows_ A) (cols_ A) (λ i j, (get A i j - get B i j)%float)), σ).
Proof.
  intros Ha Hb HA Hr Hc. pose proof HA as (HAr & HAc & _).
  unfold operator_minus. eapply run_local.
  - by apply run_Matrix_copy_ctor.
  - rewrite Matrix_copy_live by done. unfold operator_minus_assign.
    rewrite (run_bind _ _ _ _ _
      (run_bind _ _ _ _ _
        (run_SubMatrix (length σ) other (σ ++ [A]) A B (snoc_lookup_new _ _)
           (snoc_lookup_old _ _ _ _ Hb) HA Hr Hc))).
    unfold return_by_value. rewrite snoc_insert_new.
    rewrite (run_bind _ _ _ _ _ (run_load _ _ _ (snoc_lookup_new _ _))).
    rewrite Matrix_copy_live by (by apply live_table). reflexivity.
  - done.
Qed.

Lemma run_operator_plus_mismatch (this other : addr) (σ : store) (A B : Matrix) :
  σ !! this = Some A → σ !! other = Some B →
  rows_ A ≠ rows_ B ∨ cols_ A ≠ cols_ B →
  operator_plus this other σ =
  (Throw (MatrixLogicErrorException "Different dimensions of matrices"), σ).
Proof.
  intros Ha Hb Hdim. unfold operator_plus. eapply run_local.
  - by apply run_Matrix_copy_ctor.
  - unfold operator_plus_assign.
    rewrite (run_bind_throw _ _ _ _ _
      (run_bind_throw _ _ _ _ _
        (run_SumMatrix_mismatch (length σ) other (σ ++ [Matrix_copy A]) (Matrix_copy A) B
           (snoc_lookup_new _ _) (snoc_lookup_old _ _ _ _ Hb)
           ltac:(destruct (Matrix_copy_dims A) as [-> ->]; done)))).
    reflexivity.
  - done.
Qed.

Lemma run_operator_minus_mismatch (this other : addr) (σ : store) (A B : Matrix) :
  σ !! this = Some A → σ !! other = Some B →
  rows_ A ≠ rows_ B ∨ cols_ A ≠ cols_ B →
  operator_minus this other σ =
  (Throw (MatrixLogicErrorException "Different dimensions of matrices"), σ).
Proof.
  intros Ha Hb Hdim. unfold operator_minus. eapply run_local.
  - by apply run_Matrix_copy_ctor.
  - unfold operator_minus_assign.
    rewrite (run_bind_throw _ _ _ _ _
      (run_bind_throw _ _ _ _ _
        (run_SubMatrix_mismatch (length σ) other (σ ++ [Matrix_copy A]) (Matrix_copy A) B
           (snoc_lookup_new _ _) (snoc_lookup_old _ _ _ _ Hb)
           ltac:(destruct (Matrix_copy_dims A) as [-> ->]; done)))).
    reflexivity.
  - done.
Qed.

(** [MulNumber] on the store is [MulNumber_val] on the receiver. *)
Lemma run_MulNumber (this : addr) (num : float) (σ : store) (A : Matrix) :
  σ !! this = Some A →
  MulNumber this num σ = (Ok tt, <[this := MulNumber_val A num]> σ).
Proof.
  intros Ha. unfold MulNumber, noexceptM.
  rewrite (run_bind _ _ _ _ _ (run_field _ _ _ Ha rows_)).
  rewrite (run_bind _ _ _ _ _ (run_field _ _ _ Ha cols_)).
  rewrite (forM_pure2 this (λ i j R, put R i j (get R i j * num)%float) _ _ _ σ A Ha).
  - done.
  - intros i j R' Hi Hj.
    pose proof (lookup_insert_same this σ A Ha R') as HR.
    rewrite (run_bind _ _ _ _ _ (run_read_cell _ _ _ HR i j)).
    rewrite (run_write_cell _ _ _ HR). by rewrite list_insert_insert_eq.
Qed.

Lemma MulNumber_val_live (A : Matrix) (num : float) :
  live A →
  MulNumber_val A num = table (rows_ A) (cols_ A) (λ i j, (get A i j * num)%float).
Proof.
  intros HA. exact (for_fill_live A (λ _ _ x, (x * num)%float) HA).
Qed.


(** *** Element access *)

Lemma run_operator_call (this : addr) (i j : Z) (σ : store) (A : Matrix) :
  σ !! this = Some A → 0 ≤ i < rows_ A → 0 ≤ j < cols_ A →
  operator_call this i j σ = (Ok (this, i, j), σ).
Proof.
  intros Ha Hi Hj. unfold operator_call.
  rewrite (run_bind _ _ _ _ _ (run_load _ _ _ Ha)).
  replace ((rows_ A <=? i) || (cols_ A <=? j) || (i <? 0) || (j <? 0)) with false
    by (symmetry; ztests).
  done.
Qed.

Lemma run_operator_call_outside (this : addr) (i j : Z) (σ : store) (A : Matrix) :
  σ !! this = Some A → ¬ (0 ≤ i < rows_ A ∧ 0 ≤ j < cols_ A) →
  operator_call this i j σ = (Throw MatrixOutOfRangeException, σ).
Proof.
  intros Ha Hout. unfold operator_call.
  rewrite (run_bind _ _ _ _ _ (run_load _ _ _ Ha)).
  replace ((rows_ A <=? i) || (cols_ A <=? j) || (i <? 0) || (j <? 0)) with true
    by (symmetry; ztests).
  done.
Qed.

Lemma put_live (A : Matrix) (i j : Z) (v : float) :
  live A → 0 ≤ i → 0 ≤ j →
  put A i j v = table (rows_ A) (cols_ A) (update (get A) i j v).
Proof.
  intros HA Hi Hj.
  transitivity (put (table (rows_ A) (cols_ A) (get A)) i j v).
  - by rewrite <- (live_is_table A HA).
  - by apply put_table.
Qed.


(** *** The determinant family on the empty shape *)

Lemma Determinant_empty (A : Matrix) :
  rows_ A = cols_ A → rows_ A ≤ 0 → Determinant A = Ok 0%float.
Proof.
  intros Hsq H0. rewrite Determinant_unfold. unfold Determinant_body, IsSquareMatrix,
    IsMatrixNumber.
  rewrite (proj2 (Z.eqb_eq _ _) Hsq). cbn [negb].
  rewrite (proj2 (Z.eqb_neq (rows_ A) 1)) by lia. cbn [andb].
  by rewrite forR_nonpos by lia.
Qed.

Lemma CalcComplements_empty (A : Matrix) :
  rows_ A = cols_ A → rows_ A ≤ 0 →
  CalcComplements A = Throw MatrixInvalidArgumentException.
Proof.
  intros Hsq H0. unfold CalcComplements, IsSquareMatrix.
  rewrite (proj2 (Z.eqb_eq _ _) Hsq). cbn [negb].
  by rewrite Matrix_new_throw by lia.
Qed.

Lemma InverseMatrix_not_square (A : Matrix) :
  rows_ A ≠ cols_ A →
  InverseMatrix A = Throw (MatrixLogicErrorException "Matrix is not square").
Proof. intros H. unfold InverseMatrix. by rewrite Determinant_not_square. Qed.

Lemma CalcComplements_ok (A : Matrix) :
  rows_ A = cols_ A → 0 < rows_ A →
  ∃ f, CalcComplements A = Ok (table (rows_ A) (cols_ A) f).
Proof.
  intros Hsq Hr. destruct (decide (rows_ A = 1)) as [H1|H1].
  - exists (λ _ _, 1%float). rewrite CalcComplements_number by lia.
    by rewrite <- Hsq, H1.
  - eexists. apply CalcComplements_table; [lia|done].
Qed.

Lemma InverseMatrix_cases (A : Matrix) :
  rows_ A = cols_ A → 0 < rows_ A →
  InverseMatrix A = Throw (MatrixLogicErrorException "Matrix determinant is 0") ∨
  ∃ I, InverseMatrix A = Ok I.
Proof.
  intros Hsq Hr. destruct (Determinant_ok A Hr Hsq) as [d Hd].
  destruct (abs d <? kAccuracy)%float eqn:Hsmall.
  - left. by eapply InverseMatrix_singular.
  - right. destruct (CalcComplements_ok A Hsq Hr) as [f HC]. eexists.
    eapply InverseMatrix_regular; [done|done|exact HC|].
    apply Transpose_table; cbn; lia.
Qed.

(** A loop whose body leaves the state as it is. *)
Lemma for_skip {St} (n : Z) (body : Z → St → St) (s : St) :
  (∀ i s', 0 ≤ i < n → body i s' = s') → for_ n body s = s.
Proof.
  intros Hbody. rewrite (for_ext n body (λ _ s', s')) by done.
  by apply (for_keeps (λ s', s' = s)).
Qed.

Lemma det_number (A : Matrix) :
  rows_ A = 1 → cols_ A = 1 → det A = get A 0 0.
Proof. intros Hr Hc. unfold det. by rewrite Determinant_number. Qed.


(** *** Transposition and the arithmetic *)

Lemma Transpose_live (A : Matrix) :
  live A → Transpose A = Ok (table (cols_ A) (rows_ A) (λ j i, get A i j)).
Proof. intros (Hr & Hc & _). by apply Transpose_table. Qed.

Lemma dot_transposed (A B : Matrix) (i j : Z) :
  cols_ A = rows_ B → 0 ≤ i < rows_ A → 0 ≤ j < cols_ B →
  dot (table (cols_ B) (rows_ B) (λ j i, get B i j))
      (table (cols_ A) (rows_ A) (λ j i, get A i j)) j i =
  dot A B i j.
Proof.
  intros Hdim Hi Hj. unfold dot. cbn [cols_ table]. rewrite Hdim.
  apply for_ext. intros k acc Hk.
  rewrite !get_table by lia. by rewrite float_mul_comm.
Qed.

Lemma Transpose_product (A B : Matrix) :
  live A → live B → cols_ A = rows_ B →
  Transpose (product A B) =
  Ok (product (table (cols_ B) (rows_ B) (λ j i, get B i j))
              (table (cols_ A) (rows_ A) (λ j i, get A i j))).
Proof.
  intros (HAr & HAc & _) (HBr & HBc & _) Hdim.
  rewrite Transpose_table by done. f_equal. unfold product. cbn [rows_ cols_ table].
  apply table_ext. intros j i Hj Hi.
  rewrite get_table by done. symmetry. by apply dot_transposed.
Qed.

(** *** Changing both dimensions *)

Lemma resized_same (A : Matrix) : live A → resized A (rows_ A) (cols_ A) = A.
Proof.
  intros HA. transitivity (table (rows_ A) (cols_ A) (get A));
    [|symmetry; by apply live_is_table].
  unfold resized. apply table_ext. intros i j Hi Hj. rewrite !Z.min_id.
  by rewrite (proj2 (Z.ltb_lt i _)), (proj2 (Z.ltb_lt j _)) by lia.
Qed.

Lemma run_SetDimension_live (this : addr) (n m : Z) (σ : store) (A : Matrix) :
  σ !! this = Some A → live A → 0 < n → 0 < m →
  SetDimension this n m σ = (Ok tt, <[this := resized A n m]> σ).
Proof.
  intros Ha HA Hn Hm. pose proof HA as (Hr & Hc & _).
  destruct (decide (n = rows_ A ∧ m = cols_ A)) as [[-> ->]|Hne].
  - rewrite (run_SetDimension_same _ _ _ Ha) by done.
    by rewrite resized_same, list_insert_id.
  - apply run_SetDimension; [done|done|done|lia].
Qed.

Lemma resized_twice (A : Matrix) (n m n' m' : Z) :
  resized (resized A n m) n' m' =
  table n' m' (λ i j,
    if (i <? Z.min (Z.min (rows_ A) n) n') && (j <? Z.min (Z.min (cols_ A) m) m')
    then get A i j else 0%float).
Proof.
  unfold resized at 1. cbn [rows_ cols_ resized table].
  apply table_ext. intros i j Hi Hj.
  destruct (Z.ltb_spec i (Z.min n n')), (Z.ltb_spec j (Z.min m m')); cbn [andb].
  - unfold resized. rewrite get_table by lia.
    destruct (Z.ltb_spec i (Z.min (rows_ A) n)), (Z.ltb_spec j (Z.min (cols_ A) m));
      cbn [andb]; ztests.
  - ztests.
  - ztests.
  - ztests.
Qed.

(** *** NaN *)

Lemma is_nan_spec (x : float) : is_nan x = true → Prim2SF x = S754_nan.
Proof.
  unfold is_nan. rewrite FloatAxioms.eqb_spec. unfold SFeqb.
  destruct (Prim2SF x) as [s|s| |s m e]; cbn [SFcompare]; try done.
  - by destruct s.
  - rewrite Z.compare_refl, Pos.compare_cont_refl. by destruct s.
Qed.

(** A NaN differs from no double by more than the tolerance, on either
    side of the difference. *)
Lemma not_above_nan (x y : float) :
  is_nan x = true ∨ is_nan y = true →
  (kAccuracy <? abs (x - y))%float = false.
Proof.
  intros H. rewrite ltb_spec, abs_spec, sub_spec. unfold SF64sub.
  assert (SFsub prec emax (Prim2SF x) (Prim2SF y) = S754_nan) as ->; [|done].
  destruct H as [H%is_nan_spec|H%is_nan_spec]; rewrite H; [done|].
  by destruct (Prim2SF x).
Qed.


(** *** The determinant against the two expansions *)

(** [Determinant] is the expansion restricted by the tolerance, at every
    level of the recursion. *)
Lemma Determinant_restricted_sum (n : nat) :
  ∀ A, Z.of_nat n = rows_ A → rows_ A = cols_ A → 0 < rows_ A →
  Determinant A = Ok (restricted_sum n A).
Proof.
  induction n as [|n IH]; intros A Hn Hsq Hpos; [lia|].
  rewrite Determinant_unfold. unfold Determinant_body, IsSquareMatrix.
  rewrite (proj2 (Z.eqb_eq _ _) Hsq). cbn [negb].
  destruct (IsMatrixNumber A) eqn:Hnum; unfold IsMatrixNumber in Hnum.
  - assert (n = O) as -> by ztests. done.
  - assert (1 < rows_ A) as Hr by ztests.
    destruct n as [|n]; [lia|]. cbn [restricted_sum].
    rewrite <- Hsq, <- Hn. apply forR_pure. intros j acc Hj.
    destruct (kAccuracy <? abs (get A 0 j))%float; [|done].
    rewrite GetSubmatrix_table by lia. cbn [bindR]. fold (minor A 0 j).
    by rewrite (IH (minor A 0 j)) by (unfold minor; cbn [rows_ cols_ table]; lia).
Qed.

Lemma Determinant_restricted (A : Matrix) :
  0 < rows_ A → rows_ A = cols_ A → Determinant A = Ok (restricted_expansion A).
Proof.
  intros Hr Hsq. apply Determinant_restricted_sum; [lia|done|done].
Qed.

(** The elements of a minor are elements of the matrix. *)
Lemma minor_elements (A : Matrix) (P : float → Prop) (dr dc : Z) :
  0 ≤ dr → 0 ≤ dc →
  (∀ i j, 0 ≤ i < rows_ A → 0 ≤ j < cols_ A → P (get A i j)) →
  ∀ i j, 0 ≤ i < rows_ (minor A dr dc) → 0 ≤ j < cols_ (minor A dr dc) →
         P (get (minor A dr dc) i j).
Proof.
  intros Hdr Hdc HP i j Hi Hj. unfold minor in *. cbn [rows_ cols_ table] in Hi, Hj.
  rewrite get_table by done. apply HP; unfold skip; ztests.
Qed.

(* ================================================================= *)
(** ** C1: move construction and move assignment *)

(** The move constructor: the new object takes the storage and the
    dimensions of the source as they are, no element is copied, and the
    source is left with [rows_ = 0], [cols_ = 0] and no storage. *)
Lemma move_constructor_transfers (other : addr) (σ : store) (A : Matrix) :
  σ !! other = Some A →
  Matrix_move_ctor other σ = (Ok (length σ), <[other := invalid]> σ ++ [A]).
Proof. apply run_Matrix_move_ctor. Qed.

(** The move assignment is the copy assignment: the destination receives
    the dimensions and the elements of the source, and the source keeps
    them. *)
Lemma move_assignment_copies (this other : addr) (σ : store) (T A : Matrix) :
  this ≠ other → σ !! this = Some T → σ !! other = Some A →
  live A → live T ∨ IsSameDimensionMatrix T A = false →
  operator_move_assign this other σ = (Ok this, <[this := A]> σ) ∧
  <[this := A]> σ !! other = Some A.
Proof.
  intros Hne Ht Ha HA HT. split.
  - rewrite operator_move_assign_is_copy. by apply (run_operator_assign _ _ _ T).
  - by rewrite list_lookup_insert_ne.
Qed.

(** C1, at the failing input: the destination [[5]] at address 0 is
    move-assigned from the 2x2 source at address 1.  The claim leaves the
    source with [rows_ = 0], [cols_ = 0] and no storage, as the move
    constructor does on the same source; the move assignment leaves the
    source as it was. *)
Theorem move_assignment_keeps_source :
  operator_move_assign 0%nat 1%nat [of_rows [[5]]; of_rows [[1; 2]; [3; 4]]]%float =
    (Ok 0%nat, [of_rows [[1; 2]; [3; 4]]; of_rows [[1; 2]; [3; 4]]]%float) ∧
  Matrix_move_ctor 1%nat [of_rows [[5]]; of_rows [[1; 2]; [3; 4]]]%float =
    (Ok 2%nat, [of_rows [[5]]; mkMatrix 0 0 None; of_rows [[1; 2]; [3; 4]]]%float).
Proof.
  split.
  - vm_compute. reflexivity.
  - vm_compute. reflexivity.
Qed.

(* ================================================================= *)
(** ** C2: the inverse *)

(** C2 as stated fails at the bound: the determinant of [[kAccuracy]] is
    the tolerance itself, so its absolute value is at most the tolerance,
    and [InverseMatrix] returns a matrix. *)
Lemma InverseMatrix_at_tolerance :
  live (of_rows [[kAccuracy]]) ∧
  IsSquareMatrix (of_rows [[kAccuracy]]) = true ∧
  Determinant (of_rows [[kAccuracy]]) = Ok kAccuracy ∧
  (abs kAccuracy <=? kAccuracy)%float = true ∧
  InverseMatrix (of_rows [[kAccuracy]]) = Ok (of_rows [[10000000%float]]).
Proof.
  split; [apply liveb_live; reflexivity|].
  repeat split; vm_compute; reflexivity.
Qed.

(** C2, amended: for every live square matrix, [Determinant] returns a
    number [d]; [InverseMatrix] throws, and then the logic error "Matrix
    determinant is 0", if and only if [|d|] is below the tolerance
    (strictly); otherwise it returns the transpose of the cofactor
    matrix with every element multiplied by [1 / d]. *)
Theorem InverseMatrix_spec (A : Matrix) :
  live A → rows_ A = cols_ A →
  ∃ d, Determinant A = Ok d ∧
    ((∃ e, InverseMatrix A = Throw e) ↔ (abs d <? kAccuracy)%float = true) ∧
    ((abs d <? kAccuracy)%float = true →
       InverseMatrix A =
         Throw (MatrixLogicErrorException "Matrix determinant is 0")) ∧
    ((abs d <? kAccuracy)%float = false →
       ∃ C T, CalcComplements A = Ok C ∧ Transpose C = Ok T ∧
              InverseMatrix A = Ok (operator_mul_number T (1 / d)%float) ∧
              rows_ (operator_mul_number T (1 / d)%float) = rows_ A ∧
              cols_ (operator_mul_number T (1 / d)%float) = cols_ A ∧
              ∀ i j, 0 ≤ i < rows_ A → 0 ≤ j < cols_ A →
                get (operator_mul_number T (1 / d)%float) i j =
                  (get T i j * (1 / d))%float).
Proof.
  intros HA Hsq. pose proof HA as (Hr & Hc & _).
  destruct (Determinant_ok A Hr Hsq) as [d Hd]. exists d. split; [done|].
  assert (∃ C, CalcComplements A = Ok C ∧ live C ∧
               rows_ C = rows_ A ∧ cols_ C = cols_ A) as (C & HC & HCl & HCr & HCc).
  { destruct (decide (rows_ A = 1)) as [H1|H1].
    - eexists. split; [apply CalcComplements_number; lia|].
      split; [apply live_table; lia|]. cbn [rows_ cols_ table]. lia.
    - eexists. split; [apply CalcComplements_table; lia|].
      split; [by apply live_table|]. done. }
  pose proof HCl as (HCr0 & HCc0 & _).
  pose proof (Transpose_table C HCr0 HCc0) as HT.
  set (T := table (cols_ C) (rows_ C) (λ j i, get C i j)) in HT.
  assert (live T) as HTl by (by apply live_table).
  assert ((abs d <? kAccuracy)%float = false →
          InverseMatrix A = Ok (operator_mul_number T (1 / d)%float)) as Hreg.
  { intros Hlt. by apply (InverseMatrix_regular A d C T). }
  split; [|split].
  - split.
    + intros [e He]. destruct (abs d <? kAccuracy)%float; [done|].
      by rewrite Hreg in He.
    + intros Hlt. eexists. by apply (InverseMatrix_singular A d).
  - by apply InverseMatrix_singular.
  - intros Hlt. exists C, T. split; [done|]. split; [done|]. split; [by apply Hreg|].
    rewrite operator_mul_number_live by done.
    assert (rows_ T = rows_ A ∧ cols_ T = cols_ A) as [HTr HTc]
      by (unfold T; cbn [rows_ cols_ table]; lia).
    cbn [rows_ cols_ table]. split; [done|]. split; [done|].
    intros i j Hi Hj. rewrite get_table; [done|lia..].
Qed.

Lemma InverseMatrix_spec_witness :
  live (of_rows [[1; 2]; [3; 4]]%float) ∧
  rows_ (of_rows [[1; 2]; [3; 4]]%float) = cols_ (of_rows [[1; 2]; [3; 4]]%float) ∧
  ∃ d, Determinant (of_rows [[1; 2]; [3; 4]]%float) = Ok d ∧
       ((∃ e, InverseMatrix (of_rows [[1; 2]; [3; 4]]%float) = Throw e) ↔
        (abs d <? kAccuracy)%float = true).
Proof.
  assert (live (of_rows [[1; 2]; [3; 4]]%float)) as H
    by (apply liveb_live; reflexivity).
  split; [exact H|]. split; [reflexivity|].
  destruct (InverseMatrix_spec _ H eq_refl) as (d & Hd & Hiff & _).
  exists d. split; [exact Hd|exact Hiff].
Defined.

(* ================================================================= *)
(** ** C3: the determinant *)

(** C3 as stated fails: the first-row element [5e-8] of this matrix is not
    zero and lies within the tolerance, its term is left out, and
    [Determinant] returns 0 where the expansion with every term gives
    [5e-8]. *)
Lemma Determinant_drops_small_term :
  live (of_rows [[0x1.ad7f29abcaf48p-25; 0]; [0; 1]]%float) ∧
  IsSquareMatrix (of_rows [[0x1.ad7f29abcaf48p-25; 0]; [0; 1]]%float) = true ∧
  Determinant (of_rows [[0x1.ad7f29abcaf48p-25; 0]; [0; 1]]%float) = Ok 0%float ∧
  cofactor_expansion (of_rows [[0x1.ad7f29abcaf48p-25; 0]; [0; 1]]%float) =
    0x1.ad7f29abcaf48p-25%float ∧
  Determinant (of_rows [[0x1.ad7f29abcaf48p-25; 0]; [0; 1]]%float) ≠
    Ok (cofactor_expansion (of_rows [[0x1.ad7f29abcaf48p-25; 0]; [0; 1]]%float)).
Proof.
  split; [apply liveb_live; reflexivity|].
  split; [reflexivity|].
  split; [vm_compute; reflexivity|].
  split; [vm_compute; reflexivity|].
  intros H.
  apply (f_equal (λ r, match r with Ok d => (d =? 0)%float | Throw _ => false end)) in H.
  vm_compute in H. discriminate H.
Qed.

(** C3, amended: for every live square matrix, [Determinant] returns the
    single element of a 1x1 matrix, and for size 2 or more the first-row
    cofactor expansion over the columns whose first-row element exceeds
    the tolerance in absolute value, every minor being the matrix without
    row 0 and that column; when no element of the matrix lies within the
    tolerance of zero this is the expansion with every term; and the
    determinants of [[5]], [[1,2],[3,4]] and [[2,0,0],[0,2,0],[0,0,2]] are
    5, -2 and 8. *)
Theorem Determinant_spec (A : Matrix) :
  live A → rows_ A = cols_ A →
  (rows_ A = 1 → Determinant A = Ok (get A 0 0)) ∧
  (1 < rows_ A →
     Determinant A =
       Ok (for_ (cols_ A) (λ j acc,
             if (kAccuracy <? abs (get A 0 j))%float
             then (acc + get A 0 j * det (minor A 0 j) * sign j)%float
             else acc) 0%float) ∧
     ∀ j, 0 ≤ j < cols_ A →
          GetSubmatrix A 0 j = Ok (minor A 0 j) ∧
          Determinant (minor A 0 j) = Ok (det (minor A 0 j)) ∧
          sign j = if Z.even j then 1%float else (-1)%float) ∧
  ((∀ i j, 0 ≤ i < rows_ A → 0 ≤ j < cols_ A →
           (kAccuracy <? abs (get A i j))%float = true) →
   Determinant A = Ok (cofactor_expansion A)) ∧
  Determinant (of_rows [[5]]%float) = Ok 5%float ∧
  Determinant (of_rows [[1; 2]; [3; 4]]%float) = Ok (-2)%float ∧
  Determinant (of_rows [[2; 0; 0]; [0; 2; 0]; [0; 0; 2]]%float) = Ok 8%float.
Proof.
  intros HA Hsq. pose proof HA as (Hr & Hc & _).
  split; [|split; [|split]].
  - intros H1. apply Determinant_number; lia.
  - intros H1. split; [by apply Determinant_expansion|].
    intros j Hj. split; [apply GetSubmatrix_minor; lia|].
    split; [|apply sign_even].
    apply Determinant_det; unfold minor; cbn [rows_ cols_ table]; lia.
  - intros Hbig. apply Determinant_cofactor_sum; [lia|done..].
  - repeat split; vm_compute; reflexivity.
Qed.

Lemma Determinant_spec_witness :
  live (of_rows [[1; 2]; [3; 4]]%float) ∧
  rows_ (of_rows [[1; 2]; [3; 4]]%float) = cols_ (of_rows [[1; 2]; [3; 4]]%float) ∧
  Determinant (of_rows [[1; 2]; [3; 4]]%float) =
    Ok (cofactor_expansion (of_rows [[1; 2]; [3; 4]]%float)).
Proof.
  assert (live (of_rows [[1; 2]; [3; 4]]%float)) as H
    by (apply liveb_live; reflexivity).
  split; [exact H|]. split; [reflexivity|].
  destruct (Determinant_spec _ H eq_refl) as (_ & _ & Hfull & _). apply Hfull.
  intros i j Hi Hj. cbn in Hi, Hj.
  assert (i = 0 ∨ i = 1) as [-> | ->] by lia;
    (assert (j = 0 ∨ j = 1) as [-> | ->] by lia); reflexivity.
Defined.

(* ================================================================= *)
(** ** C4: the cofactor matrix *)

(** C4 as stated fails: in the 3x3 matrix with the diagonal 1, 5e-8, 1e10
    the matrix without row 0 and column 0 has the diagonal 5e-8, 1e10 and
    the determinant 500; [Determinant] leaves out the term of 5e-8, which
    lies within the tolerance, and returns 0 for it, so that element
    [(0, 0)] of [CalcComplements] is 0. *)
Lemma CalcComplements_drops_small_term :
  live (of_rows [[1; 0; 0]; [0; 0x1.ad7f29abcaf48p-25; 0]; [0; 0; 1e10]]%float) ∧
  IsSquareMatrix
    (of_rows [[1; 0; 0]; [0; 0x1.ad7f29abcaf48p-25; 0]; [0; 0; 1e10]]%float) = true ∧
  GetSubmatrix
    (of_rows [[1; 0; 0]; [0; 0x1.ad7f29abcaf48p-25; 0]; [0; 0; 1e10]]%float) 0 0 =
    Ok (of_rows [[0x1.ad7f29abcaf48p-25; 0]; [0; 1e10]]%float) ∧
  cofactor_expansion (of_rows [[0x1.ad7f29abcaf48p-25; 0]; [0; 1e10]]%float) =
    500%float ∧
  Determinant (of_rows [[0x1.ad7f29abcaf48p-25; 0]; [0; 1e10]]%float) = Ok 0%float ∧
  ∃ C,
    CalcComplements
      (of_rows [[1; 0; 0]; [0; 0x1.ad7f29abcaf48p-25; 0]; [0; 0; 1e10]]%float) = Ok C ∧
    get C 0 0 = 0%float ∧
    get C 0 0 ≠
      (cofactor_expansion (of_rows [[0x1.ad7f29abcaf48p-25; 0]; [0; 1e10]]%float) *
       (if Z.even (0 + 0) then 1 else -1))%float.
Proof.
  split; [apply liveb_live; reflexivity|].
  split; [reflexivity|].
  split; [vm_compute; reflexivity|].
  split; [vm_compute; reflexivity|].
  split; [vm_compute; reflexivity|].
  eexists. split; [vm_compute; reflexivity|].
  split; [vm_compute; reflexivity|].
  intros H.
  apply (f_equal (λ d, (d =? 0)%float)) in H.
  vm_compute in H. discriminate H.
Qed.

(** C4, amended: [CalcComplements] throws the logic error "Matrix is not
    square" when the dimensions differ; on a 1x1 matrix it returns [[1]]
    whatever the element is; and on a square matrix of size 2 or more it
    returns a matrix of the same size whose element [(i, j)] is, times +1
    when [i + j] is even and -1 otherwise, the first-row expansion of the
    matrix without row [i] and column [j] over the columns whose
    first-row element exceeds the tolerance in absolute value, the minors
    expanded in the same way.  When no element of the matrix lies within
    the tolerance of zero, this is the expansion with every term: the
    determinant of that submatrix. *)
Theorem CalcComplements_spec (A : Matrix) (g : grid) :
  live A → matrix_ A = Some g →
  (rows_ A ≠ cols_ A →
     CalcComplements A = Throw (MatrixLogicErrorException "Matrix is not square")) ∧
  (rows_ A = 1 → cols_ A = 1 →
     CalcComplements A = Ok (of_rows [[1%float]])) ∧
  (rows_ A = cols_ A → 2 ≤ rows_ A →
     ∃ C, CalcComplements A = Ok C ∧
          rows_ C = rows_ A ∧ cols_ C = cols_ A ∧ live C ∧
          (∀ i j, 0 ≤ i < rows_ A → 0 ≤ j < cols_ A →
             GetSubmatrix A i j = Ok (minor A i j) ∧
             matrix_ (minor A i j) =
               Some (delete (Z.to_nat j) <$> delete (Z.to_nat i) g) ∧
             Determinant (minor A i j) = Ok (restricted_expansion (minor A i j)) ∧
             get C i j =
               (restricted_expansion (minor A i j) *
                (if Z.even (i + j) then 1 else -1))%float) ∧
          ((∀ i j, 0 ≤ i < rows_ A → 0 ≤ j < cols_ A →
                   (kAccuracy <? abs (get A i j))%float = true) →
           ∀ i j, 0 ≤ i < rows_ A → 0 ≤ j < cols_ A →
             Determinant (minor A i j) = Ok (cofactor_expansion (minor A i j)) ∧
             get C i j =
               (cofactor_expansion (minor A i j) *
                (if Z.even (i + j) then 1 else -1))%float)).
Proof.
  intros HA Hg. pose proof HA as (Hr & Hc & g' & Hg' & Hshape).
  assert (g' = g) as -> by congruence.
  split; [|split].
  - apply CalcComplements_not_square.
  - intros H1 H2. by rewrite CalcComplements_number.
  - intros Hsq H2.
    assert (∀ i j, 0 ≤ i < rows_ A → 0 ≤ j < cols_ A →
      Determinant (minor A i j) = Ok (restricted_expansion (minor A i j))) as Hdet.
    { intros i j Hi Hj.
      apply Determinant_restricted; unfold minor; cbn [rows_ cols_ table]; lia. }
    assert (∀ i j, 0 ≤ i < rows_ A → 0 ≤ j < cols_ A →
      get (table (rows_ A) (cols_ A)
             (λ i j, (det (minor A i j) * sign (i + j))%float)) i j =
      (restricted_expansion (minor A i j) *
       (if Z.even (i + j) then 1 else -1))%float) as Hcell.
    { intros i j Hi Hj. rewrite get_table, sign_even by done.
      unfold det. by rewrite Hdet. }
    exists (table (rows_ A) (cols_ A) (λ i j, (det (minor A i j) * sign (i + j))%float)).
    split; [apply CalcComplements_table; lia|].
    split; [done|]. split; [done|]. split; [by apply live_table|].
    split.
    + intros i j Hi Hj.
      split; [apply GetSubmatrix_minor; lia|].
      split; [by apply minor_delete|].
      split; [by apply Hdet|by apply Hcell].
    + intros Hbig i j Hi Hj.
      assert (Determinant (minor A i j) = Ok (cofactor_expansion (minor A i j)))
        as Hfull.
      { apply Determinant_cofactor_sum;
          [unfold minor; cbn [rows_ cols_ table]; lia..|].
        apply (minor_elements A (λ x, (kAccuracy <? abs x)%float = true));
          [lia|lia|done]. }
      split; [done|].
      rewrite Hcell by done. rewrite Hdet in Hfull by done.
      injection Hfull as ->. done.
Qed.

Lemma CalcComplements_spec_witness :
  live (of_rows [[1; 2]; [3; 4]]%float) ∧
  ∃ C, CalcComplements (of_rows [[1; 2]; [3; 4]]%float) = Ok C ∧
       get C 0 1 =
         (cofactor_expansion (minor (of_rows [[1; 2]; [3; 4]]%float) 0 1) *
          (if Z.even (0 + 1) then 1 else -1))%float ∧
       (cofactor_expansion (minor (of_rows [[1; 2]; [3; 4]]%float) 0 1) *
        (if Z.even (0 + 1) then 1 else -1))%float = (-3)%float.
Proof.
  assert (live (of_rows [[1; 2]; [3; 4]]%float)) as H by (apply liveb_live; reflexivity).
  split; [exact H|].
  destruct (CalcComplements_spec _ _ H eq_refl) as (_ & _ & Hsquare).
  destruct (Hsquare eq_refl ltac:(cbn; lia)) as (C & HC & _ & _ & _ & _ & Hfull).
  exists C. split; [exact HC|]. split; [|vm_compute; reflexivity].
  apply Hfull; [|cbn; lia|cbn; lia].
  intros i j Hi Hj. cbn in Hi, Hj.
  assert (i = 0 ∨ i = 1) as [-> | ->] by lia;
    (assert (j = 0 ∨ j = 1) as [-> | ->] by lia); reflexivity.
Defined.

(* ================================================================= *)
(** ** C5: changing a dimension *)

Lemma resized_spec (A : Matrix) (new_rows new_cols : Z) :
  0 < new_rows → 0 < new_cols →
  rows_ (resized A new_rows new_cols) = new_rows ∧
  cols_ (resized A new_rows new_cols) = new_cols ∧
  live (resized A new_rows new_cols) ∧
  ∀ i j, 0 ≤ i < new_rows → 0 ≤ j < new_cols →
    get (resized A new_rows new_cols) i j =
      if (i <? Z.min (rows_ A) new_rows) && (j <? Z.min (cols_ A) new_cols)
      then get A i j else 0%float.
Proof.
  intros Hr Hc. split; [done|]. split; [done|]. split; [by apply live_table|].
  intros i j Hi Hj. unfold resized. by rewrite get_table.
Qed.

(** C5: [SetRows(n)] and [SetCols(n)] throw the invalid-argument exception
    when the new pair of dimensions has a value that is not positive; with
    the current dimensions they change nothing; otherwise the object gets
    the new dimensions, every element inside both the old and the new
    bounds keeps its value and its place, every other element of the new
    grid is 0, and what lay outside the new bounds is gone; a call that
    throws leaves the store, and so the matrix, as it was, and so does the
    scope of the replacement grid whatever exception its construction
    throws (the last clause takes any constructor that writes nothing
    where it throws, as one that runs out of storage). *)
Theorem SetRows_SetCols_spec (this : addr) (σ : store) (A : Matrix) (n : Z) :
  σ !! this = Some A →
  (n ≤ 0 ∨ cols_ A ≤ 0 →
     SetRows this n σ = (Throw MatrixInvalidArgumentException, σ)) ∧
  (n ≤ 0 ∨ rows_ A ≤ 0 →
     SetCols this n σ = (Throw MatrixInvalidArgumentException, σ)) ∧
  (0 < n → 0 < cols_ A → n = rows_ A → SetRows this n σ = (Ok tt, σ)) ∧
  (0 < n → 0 < rows_ A → n = cols_ A → SetCols this n σ = (Ok tt, σ)) ∧
  (0 < n → 0 < cols_ A → n ≠ rows_ A →
     SetRows this n σ = (Ok tt, <[this := resized A n (cols_ A)]> σ) ∧
     rows_ (resized A n (cols_ A)) = n ∧
     cols_ (resized A n (cols_ A)) = cols_ A ∧
     live (resized A n (cols_ A)) ∧
     ∀ i j, 0 ≤ i < n → 0 ≤ j < cols_ A →
       get (resized A n (cols_ A)) i j =
         if i <? Z.min (rows_ A) n then get A i j else 0%float) ∧
  (0 < n → 0 < rows_ A → n ≠ cols_ A →
     SetCols this n σ = (Ok tt, <[this := resized A (rows_ A) n]> σ) ∧
     rows_ (resized A (rows_ A) n) = rows_ A ∧
     cols_ (resized A (rows_ A) n) = n ∧
     live (resized A (rows_ A) n) ∧
     ∀ i j, 0 ≤ i < rows_ A → 0 ≤ j < n →
       get (resized A (rows_ A) n) i j =
         if j <? Z.min (cols_ A) n then get A i j else 0%float) ∧
  (∀ e σ', SetRows this n σ = (Throw e, σ') → σ' = σ) ∧
  (∀ e σ', SetCols this n σ = (Throw e, σ') → σ' = σ) ∧
  (∀ (ctor : M addr) new_rows new_cols e σ',
     (∀ σ0 e0 σ1, ctor σ0 = (Throw e0, σ1) → σ1 = σ0) →
     local ctor (SetDimension_swap this new_rows new_cols) σ = (Throw e, σ') →
     σ' = σ).
Proof.
  intros Ha. rewrite (run_SetRows _ _ _ _ Ha), (run_SetCols _ _ _ _ Ha).
  split; [by apply run_SetDimension_invalid|].
  split; [intros H; apply run_SetDimension_invalid; tauto|].
  split; [intros Hn Hc ->; by apply run_SetDimension_same|].
  split; [intros Hn Hr ->; by apply run_SetDimension_same|].
  split; [|split; [|split; [|split]]].
  - intros Hn Hc Hne.
    destruct (resized_spec A n (cols_ A)) as (Hrr & Hrc & Hlive & Hget); [done..|].
    split; [apply run_SetDimension; [done..|by left]|].
    split; [done|]. split; [done|]. split; [done|].
    intros i j Hi Hj. rewrite Hget by done. ztests.
  - intros Hn Hr Hne.
    destruct (resized_spec A (rows_ A) n) as (Hrr & Hrc & Hlive & Hget); [done..|].
    split; [apply run_SetDimension; [done..|by right]|].
    split; [done|]. split; [done|]. split; [done|].
    intros i j Hi Hj. rewrite Hget by done. ztests.
  - intros e σ'. apply SetDimension_throw.
  - intros e σ'. apply SetDimension_throw.
  - intros ctor new_rows new_cols e σ' Hctor.
    apply local_throw_unchanged; [done|]. intros result.
    apply succeeds_SetDimension_swap.
Qed.

Lemma SetRows_SetCols_spec_witness :
  [of_rows [[1; 2]; [3; 4]]%float] !! 0%nat = Some (of_rows [[1; 2]; [3; 4]]%float) ∧
  SetRows 0%nat 3 [of_rows [[1; 2]; [3; 4]]%float] =
    (Ok tt, [resized (of_rows [[1; 2]; [3; 4]]%float) 3 2]) ∧
  resized (of_rows [[1; 2]; [3; 4]]%float) 3 2 =
    of_rows [[1; 2]; [3; 4]; [0; 0]]%float.
Proof.
  split; [reflexivity|]. split; [|vm_compute; reflexivity].
  apply (SetRows_SetCols_spec 0%nat [of_rows [[1; 2]; [3; 4]]%float]
           (of_rows [[1; 2]; [3; 4]]%float) 3 eq_refl); cbn; lia.
Defined.

(* ================================================================= *)
(** ** C6: the product of two matrices *)

(** C6: on live operands, [MulMatrix], [operator*=] and [operator*] throw
    the logic error when the number of columns of the receiver is not the
    number of rows of the argument, and write nothing; otherwise the
    product has the rows of the receiver and the columns of the argument,
    its element [(i, j)] is the sum over [k] of [this[i][k] * other[k][j]],
    accumulated from 0 in the order of [k], the in-place forms make it the
    new state of the receiver, and [operator*] returns it and leaves the
    store as it was. *)
Theorem MulMatrix_spec (this other : addr) (σ : store) (A B : Matrix) :
  σ !! this = Some A → σ !! other = Some B → live A → live B →
  (cols_ A ≠ rows_ B →
     ∃ what,
       what = "The number of columns of the first matrix is not equal to the number of rows of the second matrix"%string ∧
       MulMatrix this other σ = (Throw (MatrixLogicErrorException what), σ) ∧
       operator_mul_assign this other σ = (Throw (MatrixLogicErrorException what), σ) ∧
       operator_mul this other σ = (Throw (MatrixLogicErrorException what), σ)) ∧
  (cols_ A = rows_ B →
     MulMatrix this other σ = (Ok tt, <[this := product A B]> σ) ∧
     operator_mul_assign this other σ = (Ok this, <[this := product A B]> σ) ∧
     operator_mul this other σ = (Ok (product A B), σ) ∧
     rows_ (product A B) = rows_ A ∧
     cols_ (product A B) = cols_ B ∧
     live (product A B) ∧
     ∀ i j, 0 ≤ i < rows_ A → 0 ≤ j < cols_ B →
       get (product A B) i j =
         for_ (cols_ A) (λ k acc, (acc + get A i k * get B k j)%float) 0%float).
Proof.
  intros Ha Hb HA HB. pose proof HA as (HAr & HAc & _). pose proof HB as (HBr & HBc & _).
  split.
  - intros Hne. eexists. split; [reflexivity|].
    split; [by eapply run_MulMatrix_mismatch|].
    split; [|by eapply run_operator_mul_mismatch].
    unfold operator_mul_assign.
    by rewrite (run_bind_throw _ _ _ _ _ (run_MulMatrix_mismatch _ _ _ _ _ Ha Hb Hne)).
  - intros Heq.
    pose proof (run_MulMatrix _ _ _ _ _ Ha Hb HA Heq HBc) as Hrun.
    split; [done|]. split; [|split; [by apply run_operator_mul|]].
    + unfold operator_mul_assign. by rewrite (run_bind _ _ _ _ _ Hrun).
    + split; [done|]. split; [done|]. split; [by apply live_product|].
      intros i j Hi Hj. unfold product. by rewrite get_table.
Qed.

Lemma MulMatrix_spec_witness :
  MulMatrix 0%nat 1%nat [of_rows [[1; 2; 3]]; of_rows [[1]; [2]; [3]]]%float =
    (Ok tt, [product (of_rows [[1; 2; 3]]%float) (of_rows [[1]; [2]; [3]]%float);
             of_rows [[1]; [2]; [3]]%float]) ∧
  product (of_rows [[1; 2; 3]]%float) (of_rows [[1]; [2]; [3]]%float) =
    of_rows [[14%float]].
Proof.
  split; [|vm_compute; reflexivity].
  apply (MulMatrix_spec 0%nat 1%nat
           [of_rows [[1; 2; 3]]; of_rows [[1]; [2]; [3]]]%float
           (of_rows [[1; 2; 3]]%float) (of_rows [[1]; [2]; [3]]%float)
           eq_refl eq_refl
           (liveb_live (of_rows [[1; 2; 3]]%float) eq_refl)
           (liveb_live (of_rows [[1]; [2]; [3]]%float) eq_refl)).
  reflexivity.
Defined.

(* ================================================================= *)
(** ** C7: transposition *)

(** C7: for every live matrix [A], [Transpose] returns without an
    exception a live matrix [T] of swapped dimensions with
    [T[j][i] = A[i][j]] for all valid [i], [j]; the call leaves the
    store, and so [A], as it was; and the transpose of [T] is [A]. *)
Theorem Transpose_spec (A : Matrix) :
  live A →
  ∃ T, Transpose A = Ok T ∧
       rows_ T = cols_ A ∧ cols_ T = rows_ A ∧ live T ∧
       (∀ i j, 0 ≤ i < rows_ A → 0 ≤ j < cols_ A → get T j i = get A i j) ∧
       (∀ this σ, σ !! this = Some A → call Transpose this σ = (Ok T, σ)) ∧
       Transpose T = Ok A.
Proof.
  intros HA. pose proof HA as (Hr & Hc & _).
  exists (table (cols_ A) (rows_ A) (λ j i, get A i j)).
  pose proof (Transpose_table A Hr Hc) as HT.
  split; [done|]. split; [done|]. split; [done|].
  split; [by apply live_table|]. split; [|split].
  - intros i j Hi Hj. by rewrite get_table.
  - intros this σ Hthis. unfold call.
    rewrite (run_bind _ _ _ _ _ (run_load _ _ _ Hthis)). by rewrite HT.
  - rewrite Transpose_table by done. cbn [rows_ cols_ table]. f_equal.
    rewrite (live_is_table A HA) at 3. apply table_ext. intros i j Hi Hj.
    by rewrite get_table.
Qed.

Lemma Transpose_spec_witness :
  live (of_rows [[1; 2; 3]; [4; 5; 6]]%float) ∧
  ∃ T, Transpose (of_rows [[1; 2; 3]; [4; 5; 6]]%float) = Ok T ∧
       Transpose T = Ok (of_rows [[1; 2; 3]; [4; 5; 6]]%float).
Proof.
  assert (live (of_rows [[1; 2; 3]; [4; 5; 6]]%float)) as H
    by (apply liveb_live; reflexivity).
  split; [exact H|].
  destruct (Transpose_spec _ H) as (T & HT & _ & _ & _ & _ & _ & HTT).
  exists T. split; [exact HT|exact HTT].
Defined.

(* ================================================================= *)
(** ** C8: equality *)

(** C8: [EqMatrix] and [operator==] never throw and write nothing; they
    return [true] if and only if the two matrices have the same
    dimensions and no pair of corresponding elements differs in absolute
    value by more than the tolerance, which for a difference that is a
    number says that it is at most the tolerance; an object compared with
    itself is equal, matrices of different dimensions are not, and the
    comparison is reflexive and symmetric. *)
Theorem EqMatrix_spec (this other : addr) (σ : store) (A B : Matrix) :
  σ !! this = Some A → σ !! other = Some B →
  (∃ b, EqMatrix this other σ = (Ok b, σ) ∧
        (b = true ↔
         rows_ A = rows_ B ∧ cols_ A = cols_ B ∧
         ∀ i j, 0 ≤ i < rows_ A → 0 ≤ j < cols_ A →
                (kAccuracy <? abs (get A i j - get B i j))%float = false)) ∧
  EqMatrix this this σ = (Ok true, σ) ∧
  (A = B → EqMatrix this other σ = (Ok true, σ)) ∧
  (rows_ A ≠ rows_ B ∨ cols_ A ≠ cols_ B →
     EqMatrix this other σ = (Ok false, σ)) ∧
  EqMatrix other this σ = EqMatrix this other σ ∧
  operator_eq this other σ = EqMatrix this other σ ∧
  (∀ i j, is_nan (get A i j - get B i j)%float = false →
     (kAccuracy <? abs (get A i j - get B i j))%float = false ↔
     (abs (get A i j - get B i j) <=? kAccuracy)%float = true).
Proof.
  intros Ha Hb.
  assert (∃ b, EqMatrix this other σ = (Ok b, σ) ∧ (b = true ↔ close A B))
    as (b & Hrun & Hb_iff).
  { destruct (decide (this = other)) as [->|Hne].
    - assert (B = A) as -> by congruence. exists true.
      split; [apply run_EqMatrix_self|]. split; [intros _; apply close_refl|done].
    - exists (EqMatrix_val A B). split; [by apply run_EqMatrix|].
      apply EqMatrix_val_true. }
  split; [by exists b|]. split; [apply run_EqMatrix_self|].
  split; [|split; [|split; [|split; [done|]]]].
  - intros <-. rewrite Hrun. do 2 f_equal. apply Hb_iff, close_refl.
  - intros Hdim. rewrite Hrun. do 2 f_equal. destruct b; [|done].
    destruct (proj1 Hb_iff eq_refl) as (? & ? & _). tauto.
  - destruct (decide (this = other)) as [->|Hne]; [done|].
    rewrite (run_EqMatrix other this σ B A), (run_EqMatrix this other σ A B) by done.
    do 2 f_equal. apply eq_true_iff_eq. rewrite !EqMatrix_val_true.
    split; apply close_sym.
  - intros i j. apply not_above_iff_at_most.
Qed.

Lemma EqMatrix_spec_witness :
  ∃ b, EqMatrix 0%nat 1%nat
         [of_rows [[1; 2]]; of_rows [[1; 0x1.000000100000p+1]]]%float =
         (Ok b, [of_rows [[1; 2]]; of_rows [[1; 0x1.000000100000p+1]]]%float) ∧
       EqMatrix 1%nat 0%nat
         [of_rows [[1; 2]]; of_rows [[1; 0x1.000000100000p+1]]]%float =
       EqMatrix 0%nat 1%nat
         [of_rows [[1; 2]]; of_rows [[1; 0x1.000000100000p+1]]]%float.
Proof.
  destruct (EqMatrix_spec 0%nat 1%nat
              [of_rows [[1; 2]]; of_rows [[1; 0x1.000000100000p+1]]]%float
              (of_rows [[1; 2]]%float) (of_rows [[1; 0x1.000000100000p+1]]%float)
              eq_refl eq_refl) as ((b & Hb & _) & _ & _ & _ & Hsym & _).
  exists b. split; [exact Hb|exact Hsym].
Defined.

(* ================================================================= *)
(** ** C9: a call that fails has changed nothing *)

(** C9: when [SumMatrix], [SubMatrix], [MulMatrix] (and the operators
    built on them), [SetRows], [SetCols], the indexed access,
    [Determinant], [CalcComplements] or [InverseMatrix] throws, the store
    is the store before the call: the dimensions and every element of the
    receiver, and of every other object, are as they were. *)
Theorem failure_changes_nothing (this other : addr) (i j n : Z) (σ σ' : store)
    (e : exception) :
  (SumMatrix this other σ = (Throw e, σ') → σ' = σ) ∧
  (SubMatrix this other σ = (Throw e, σ') → σ' = σ) ∧
  (MulMatrix this other σ = (Throw e, σ') → σ' = σ) ∧
  (operator_plus_assign this other σ = (Throw e, σ') → σ' = σ) ∧
  (operator_minus_assign this other σ = (Throw e, σ') → σ' = σ) ∧
  (operator_mul_assign this other σ = (Throw e, σ') → σ' = σ) ∧
  (SetRows this n σ = (Throw e, σ') → σ' = σ) ∧
  (SetCols this n σ = (Throw e, σ') → σ' = σ) ∧
  (operator_call this i j σ = (Throw e, σ') → σ' = σ) ∧
  (call Determinant this σ = (Throw e, σ') → σ' = σ) ∧
  (call CalcComplements this σ = (Throw e, σ') → σ' = σ) ∧
  (call InverseMatrix this σ = (Throw e, σ') → σ' = σ).
Proof.
  assert (∀ (m : M unit) (k : addr),
    (m σ = (Throw e, σ') → σ' = σ) →
    (m >> ret k) σ = (Throw e, σ') → σ' = σ) as Hassign.
  { intros m k Hm. unfold bind, ret. destruct (m σ) as [[[]|e'] σ1]; [done|].
    intros [= <- <-]. by apply Hm. }
  split; [apply SumMatrix_throw|]. split; [apply SubMatrix_throw|].
  split; [apply MulMatrix_throw|].
  split; [apply Hassign, SumMatrix_throw|].
  split; [apply Hassign, SubMatrix_throw|].
  split; [apply Hassign, MulMatrix_throw|].
  split; [apply SetRows_throw|]. split; [apply SetCols_throw|].
  split; [apply operator_call_throw|].
  split; [apply call_unchanged|]. split; apply call_unchanged.
Qed.

Lemma failure_changes_nothing_witness :
  SumMatrix 0%nat 1%nat [of_rows [[1; 2]]; of_rows [[1; 2]; [3; 4]]]%float =
    (Throw (MatrixLogicErrorException "Different dimensions of matrices"),
     snd (SumMatrix 0%nat 1%nat [of_rows [[1; 2]]; of_rows [[1; 2]; [3; 4]]]%float)) ∧
  snd (SumMatrix 0%nat 1%nat [of_rows [[1; 2]]; of_rows [[1; 2]; [3; 4]]]%float) =
    [of_rows [[1; 2]]; of_rows [[1; 2]; [3; 4]]]%float.
Proof.
  assert (SumMatrix 0%nat 1%nat [of_rows [[1; 2]]; of_rows [[1; 2]; [3; 4]]]%float =
    (Throw (MatrixLogicErrorException "Different dimensions of matrices"),
     snd (SumMatrix 0%nat 1%nat [of_rows [[1; 2]]; of_rows [[1; 2]; [3; 4]]]%float)))
    as H by reflexivity.
  split; [exact H|].
  exact (proj1 (failure_changes_nothing 0%nat 1%nat 0 0 0 _ _ _) H).
Defined.

(* ================================================================= *)
(** ** C10: multiplying a matrix by itself in place *)

(** C10: for every live square matrix [A], [A *= A] leaves in [A] what
    [B = A * A; A = B;] leaves in it, the product of the old [A] with
    itself: the product is accumulated in a local before the receiver is
    assigned. *)
Theorem operator_mul_assign_self (a : addr) (σ : store) (A : Matrix) :
  σ !! a = Some A → live A → rows_ A = cols_ A →
  operator_mul_assign a a σ = (Ok a, <[a := product A A]> σ) ∧
  (let! value := operator_mul a a in
   let! b := declare value in
   operator_assign a b) σ = (Ok a, <[a := product A A]> σ ++ [product A A]) ∧
  <[a := product A A]> σ !! a = Some (product A A) ∧
  (<[a := product A A]> σ ++ [product A A]) !! a = Some (product A A).
Proof.
  intros Ha HA Hsq. pose proof HA as (HAr & HAc & _).
  assert (live (product A A)) as HP by (apply live_product; lia).
  assert (<[a := product A A]> σ !! a = Some (product A A)) as Hnew
    by (by eapply lookup_insert_same).
  split; [|split; [|split]].
  - unfold operator_mul_assign.
    by rewrite (run_bind _ _ _ _ _ (run_MulMatrix a a σ A A Ha Ha HA (eq_sym Hsq) HAc)).
  - rewrite (run_bind _ _ _ _ _ (run_operator_mul a a σ A A Ha Ha HA (eq_sym Hsq) HAc)).
    unfold declare, construct. unfold ret at 1. unfold bind.
    rewrite (run_operator_assign a (length σ) (σ ++ [product A A]) A (product A A));
      [|by eapply lookup_old_ne_new|by apply snoc_lookup_old|apply snoc_lookup_new
       |done|by left].
    by rewrite (snoc_insert_old _ _ _ _ _ Ha).
  - done.
  - by apply snoc_lookup_old.
Qed.

Lemma operator_mul_assign_self_witness :
  operator_mul_assign 0%nat 0%nat [of_rows [[1; 2]; [3; 4]]%float] =
    (Ok 0%nat, [product (of_rows [[1; 2]; [3; 4]]%float) (of_rows [[1; 2]; [3; 4]]%float)]) ∧
  product (of_rows [[1; 2]; [3; 4]]%float) (of_rows [[1; 2]; [3; 4]]%float) =
    of_rows [[7; 10]; [15; 22]]%float.
Proof.
  split; [|vm_compute; reflexivity].
  apply (operator_mul_assign_self 0%nat [of_rows [[1; 2]; [3; 4]]%float]
           (of_rows [[1; 2]; [3; 4]]%float) eq_refl
           (liveb_live (of_rows [[1; 2]; [3; 4]]%float) eq_refl) eq_refl).
Defined.

(* ================================================================= *)
(** * Further properties of the member functions *)

(* ================================================================= *)
(** ** X1: the constructors with dimensions *)

(** X1: [Matrix(rows, cols)] throws the invalid-argument exception when a
    dimension is not positive, and then no object has been added to the
    store; otherwise the new object has these dimensions, is live, and
    every element of it is 0.  [Matrix(size)] is the same with both
    dimensions [size], and [Matrix()] gives the 3x3 matrix of zeros. *)
Theorem Matrix_ctor_spec (rows cols : Z) (σ : store) :
  (rows ≤ 0 ∨ cols ≤ 0 →
     Matrix_ctor rows cols σ = (Throw MatrixInvalidArgumentException, σ)) ∧
  (0 < rows → 0 < cols →
     ∃ N, Matrix_ctor rows cols σ = (Ok (length σ), σ ++ [N]) ∧
          rows_ N = rows ∧ cols_ N = cols ∧ live N ∧
          ∀ i j, 0 ≤ i < rows → 0 ≤ j < cols → get N i j = 0%float) ∧
  (rows ≤ 0 →
     Matrix_size_ctor rows σ = (Throw MatrixInvalidArgumentException, σ)) ∧
  (0 < rows →
     ∃ N, Matrix_size_ctor rows σ = (Ok (length σ), σ ++ [N]) ∧
          rows_ N = rows ∧ cols_ N = rows ∧ live N ∧
          ∀ i j, 0 ≤ i < rows → 0 ≤ j < rows → get N i j = 0%float) ∧
  Matrix_default_ctor σ =
    (Ok (length σ), σ ++ [of_rows [[0; 0; 0]; [0; 0; 0]; [0; 0; 0]]%float]).
Proof.
  assert (∀ r c, 0 < r → 0 < c →
    ∃ N, Matrix_ctor r c σ = (Ok (length σ), σ ++ [N]) ∧
         rows_ N = r ∧ cols_ N = c ∧ live N ∧
         ∀ i j, 0 ≤ i < r → 0 ≤ j < c → get N i j = 0%float) as Hok.
  { intros r c Hr Hc. exists (table r c (λ _ _, 0%float)).
    split; [by apply run_Matrix_ctor|]. split; [done|]. split; [done|].
    split; [by apply live_table|]. intros i j Hi Hj. by rewrite get_table. }
  split; [apply run_Matrix_ctor_throw|]. split; [apply Hok|].
  split; [intros Hr; apply run_Matrix_ctor_throw; by left|].
  split; [intros Hr; by apply Hok|].
  unfold Matrix_default_ctor. by rewrite run_Matrix_ctor.
Qed.

(* ================================================================= *)
(** ** X2: the copy constructor *)

(** X2: the copy constructor never throws and leaves its source as it
    was; the new object has the dimensions of the source; the copy of a
    live source has every element of the source, so that it is the same
    matrix value and [operator==] holds between the two; the copy of a
    moved-from source has the dimensions 0 and 0 and storage of no rows
    (its [matrix_] is not [nullptr]). *)
Theorem Matrix_copy_ctor_spec (other : addr) (σ : store) (O : Matrix) :
  σ !! other = Some O →
  ∃ N, Matrix_copy_ctor other σ = (Ok (length σ), σ ++ [N]) ∧
       (σ ++ [N]) !! other = Some O ∧
       rows_ N = rows_ O ∧ cols_ N = cols_ O ∧
       (live O →
          N = O ∧
          operator_eq (length σ) other (σ ++ [N]) = (Ok true, σ ++ [N])) ∧
       (O = invalid → N = mkMatrix 0 0 (Some [])).
Proof.
  intros Ho. exists (Matrix_copy O).
  split; [by apply run_Matrix_copy_ctor|].
  split; [by apply snoc_lookup_old|].
  destruct (Matrix_copy_dims O) as [Hr Hc]. split; [done|]. split; [done|].
  split.
  - intros HO. rewrite Matrix_copy_live by done. split; [done|].
    unfold operator_eq.
    rewrite (run_EqMatrix (length σ) other (σ ++ [O]) O O);
      [|symmetry; by eapply lookup_old_ne_new|apply snoc_lookup_new
       |by apply snoc_lookup_old].
    do 2 f_equal. apply EqMatrix_val_true, close_refl.
  - by intros ->.
Qed.

Lemma Matrix_copy_ctor_spec_witness :
  ∃ N, Matrix_copy_ctor 0%nat [of_rows [[1; 2]; [3; 4]]%float] =
         (Ok 1%nat, [of_rows [[1; 2]; [3; 4]]%float] ++ [N]) ∧
       N = of_rows [[1; 2]; [3; 4]]%float.
Proof.
  destruct (Matrix_copy_ctor_spec 0%nat [of_rows [[1; 2]; [3; 4]]%float]
              (of_rows [[1; 2]; [3; 4]]%float) eq_refl)
    as (N & Hrun & _ & _ & _ & Hlive & _).
  exists N. split; [exact Hrun|].
  exact (proj1 (Hlive (liveb_live (of_rows [[1; 2]; [3; 4]]%float) eq_refl))).
Defined.

(* ================================================================= *)
(** ** X3: the copy assignment *)

(** X3: the copy assignment from a live source never throws and returns
    the receiver; the receiver, whether it was live or moved-from, then
    holds the dimensions and the elements of the source; the source and
    every other object are as they were; assigning an object to itself
    changes nothing. *)
Theorem operator_assign_spec (this other : addr) (σ : store) (T O : Matrix) :
  σ !! this = Some T → σ !! other = Some O → live O → live T ∨ T = invalid →
  operator_assign this other σ = (Ok this, <[this := O]> σ) ∧
  <[this := O]> σ !! this = Some O ∧
  <[this := O]> σ !! other = Some O ∧
  (∀ a, a ≠ this → <[this := O]> σ !! a = σ !! a) ∧
  (this = other → <[this := O]> σ = σ).
Proof.
  intros Ht Ho HO HT.
  assert (<[this := O]> σ !! this = Some O) as Hnew by (by eapply lookup_insert_same).
  destruct (decide (this = other)) as [<-|Hne].
  - assert (T = O) as -> by congruence.
    rewrite list_insert_id by done.
    split; [apply run_operator_assign_self|]. done.
  - split.
    { apply (run_operator_assign _ _ _ T); [done..|].
      destruct HT as [HT| ->]; [by left|right].
      destruct HO as (HOr & HOc & _). unfold IsSameDimensionMatrix, invalid.
      cbn [rows_ cols_]. by rewrite (proj2 (Z.eqb_neq 0 (cols_ O))) by lia. }
    split; [done|]. split; [by rewrite list_lookup_insert_ne|].
    split; [|done]. intros a Ha. by rewrite list_lookup_insert_ne.
Qed.

Lemma operator_assign_spec_witness :
  operator_assign 0%nat 1%nat [invalid; of_rows [[1; 2]; [3; 4]]%float] =
    (Ok 0%nat, [of_rows [[1; 2]; [3; 4]]; of_rows [[1; 2]; [3; 4]]]%float).
Proof.
  exact (proj1 (operator_assign_spec 0%nat 1%nat
    [invalid; of_rows [[1; 2]; [3; 4]]%float] invalid
    (of_rows [[1; 2]; [3; 4]]%float) eq_refl eq_refl
    (liveb_live (of_rows [[1; 2]; [3; 4]]%float) eq_refl) (or_intror eq_refl))).
Defined.

(* ================================================================= *)
(** ** X4: addition in place *)

(** X4: on a live receiver, [SumMatrix] and [operator+=] throw the logic
    error "Different dimensions of matrices" when the argument has other
    dimensions, and write nothing; otherwise every element of the receiver
    becomes its sum with the element of the argument at the same place,
    the dimensions stay, the argument is as it was, and [operator+=]
    returns the receiver.  The argument may be the receiver: [A += A]
    leaves [a + a] for every element [a]. *)
Theorem SumMatrix_spec (this other : addr) (σ : store) (A B : Matrix) :
  σ !! this = Some A → σ !! other = Some B → live A →
  (rows_ A ≠ rows_ B ∨ cols_ A ≠ cols_ B →
     SumMatrix this other σ =
       (Throw (MatrixLogicErrorException "Different dimensions of matrices"), σ) ∧
     operator_plus_assign this other σ =
       (Throw (MatrixLogicErrorException "Different dimensions of matrices"), σ)) ∧
  (rows_ A = rows_ B → cols_ A = cols_ B →
     ∃ S, SumMatrix this other σ = (Ok tt, <[this := S]> σ) ∧
          operator_plus_assign this other σ = (Ok this, <[this := S]> σ) ∧
          <[this := S]> σ !! this = Some S ∧
          (this ≠ other → <[this := S]> σ !! other = Some B) ∧
          rows_ S = rows_ A ∧ cols_ S = cols_ A ∧ live S ∧
          ∀ i j, 0 ≤ i < rows_ A → 0 ≤ j < cols_ A →
            get S i j = (get A i j + get B i j)%float).
Proof.
  intros Ha Hb HA. pose proof HA as (HAr & HAc & _). split.
  - intros Hne. pose proof (run_SumMatrix_mismatch _ _ _ _ _ Ha Hb Hne) as H.
    split; [done|]. unfold operator_plus_assign. by rewrite (run_bind_throw _ _ _ _ _ H).
  - intros Hr Hc. pose proof (run_SumMatrix _ _ _ _ _ Ha Hb HA Hr Hc) as H.
    eexists. split; [exact H|].
    split; [unfold operator_plus_assign; by rewrite (run_bind _ _ _ _ _ H)|].
    split; [by eapply lookup_insert_same|].
    split; [intros Hne; by rewrite list_lookup_insert_ne|].
    split; [done|]. split; [done|]. split; [by apply live_table|].
    intros i j Hi Hj. by rewrite get_table.
Qed.

Lemma SumMatrix_spec_witness :
  ∃ S, SumMatrix 0%nat 0%nat [of_rows [[1; 2]; [3; 4]]%float] = (Ok tt, [S]) ∧
       get S 1 0 = (3 + 3)%float.
Proof.
  destruct (proj2 (SumMatrix_spec 0%nat 0%nat [of_rows [[1; 2]; [3; 4]]%float]
              (of_rows [[1; 2]; [3; 4]]%float) (of_rows [[1; 2]; [3; 4]]%float)
              eq_refl eq_refl
              (liveb_live (of_rows [[1; 2]; [3; 4]]%float) eq_refl))
            eq_refl eq_refl)
    as (S & Hrun & _ & _ & _ & _ & _ & _ & Hget).
  exists S. split; [exact Hrun|]. apply Hget; cbn; lia.
Defined.

(* ================================================================= *)
(** ** X5: subtraction in place *)

(** X5: on a live receiver, [SubMatrix] and [operator-=] throw the logic
    error "Different dimensions of matrices" when the argument has other
    dimensions, and write nothing; otherwise every element of the receiver
    becomes itself minus the element of the argument at the same place,
    the dimensions stay, the argument is as it was, and [operator-=]
    returns the receiver.  With the receiver as the argument, [A -= A]
    leaves [a - a] for every element [a]: 0, or NaN for an infinity or a
    NaN, and in no case a value above the tolerance in absolute value. *)
Theorem SubMatrix_spec (this other : addr) (σ : store) (A B : Matrix) :
  σ !! this = Some A → σ !! other = Some B → live A →
  (rows_ A ≠ rows_ B ∨ cols_ A ≠ cols_ B →
     SubMatrix this other σ =
       (Throw (MatrixLogicErrorException "Different dimensions of matrices"), σ) ∧
     operator_minus_assign this other σ =
       (Throw (MatrixLogicErrorException "Different dimensions of matrices"), σ)) ∧
  (rows_ A = rows_ B → cols_ A = cols_ B →
     ∃ D, SubMatrix this other σ = (Ok tt, <[this := D]> σ) ∧
          operator_minus_assign this other σ = (Ok this, <[this := D]> σ) ∧
          <[this := D]> σ !! this = Some D ∧
          (this ≠ other → <[this := D]> σ !! other = Some B) ∧
          rows_ D = rows_ A ∧ cols_ D = cols_ A ∧ live D ∧
          (∀ i j, 0 ≤ i < rows_ A → 0 ≤ j < cols_ A →
             get D i j = (get A i j - get B i j)%float) ∧
          (this = other →
             ∀ i j, 0 ≤ i < rows_ A → 0 ≤ j < cols_ A →
               (kAccuracy <? abs (get D i j))%float = false)).
Proof.
  intros Ha Hb HA. pose proof HA as (HAr & HAc & _). split.
  - intros Hne. pose proof (run_SubMatrix_mismatch _ _ _ _ _ Ha Hb Hne) as H.
    split; [done|]. unfold operator_minus_assign. by rewrite (run_bind_throw _ _ _ _ _ H).
  - intros Hr Hc. pose proof (run_SubMatrix _ _ _ _ _ Ha Hb HA Hr Hc) as H.
    eexists. split; [exact H|].
    split; [unfold operator_minus_assign; by rewrite (run_bind _ _ _ _ _ H)|].
    split; [by eapply lookup_insert_same|].
    split; [intros Hne; by rewrite list_lookup_insert_ne|].
    split; [done|]. split; [done|]. split; [by apply live_table|].
    split.
    + intros i j Hi Hj. by rewrite get_table.
    + intros <- i j Hi Hj. assert (B = A) as -> by congruence.
      rewrite get_table by done. apply not_above_self.
Qed.

Lemma SubMatrix_spec_witness :
  ∃ D, SubMatrix 0%nat 1%nat [of_rows [[5; 7]]; of_rows [[1; 2]]]%float =
         (Ok tt, [D; of_rows [[1; 2]]%float]) ∧
       get D 0 1 = (7 - 2)%float.
Proof.
  destruct (proj2 (SubMatrix_spec 0%nat 1%nat [of_rows [[5; 7]]; of_rows [[1; 2]]]%float
              (of_rows [[5; 7]]%float) (of_rows [[1; 2]]%float)
              eq_refl eq_refl (liveb_live (of_rows [[5; 7]]%float) eq_refl))
            eq_refl eq_refl)
    as (D & Hrun & _ & _ & _ & _ & _ & _ & Hget & _).
  exists D. split; [exact Hrun|]. apply Hget; cbn; lia.
Defined.

(* ================================================================= *)
(** ** X6: the sum and the difference as new matrices *)

(** X6: [operator+] and [operator-] on a live receiver throw the logic
    error "Different dimensions of matrices" when the argument has other
    dimensions; otherwise they return a live matrix of the same
    dimensions whose elements are the sums, or the differences, of the
    elements at the same place.  In both cases the store after the call
    is the store before it: neither operand is written, and the local
    the result is built in is gone. *)
Theorem operator_plus_minus_spec (this other : addr) (σ : store) (A B : Matrix) :
  σ !! this = Some A → σ !! other = Some B → live A →
  (rows_ A ≠ rows_ B ∨ cols_ A ≠ cols_ B →
     operator_plus this other σ =
       (Throw (MatrixLogicErrorException "Different dimensions of matrices"), σ) ∧
     operator_minus this other σ =
       (Throw (MatrixLogicErrorException "Different dimensions of matrices"), σ)) ∧
  (rows_ A = rows_ B → cols_ A = cols_ B →
     ∃ S D, operator_plus this other σ = (Ok S, σ) ∧
            operator_minus this other σ = (Ok D, σ) ∧
            rows_ S = rows_ A ∧ cols_ S = cols_ A ∧ live S ∧
            rows_ D = rows_ A ∧ cols_ D = cols_ A ∧ live D ∧
            ∀ i j, 0 ≤ i < rows_ A → 0 ≤ j < cols_ A →
              get S i j = (get A i j + get B i j)%float ∧
              get D i j = (get A i j - get B i j)%float).
Proof.
  intros Ha Hb HA. pose proof HA as (HAr & HAc & _). split.
  - intros Hne. split.
    + by apply (run_operator_plus_mismatch _ _ _ A B).
    + by apply (run_operator_minus_mismatch _ _ _ A B).
  - intros Hr Hc. eexists _, _.
    split; [by apply (run_operator_plus _ _ _ A B)|].
    split; [by apply (run_operator_minus _ _ _ A B)|].
    split; [done|]. split; [done|]. split; [by apply live_table|].
    split; [done|]. split; [done|]. split; [by apply live_table|].
    intros i j Hi Hj. by rewrite !get_table.
Qed.

Lemma operator_plus_minus_spec_witness :
  ∃ S D,
    operator_plus 0%nat 1%nat [of_rows [[5; 7]]; of_rows [[1; 2]]]%float =
      (Ok S, [of_rows [[5; 7]]; of_rows [[1; 2]]]%float) ∧
    operator_minus 0%nat 1%nat [of_rows [[5; 7]]; of_rows [[1; 2]]]%float =
      (Ok D, [of_rows [[5; 7]]; of_rows [[1; 2]]]%float) ∧
    get S 0 0 = (5 + 1)%float ∧ get D 0 0 = (5 - 1)%float.
Proof.
  destruct (proj2 (operator_plus_minus_spec 0%nat 1%nat
              [of_rows [[5; 7]]; of_rows [[1; 2]]]%float
              (of_rows [[5; 7]]%float) (of_rows [[1; 2]]%float)
              eq_refl eq_refl (liveb_live (of_rows [[5; 7]]%float) eq_refl))
            eq_refl eq_refl)
    as (S & D & Hp & Hm & _ & _ & _ & _ & _ & _ & Hget).
  exists S, D. split; [exact Hp|]. split; [exact Hm|].
  apply (Hget 0 0); cbn; lia.
Defined.

(* ================================================================= *)
(** ** X7: the sum does not depend on the order of the operands *)

(** X7: for two live matrices, [A + B] and [B + A] are the same call
    result: the same exception when the dimensions differ, and otherwise
    the same matrix, element for element and bit for bit, since the
    addition of two doubles does not depend on their order. *)
Theorem operator_plus_comm (this other : addr) (σ : store) (A B : Matrix) :
  σ !! this = Some A → σ !! other = Some B → live A → live B →
  operator_plus this other σ = operator_plus other this σ.
Proof.
  intros Ha Hb HA HB.
  destruct (decide (rows_ A = rows_ B ∧ cols_ A = cols_ B)) as [[Hr Hc]|Hne].
  - rewrite (run_operator_plus _ _ _ A B), (run_operator_plus _ _ _ B A) by done.
    do 2 f_equal. rewrite Hr, Hc. apply table_ext. intros i j _ _. apply float_add_comm.
  - rewrite (run_operator_plus_mismatch _ _ _ A B),
      (run_operator_plus_mismatch _ _ _ B A); [done|done|done|lia|done|done|lia].
Qed.

Lemma operator_plus_comm_witness :
  operator_plus 0%nat 1%nat [of_rows [[5; 7]]; of_rows [[1; 2]]]%float =
  operator_plus 1%nat 0%nat [of_rows [[5; 7]]; of_rows [[1; 2]]]%float.
Proof.
  exact (operator_plus_comm 0%nat 1%nat [of_rows [[5; 7]]; of_rows [[1; 2]]]%float
    (of_rows [[5; 7]]%float) (of_rows [[1; 2]]%float) eq_refl eq_refl
    (liveb_live (of_rows [[5; 7]]%float) eq_refl)
    (liveb_live (of_rows [[1; 2]]%float) eq_refl)).
Defined.

(* ================================================================= *)
(** ** X8: multiplication by a number *)

(** X8: [MulNumber] never throws, whatever the receiver is.  On a live
    receiver, [MulNumber] and [operator*=] with a number multiply every
    element by the number, on the right, and keep the dimensions;
    [operator*=] returns the receiver; [operator*] with the number on
    the right and [operator*] with the number on the left both return
    that same matrix. *)
Theorem MulNumber_spec (this : addr) (num : float) (σ : store) (A : Matrix) :
  σ !! this = Some A →
  (∃ A', MulNumber this num σ = (Ok tt, <[this := A']> σ)) ∧
  (live A →
   ∃ P, MulNumber this num σ = (Ok tt, <[this := P]> σ) ∧
        operator_mul_assign_number this num σ = (Ok this, <[this := P]> σ) ∧
        operator_mul_number A num = P ∧
        operator_number_mul num A = P ∧
        rows_ P = rows_ A ∧ cols_ P = cols_ A ∧ live P ∧
        ∀ i j, 0 ≤ i < rows_ A → 0 ≤ j < cols_ A →
          get P i j = (get A i j * num)%float).
Proof.
  intros Ha. pose proof (run_MulNumber this num σ A Ha) as H.
  split; [by eexists|]. intros HA. pose proof HA as (HAr & HAc & _).
  rewrite MulNumber_val_live in H by done.
  eexists. split; [exact H|].
  split.
  { unfold operator_mul_assign_number, noexceptM.
    by rewrite (run_bind _ _ _ _ _ H). }
  split; [by apply operator_mul_number_live|].
  split; [by apply operator_mul_number_live|].
  split; [done|]. split; [done|]. split; [by apply live_table|].
  intros i j Hi Hj. by rewrite get_table.
Qed.

Lemma MulNumber_spec_witness :
  ∃ P, MulNumber 0%nat 3%float [of_rows [[1; 2]; [3; 4]]%float] = (Ok tt, [P]) ∧
       get P 1 1 = (4 * 3)%float.
Proof.
  destruct (proj2 (MulNumber_spec 0%nat 3%float [of_rows [[1; 2]; [3; 4]]%float]
              (of_rows [[1; 2]; [3; 4]]%float) eq_refl)
            (liveb_live (of_rows [[1; 2]; [3; 4]]%float) eq_refl))
    as (P & Hrun & _ & _ & _ & _ & _ & _ & Hget).
  exists P. split; [exact Hrun|]. apply Hget; cbn; lia.
Defined.

(* ================================================================= *)
(** ** X9: indexed access *)

(** X9: [operator()(i, j)] throws the out-of-range exception exactly when
    [i] or [j] is negative or not below the dimension, and writes nothing
    then.  Inside the bounds it returns the place of the element: reading
    through it gives the element, and writing a value through it changes
    that element and no other, keeps the dimensions, and a later read at
    [(i, j)] gives the value written. *)
Theorem operator_call_spec (this : addr) (i j : Z) (σ : store) (A : Matrix) :
  σ !! this = Some A → live A →
  (¬ (0 ≤ i < rows_ A ∧ 0 ≤ j < cols_ A) →
     operator_call this i j σ = (Throw MatrixOutOfRangeException, σ)) ∧
  (0 ≤ i < rows_ A → 0 ≤ j < cols_ A →
     operator_call this i j σ = (Ok (this, i, j), σ) ∧
     (let! r := operator_call this i j in read_ref r) σ = (Ok (get A i j), σ) ∧
     ∀ v, ∃ A',
       (let! r := operator_call this i j in write_ref r v) σ =
         (Ok tt, <[this := A']> σ) ∧
       rows_ A' = rows_ A ∧ cols_ A' = cols_ A ∧ live A' ∧
       get A' i j = v ∧
       (∀ i' j', 0 ≤ i' < rows_ A → 0 ≤ j' < cols_ A → (i', j') ≠ (i, j) →
          get A' i' j' = get A i' j') ∧
       (let! r := operator_call this i j in read_ref r) (<[this := A']> σ) =
         (Ok v, <[this := A']> σ)).
Proof.
  intros Ha HA. pose proof HA as (HAr & HAc & _).
  split; [by apply run_operator_call_outside|].
  intros Hi Hj. pose proof (run_operator_call this i j σ A Ha Hi Hj) as Hcall.
  split; [done|].
  split.
  { rewrite (run_bind _ _ _ _ _ Hcall). by apply run_read_cell. }
  intros v. exists (table (rows_ A) (cols_ A) (update (get A) i j v)).
  assert (get (table (rows_ A) (cols_ A) (update (get A) i j v)) i j = v) as Hv.
  { rewrite get_table by done. unfold update. by rewrite !Z.eqb_refl. }
  split.
  { rewrite (run_bind _ _ _ _ _ Hcall). cbn [write_ref].
    rewrite (run_write_cell _ _ _ Ha). rewrite put_live; [done|done|lia|lia]. }
  split; [done|]. split; [done|]. split; [by apply live_table|].
  split; [done|].
  split.
  { intros i' j' Hi' Hj' Hne. rewrite get_table by done. unfold update.
    destruct (Z.eqb_spec i' i) as [->|]; [|done].
    destruct (Z.eqb_spec j' j) as [->|]; done. }
  set (A' := table (rows_ A) (cols_ A) (update (get A) i j v)) in *.
  pose proof (lookup_insert_same this σ A Ha A') as Ha'.
  rewrite (run_bind _ _ _ _ _ (run_operator_call this i j _ A' Ha' Hi Hj)).
  cbn [read_ref]. rewrite (run_read_cell _ _ _ Ha'). by rewrite Hv.
Qed.

Lemma operator_call_spec_witness :
  (let! r := operator_call 0%nat 1 0 in read_ref r) [of_rows [[1; 2]; [3; 4]]%float] =
    (Ok 3%float, [of_rows [[1; 2]; [3; 4]]%float]) ∧
  operator_call 0%nat 2 0 [of_rows [[1; 2]; [3; 4]]%float] =
    (Throw MatrixOutOfRangeException, [of_rows [[1; 2]; [3; 4]]%float]).
Proof.
  destruct (operator_call_spec 0%nat 1 0 [of_rows [[1; 2]; [3; 4]]%float]
              (of_rows [[1; 2]; [3; 4]]%float) eq_refl
              (liveb_live (of_rows [[1; 2]; [3; 4]]%float) eq_refl))
    as [_ Hin].
  destruct (operator_call_spec 0%nat 2 0 [of_rows [[1; 2]; [3; 4]]%float]
              (of_rows [[1; 2]; [3; 4]]%float) eq_refl
              (liveb_live (of_rows [[1; 2]; [3; 4]]%float) eq_refl))
    as [Hout _].
  split.
  - apply Hin; cbn; lia.
  - apply Hout. cbn. lia.
Defined.

(* ================================================================= *)
(** ** X10: the matrix without one row and one column *)

(** X10: for a live matrix with at least two rows and two columns, and a
    row [dr] and a column [dc] of it, [GetSubmatrix(dr, dc)] returns a
    live matrix with one row and one column less, whose grid is the grid
    of the receiver with row [dr] and column [dc] deleted: the element at
    [(i, j)] comes from row [i], or [i + 1] from [dr] on, and column [j],
    or [j + 1] from [dc] on.  On a matrix with one row or one column the
    construction of the result throws inside the [noexcept] function,
    which ends the program. *)
Theorem GetSubmatrix_spec (A : Matrix) (g : grid) (dr dc : Z) :
  live A → matrix_ A = Some g → 0 ≤ dr < rows_ A → 0 ≤ dc < cols_ A →
  (rows_ A = 1 ∨ cols_ A = 1 → GetSubmatrix A dr dc = Throw Terminate) ∧
  (1 < rows_ A → 1 < cols_ A →
     ∃ S, GetSubmatrix A dr dc = Ok S ∧
          rows_ S = rows_ A - 1 ∧ cols_ S = cols_ A - 1 ∧ live S ∧
          matrix_ S = Some (delete (Z.to_nat dc) <$> delete (Z.to_nat dr) g) ∧
          ∀ i j, 0 ≤ i < rows_ A - 1 → 0 ≤ j < cols_ A - 1 →
            get S i j =
              get A (if i <? dr then i else i + 1) (if j <? dc then j else j + 1)).
Proof.
  intros HA Hg Hdr Hdc. split.
  - intros H1. unfold GetSubmatrix.
    by rewrite Matrix_new_throw by lia.
  - intros Hr Hc. exists (minor A dr dc).
    split; [by apply GetSubmatrix_minor|].
    split; [done|]. split; [done|].
    split; [apply live_table; lia|].
    split.
    + apply minor_delete; [done| |done|done].
      destruct HA as (_ & _ & g' & Hg' & Hshape). congruence.
    + intros i j Hi Hj. unfold minor. by rewrite get_table.
Qed.

Lemma GetSubmatrix_spec_witness :
  (∃ S, GetSubmatrix (of_rows [[1; 2; 3]; [4; 5; 6]]%float) 0 1 = Ok S ∧
        matrix_ S = Some [[4; 6]]%float) ∧
  GetSubmatrix (of_rows [[1; 2; 3]]%float) 0 1 = Throw Terminate.
Proof.
  destruct (GetSubmatrix_spec (of_rows [[1; 2; 3]; [4; 5; 6]]%float)
              [[1; 2; 3]; [4; 5; 6]]%float 0 1
              (liveb_live (of_rows [[1; 2; 3]; [4; 5; 6]]%float) eq_refl) eq_refl
              ltac:(cbn; lia) ltac:(cbn; lia))
    as [_ H2].
  destruct (H2 ltac:(cbn; lia) ltac:(cbn; lia)) as (S & HS & _ & _ & _ & Hgrid & _).
  destruct (GetSubmatrix_spec (of_rows [[1; 2; 3]]%float) [[1; 2; 3]]%float 0 1
              (liveb_live (of_rows [[1; 2; 3]]%float) eq_refl) eq_refl
              ltac:(cbn; lia) ltac:(cbn; lia))
    as [H1 _].
  split; [|apply H1; by left].
  exists S. split; [exact HS|exact Hgrid].
Defined.

(* ================================================================= *)
(** ** X11: when the determinant, the cofactors and the inverse fail *)

(** X11: on every object the program can hold, live or with the
    dimensions 0 and 0, [Determinant] throws if and only if the matrix is
    not square, and then the logic error "Matrix is not square", which
    [CalcComplements] and [InverseMatrix] throw as well; on the 0x0
    object [Determinant] returns 0, [CalcComplements] throws the
    invalid-argument exception and [InverseMatrix] the logic error
    "Matrix determinant is 0"; on a live square matrix [CalcComplements]
    returns, and [InverseMatrix] returns or throws "Matrix determinant is
    0".  None of the three ends the program through a [noexcept]
    function. *)
Theorem Determinant_family_failures (A : Matrix) :
  reachable A →
  (rows_ A ≠ cols_ A →
     Determinant A = Throw (MatrixLogicErrorException "Matrix is not square") ∧
     CalcComplements A = Throw (MatrixLogicErrorException "Matrix is not square") ∧
     InverseMatrix A = Throw (MatrixLogicErrorException "Matrix is not square")) ∧
  (rows_ A = cols_ A → ∃ d, Determinant A = Ok d) ∧
  (rows_ A = 0 → cols_ A = 0 →
     Determinant A = Ok 0%float ∧
     CalcComplements A = Throw MatrixInvalidArgumentException ∧
     InverseMatrix A = Throw (MatrixLogicErrorException "Matrix determinant is 0")) ∧
  (live A → rows_ A = cols_ A →
     (∃ C, CalcComplements A = Ok C) ∧
     (InverseMatrix A = Throw (MatrixLogicErrorException "Matrix determinant is 0") ∨
      ∃ I, InverseMatrix A = Ok I)) ∧
  Determinant A ≠ Throw Terminate ∧
  CalcComplements A ≠ Throw Terminate ∧
  InverseMatrix A ≠ Throw Terminate.
Proof.
  intros HA.
  assert (rows_ A = 0 → cols_ A = 0 →
     Determinant A = Ok 0%float ∧
     CalcComplements A = Throw MatrixInvalidArgumentException ∧
     InverseMatrix A = Throw (MatrixLogicErrorException "Matrix determinant is 0"))
    as Hempty.
  { intros Hr Hc.
    assert (Determinant A = Ok 0%float) as Hd by (apply Determinant_empty; lia).
    split; [done|]. split; [apply CalcComplements_empty; lia|].
    by apply (InverseMatrix_singular A 0%float). }
  assert (live A → rows_ A = cols_ A →
     (∃ C, CalcComplements A = Ok C) ∧
     (InverseMatrix A = Throw (MatrixLogicErrorException "Matrix determinant is 0") ∨
      ∃ I, InverseMatrix A = Ok I)) as Hlive.
  { intros (Hr & _ & _) Hsq. split.
    - destruct (CalcComplements_ok A Hsq Hr) as [f Hf]. by eexists.
    - by apply InverseMatrix_cases. }
  split.
  { intros Hne. split; [by apply Determinant_not_square|].
    split; [by apply CalcComplements_not_square|by apply InverseMatrix_not_square]. }
  split.
  { intros Hsq. destruct HA as [(Hr & _ & _)|[Hr Hc]].
    - by apply Determinant_ok.
    - exists 0%float. by apply Hempty. }
  split; [done|]. split; [done|].
  destruct (decide (rows_ A = cols_ A)) as [Hsq|Hne].
  - destruct HA as [HA|[Hr Hc]].
    + destruct (Hlive HA Hsq) as [[C HC] HI].
      destruct HA as (Hr & _ & _). destruct (Determinant_ok A Hr Hsq) as [d Hd].
      split; [by rewrite Hd|]. split; [by rewrite HC|].
      destruct HI as [->|[I ->]]; done.
    + destruct (Hempty Hr Hc) as (-> & -> & ->). done.
  - rewrite Determinant_not_square, CalcComplements_not_square,
      InverseMatrix_not_square by done. done.
Qed.

Lemma Determinant_family_failures_witness :
  Determinant invalid = Ok 0%float ∧
  CalcComplements invalid = Throw MatrixInvalidArgumentException ∧
  InverseMatrix invalid = Throw (MatrixLogicErrorException "Matrix determinant is 0").
Proof.
  exact (proj1 (proj2 (proj2 (Determinant_family_failures invalid
    (or_intror (conj eq_refl eq_refl))))) eq_refl eq_refl).
Defined.

(* ================================================================= *)
(** ** X12: a first row within the tolerance of zero *)

(** X12: when no element of the first row of a live square matrix of
    size 2 or more exceeds the tolerance in absolute value, [Determinant]
    returns 0 whatever the other rows hold, and [InverseMatrix] throws
    the logic error "Matrix determinant is 0". *)
Theorem Determinant_small_first_row (A : Matrix) :
  live A → rows_ A = cols_ A → 1 < rows_ A →
  (∀ j, 0 ≤ j < cols_ A → (kAccuracy <? abs (get A 0 j))%float = false) →
  Determinant A = Ok 0%float ∧
  InverseMatrix A = Throw (MatrixLogicErrorException "Matrix determinant is 0").
Proof.
  intros HA Hsq Hr Hsmall.
  assert (Determinant A = Ok 0%float) as Hd.
  { rewrite Determinant_expansion by done. f_equal. apply for_skip.
    intros j acc Hj. by rewrite Hsmall. }
  split; [done|]. by apply (InverseMatrix_singular A 0%float).
Qed.

Lemma Determinant_small_first_row_witness :
  Determinant (of_rows [[0x1p-30; 0]; [1000; 2000]]%float) = Ok 0%float ∧
  InverseMatrix (of_rows [[0x1p-30; 0]; [1000; 2000]]%float) =
    Throw (MatrixLogicErrorException "Matrix determinant is 0").
Proof.
  apply (Determinant_small_first_row (of_rows [[0x1p-30; 0]; [1000; 2000]]%float)
           (liveb_live (of_rows [[0x1p-30; 0]; [1000; 2000]]%float) eq_refl)
           eq_refl eq_refl).
  intros j Hj. assert (j = 0 ∨ j = 1) as [-> | ->] by (cbn in Hj; lia);
    vm_compute; reflexivity.
Defined.

(* ================================================================= *)
(** ** X13: the determinant of a 2x2 matrix *)

(** X13: for a live 2x2 matrix with the rows [a b] and [c d],
    [Determinant] returns [0 + a * d * 1] when [|a|] exceeds the
    tolerance and 0 otherwise, to which [b * c * -1] is added when [|b|]
    exceeds the tolerance: the products and the sum are taken in this
    order. *)
Theorem Determinant_2x2 (A : Matrix) :
  live A → rows_ A = 2 → cols_ A = 2 →
  Determinant A =
    Ok (let first :=
          if (kAccuracy <? abs (get A 0 0))%float
          then (0 + get A 0 0 * get A 1 1 * 1)%float else 0%float in
        if (kAccuracy <? abs (get A 0 1))%float
        then (first + get A 0 1 * get A 1 0 * (-1))%float else first).
Proof.
  intros HA Hr Hc. rewrite Determinant_expansion by lia. rewrite Hc.
  unfold for_. change (Z.to_nat 2) with 2%nat. cbn [iterate]. cbn zeta.
  assert (∀ j, 0 ≤ j < 2 → det (minor A 0 j) = get A 1 (1 - j)) as Hminor.
  { intros j Hj. rewrite det_number by (cbn; lia). unfold minor.
    rewrite get_table by lia. unfold skip.
    assert (j = 0 ∨ j = 1) as [-> | ->] by lia; reflexivity. }
  change (0 + 1) with 1. rewrite !Hminor by lia.
  change (sign 0) with 1%float. change (sign 1) with (-1)%float. done.
Qed.

Lemma Determinant_2x2_witness :
  Determinant (of_rows [[1; 2]; [3; 4]]%float) = Ok (-2)%float.
Proof.
  rewrite (Determinant_2x2 (of_rows [[1; 2]; [3; 4]]%float)
             (liveb_live (of_rows [[1; 2]; [3; 4]]%float) eq_refl) eq_refl eq_refl).
  vm_compute. reflexivity.
Defined.

(* ================================================================= *)
(** ** X14: the inverse of a 1x1 matrix *)

(** X14: for a live 1x1 matrix with the element [a], [InverseMatrix]
    throws the logic error "Matrix determinant is 0" when [|a|] is below
    the tolerance, and otherwise returns the 1x1 matrix with the element
    [1 * (1 / a)]: the cofactor of a 1x1 matrix is taken to be 1. *)
Theorem InverseMatrix_1x1 (A : Matrix) :
  live A → rows_ A = 1 → cols_ A = 1 →
  ((abs (get A 0 0) <? kAccuracy)%float = true →
     InverseMatrix A = Throw (MatrixLogicErrorException "Matrix determinant is 0")) ∧
  ((abs (get A 0 0) <? kAccuracy)%float = false →
     InverseMatrix A = Ok (of_rows [[1 * (1 / get A 0 0)]]%float)).
Proof.
  intros HA Hr Hc. pose proof (Determinant_number A Hr Hc) as Hd. split.
  - intros Hsmall. by apply (InverseMatrix_singular A (get A 0 0)).
  - intros Hbig.
    rewrite (InverseMatrix_regular A (get A 0 0) (table 1 1 (λ _ _, 1%float))
               (table 1 1 (λ _ _, 1%float)));
      [|done|done|by apply CalcComplements_number|].
    + rewrite operator_mul_number_live by (by apply live_table). reflexivity.
    + by rewrite Transpose_table by done.
Qed.

Lemma InverseMatrix_1x1_witness :
  InverseMatrix (of_rows [[4]]%float) = Ok (of_rows [[0.25]]%float).
Proof.
  rewrite (proj2 (InverseMatrix_1x1 (of_rows [[4]]%float)
                    (liveb_live (of_rows [[4]]%float) eq_refl) eq_refl eq_refl)).
  - vm_compute. reflexivity.
  - vm_compute. reflexivity.
Defined.

(* ================================================================= *)
(** ** X15: the transpose of a product *)

(** X15: for live matrices [A] and [B] with as many columns in [A] as
    rows in [B], the transpose of [A * B] is the product of the transpose
    of [B] with the transpose of [A], element for element and bit for
    bit: each element is accumulated over the same terms in the same
    order, and the product of two doubles does not depend on their
    order. *)
Theorem Transpose_of_product (this other : addr) (σ : store) (A B : Matrix) :
  σ !! this = Some A → σ !! other = Some B → live A → live B →
  cols_ A = rows_ B →
  ∃ At Bt P,
    Transpose A = Ok At ∧ Transpose B = Ok Bt ∧
    operator_mul this other σ = (Ok P, σ) ∧
    ∀ (x y : addr) (σ' : store), σ' !! x = Some Bt → σ' !! y = Some At →
      ∃ Q, operator_mul x y σ' = (Ok Q, σ') ∧ Transpose P = Ok Q.
Proof.
  intros Ha Hb HA HB Hdim.
  pose proof HA as (HAr & HAc & _). pose proof HB as (HBr & HBc & _).
  eexists _, _, _.
  split; [by apply Transpose_live|]. split; [by apply Transpose_live|].
  split; [by apply (run_operator_mul _ _ _ A B)|].
  intros x y σ' Hx Hy. eexists. split.
  - apply (run_operator_mul x y σ' _ _ Hx Hy); [by apply live_table|done|done].
  - by apply Transpose_product.
Qed.

Lemma Transpose_of_product_witness :
  ∃ P Q,
    operator_mul 0%nat 1%nat [of_rows [[1; 2]; [3; 4]]; of_rows [[5]; [6]]]%float =
      (Ok P, [of_rows [[1; 2]; [3; 4]]; of_rows [[5]; [6]]]%float) ∧
    operator_mul 0%nat 1%nat [of_rows [[5; 6]]; of_rows [[1; 3]; [2; 4]]]%float =
      (Ok Q, [of_rows [[5; 6]]; of_rows [[1; 3]; [2; 4]]]%float) ∧
    Transpose P = Ok Q.
Proof.
  destruct (Transpose_of_product 0%nat 1%nat
              [of_rows [[1; 2]; [3; 4]]; of_rows [[5]; [6]]]%float
              (of_rows [[1; 2]; [3; 4]]%float) (of_rows [[5]; [6]]%float)
              eq_refl eq_refl
              (liveb_live (of_rows [[1; 2]; [3; 4]]%float) eq_refl)
              (liveb_live (of_rows [[5]; [6]]%float) eq_refl) eq_refl)
    as (At & Bt & P & HAt & HBt & HP & HQ).
  assert (Ok At = Ok (of_rows [[1; 3]; [2; 4]]%float)) as [= ->]
    by (rewrite <- HAt; vm_compute; reflexivity).
  assert (Ok Bt = Ok (of_rows [[5; 6]]%float)) as [= ->]
    by (rewrite <- HBt; vm_compute; reflexivity).
  destruct (HQ 0%nat 1%nat [of_rows [[5; 6]]; of_rows [[1; 3]; [2; 4]]]%float
              eq_refl eq_refl) as (Q & HQ1 & HQ2).
  exists P, Q. split; [exact HP|]. split; [exact HQ1|exact HQ2].
Defined.

(* ================================================================= *)
(** ** X16: the transpose of a sum and of a multiple *)

(** X16: for live matrices [A] and [B] of the same dimensions, the
    transpose of [A + B] is the sum of the transposes, and for every
    number the transpose of [A * num] is the transpose of [A] times
    [num]. *)
Theorem Transpose_linear (this other : addr) (σ : store) (A B : Matrix) :
  σ !! this = Some A → σ !! other = Some B → live A → live B →
  rows_ A = rows_ B → cols_ A = cols_ B →
  ∃ At Bt S,
    Transpose A = Ok At ∧ Transpose B = Ok Bt ∧
    operator_plus this other σ = (Ok S, σ) ∧
    (∀ (x y : addr) (σ' : store), σ' !! x = Some At → σ' !! y = Some Bt →
       ∃ St, operator_plus x y σ' = (Ok St, σ') ∧ Transpose S = Ok St) ∧
    ∀ num, Transpose (operator_mul_number A num) = Ok (operator_mul_number At num).
Proof.
  intros Ha Hb HA HB Hr Hc.
  pose proof HA as (HAr & HAc & _). pose proof HB as (HBr & HBc & _).
  eexists _, _, _.
  split; [by apply Transpose_live|]. split; [by apply Transpose_live|].
  split; [by apply (run_operator_plus _ _ _ A B)|].
  split.
  - intros x y σ' Hx Hy. eexists. split.
    + apply (run_operator_plus x y σ' _ _ Hx Hy); [by apply live_table|done|done].
    + rewrite Transpose_table by done. f_equal. cbn [rows_ cols_ table].
      apply table_ext. intros j i Hj Hi. rewrite !get_table by lia. done.
  - intros num. rewrite !operator_mul_number_live by (done || by apply live_table).
    rewrite Transpose_table by done. f_equal. cbn [rows_ cols_ table].
    apply table_ext. intros j i Hj Hi. by rewrite !get_table by lia.
Qed.

Lemma Transpose_linear_witness :
  Transpose (operator_mul_number (of_rows [[1; 2]; [3; 4]]%float) 3%float) =
    Ok (of_rows [[3; 9]; [6; 12]]%float).
Proof.
  destruct (Transpose_linear 0%nat 0%nat [of_rows [[1; 2]; [3; 4]]%float]
              (of_rows [[1; 2]; [3; 4]]%float) (of_rows [[1; 2]; [3; 4]]%float)
              eq_refl eq_refl
              (liveb_live (of_rows [[1; 2]; [3; 4]]%float) eq_refl)
              (liveb_live (of_rows [[1; 2]; [3; 4]]%float) eq_refl)
              eq_refl eq_refl)
    as (At & Bt & S & HAt & _ & _ & _ & Hnum).
  rewrite (Hnum 3%float).
  assert (Ok At = Ok (of_rows [[1; 3]; [2; 4]]%float)) as [= ->]
    by (rewrite <- HAt; vm_compute; reflexivity).
  vm_compute. reflexivity.
Defined.

(* ================================================================= *)
(** ** X17: changing the rows and the columns, in either order *)

(** X17: for a live matrix and two positive numbers [n] and [m],
    [SetRows(n)] followed by [SetCols(m)], [SetCols(m)] followed by
    [SetRows(n)], and one [SetDimension(n, m)] leave the same object: [n]
    rows and [m] columns, with the elements that lie inside both the old
    and the new bounds in their places and 0 everywhere else. *)
Theorem SetRows_SetCols_commute (this : addr) (n m : Z) (σ : store) (A : Matrix) :
  σ !! this = Some A → live A → 0 < n → 0 < m →
  ∃ R, (SetRows this n >> SetCols this m) σ = (Ok tt, <[this := R]> σ) ∧
       (SetCols this m >> SetRows this n) σ = (Ok tt, <[this := R]> σ) ∧
       SetDimension this n m σ = (Ok tt, <[this := R]> σ) ∧
       rows_ R = n ∧ cols_ R = m ∧ live R ∧
       ∀ i j, 0 ≤ i < n → 0 ≤ j < m →
         get R i j =
           if (i <? rows_ A) && (j <? cols_ A) then get A i j else 0%float.
Proof.
  intros Ha HA Hn Hm. pose proof HA as (Hr & Hc & _).
  exists (resized A n m).
  assert (live (resized A n (cols_ A))) as HA1 by (by apply live_table).
  assert (live (resized A (rows_ A) m)) as HA2 by (by apply live_table).
  split; [|split; [|split]].
  - rewrite (run_bind (SetRows this n) _ σ (<[this := resized A n (cols_ A)]> σ) tt); last first.
    { rewrite (run_SetRows _ _ _ _ Ha). by apply run_SetDimension_live. }
    rewrite (run_SetCols _ _ _ _ (lookup_insert_same _ _ _ Ha _)).
    rewrite (run_SetDimension_live _ _ _ _ _ (lookup_insert_same _ _ _ Ha _))
      by done.
    rewrite list_insert_insert_eq. do 2 f_equal. cbn [rows_ resized table].
    rewrite resized_twice. apply table_ext. intros i j Hi Hj. ztests.
  - rewrite (run_bind (SetCols this m) _ σ (<[this := resized A (rows_ A) m]> σ) tt); last first.
    { rewrite (run_SetCols _ _ _ _ Ha). by apply run_SetDimension_live. }
    rewrite (run_SetRows _ _ _ _ (lookup_insert_same _ _ _ Ha _)).
    rewrite (run_SetDimension_live _ _ _ _ _ (lookup_insert_same _ _ _ Ha _))
      by done.
    rewrite list_insert_insert_eq. do 2 f_equal. cbn [cols_ resized table].
    rewrite resized_twice. apply table_ext. intros i j Hi Hj. ztests.
  - by apply run_SetDimension_live.
  - split; [done|]. split; [done|]. split; [by apply live_table|].
    intros i j Hi Hj. unfold resized. rewrite get_table by done. ztests.
Qed.

Lemma SetRows_SetCols_commute_witness :
  ∃ R,
    (SetRows 0%nat 1 >> SetCols 0%nat 3) [of_rows [[1; 2]; [3; 4]]%float] =
      (Ok tt, <[0%nat := R]> [of_rows [[1; 2]; [3; 4]]%float]) ∧
    (SetCols 0%nat 3 >> SetRows 0%nat 1) [of_rows [[1; 2]; [3; 4]]%float] =
      (Ok tt, <[0%nat := R]> [of_rows [[1; 2]; [3; 4]]%float]) ∧
    get R 0 1 = 2%float ∧ get R 0 2 = 0%float.
Proof.
  destruct (SetRows_SetCols_commute 0%nat 1 3 [of_rows [[1; 2]; [3; 4]]%float]
              (of_rows [[1; 2]; [3; 4]]%float) eq_refl
              (liveb_live (of_rows [[1; 2]; [3; 4]]%float) eq_refl) eq_refl eq_refl)
    as (R & H1 & H2 & _ & _ & _ & _ & Hget).
  exists R. split; [exact H1|]. split; [exact H2|].
  split; rewrite Hget by lia; reflexivity.
Defined.

(* ================================================================= *)
(** ** X18: growing and shrinking a dimension *)

(** X18: for a live matrix, adding rows with [SetRows] and then setting
    the old number of rows restores the matrix, and so do the columns
    with [SetCols]; removing rows and then setting the old number of
    rows does not: the rows that were removed come back as zeros. *)
Theorem SetRows_round_trip (this : addr) (n : Z) (σ : store) (A : Matrix) :
  σ !! this = Some A → live A →
  (rows_ A ≤ n → (SetRows this n >> SetRows this (rows_ A)) σ = (Ok tt, σ)) ∧
  (cols_ A ≤ n → (SetCols this n >> SetCols this (cols_ A)) σ = (Ok tt, σ)) ∧
  (0 < n < rows_ A →
     ∃ R, (SetRows this n >> SetRows this (rows_ A)) σ = (Ok tt, <[this := R]> σ) ∧
          rows_ R = rows_ A ∧ cols_ R = cols_ A ∧
          ∀ i j, 0 ≤ i < rows_ A → 0 ≤ j < cols_ A →
            get R i j = if i <? n then get A i j else 0%float).
Proof.
  intros Ha HA. pose proof HA as (Hr & Hc & _).
  assert (∀ k, 0 < k →
    (SetRows this k >> SetRows this (rows_ A)) σ =
    (Ok tt, <[this := resized (resized A k (cols_ A)) (rows_ A) (cols_ A)]> σ))
    as Hrows.
  { intros k Hk.
    rewrite (run_bind (SetRows this k) _ σ (<[this := resized A k (cols_ A)]> σ) tt); last first.
    { rewrite (run_SetRows _ _ _ _ Ha). by apply run_SetDimension_live. }
    rewrite (run_SetRows _ _ _ _ (lookup_insert_same _ _ _ Ha _)).
    rewrite (run_SetDimension_live _ _ _ _ _ (lookup_insert_same _ _ _ Ha _));
      [|by apply live_table|done|done].
    by rewrite list_insert_insert_eq. }
  assert (∀ k, 0 < k →
    (SetCols this k >> SetCols this (cols_ A)) σ =
    (Ok tt, <[this := resized (resized A (rows_ A) k) (rows_ A) (cols_ A)]> σ))
    as Hcols.
  { intros k Hk.
    rewrite (run_bind (SetCols this k) _ σ (<[this := resized A (rows_ A) k]> σ) tt); last first.
    { rewrite (run_SetCols _ _ _ _ Ha). by apply run_SetDimension_live. }
    rewrite (run_SetCols _ _ _ _ (lookup_insert_same _ _ _ Ha _)).
    rewrite (run_SetDimension_live _ _ _ _ _ (lookup_insert_same _ _ _ Ha _));
      [|by apply live_table|done|done].
    by rewrite list_insert_insert_eq. }
  split; [|split].
  - intros Hn. rewrite Hrows by lia.
    assert (resized (resized A n (cols_ A)) (rows_ A) (cols_ A) = A) as ->.
    { rewrite resized_twice.
      transitivity (table (rows_ A) (cols_ A) (get A));
        [|symmetry; by apply live_is_table].
      apply table_ext. intros i j Hi Hj. ztests. }
    by rewrite list_insert_id.
  - intros Hn. rewrite Hcols by lia.
    assert (resized (resized A (rows_ A) n) (rows_ A) (cols_ A) = A) as ->.
    { rewrite resized_twice.
      transitivity (table (rows_ A) (cols_ A) (get A));
        [|symmetry; by apply live_is_table].
      apply table_ext. intros i j Hi Hj. ztests. }
    by rewrite list_insert_id.
  - intros Hn. eexists. split; [apply Hrows; lia|].
    split; [done|]. split; [done|]. intros i j Hi Hj.
    rewrite resized_twice, get_table by done. ztests.
Qed.

Lemma SetRows_round_trip_witness :
  (SetRows 0%nat 5 >> SetRows 0%nat 2) [of_rows [[1; 2]; [3; 4]]%float] =
    (Ok tt, [of_rows [[1; 2]; [3; 4]]%float]).
Proof.
  apply (proj1 (SetRows_round_trip 0%nat 5 [of_rows [[1; 2]; [3; 4]]%float]
                  (of_rows [[1; 2]; [3; 4]]%float) eq_refl
                  (liveb_live (of_rows [[1; 2]; [3; 4]]%float) eq_refl))).
  cbn. lia.
Defined.

(* ================================================================= *)
(** ** X19: what a moved-from object does *)

(** X19: on an object in the moved-from state (dimensions 0 and 0, no
    storage) every indexed access throws the out-of-range exception;
    [SetRows] and [SetCols] throw the invalid-argument exception for every
    argument, so that they cannot give it dimensions again; [Transpose]
    ends the program, since the construction of its result throws inside
    a [noexcept] function; [MulNumber], [A += A] and [A -= A] return and
    write nothing; [A *= A] throws the invalid-argument exception; adding
    or subtracting a live matrix throws the logic error; two moved-from
    objects compare equal; and the destructor writes nothing.  The store
    is the same after each of these calls. *)
Theorem moved_from_object (a : addr) (σ : store) :
  σ !! a = Some invalid →
  (∀ i j, operator_call a i j σ = (Throw MatrixOutOfRangeException, σ)) ∧
  (∀ n, SetRows a n σ = (Throw MatrixInvalidArgumentException, σ) ∧
        SetCols a n σ = (Throw MatrixInvalidArgumentException, σ)) ∧
  call Transpose a σ = (Throw Terminate, σ) ∧
  (∀ num, MulNumber a num σ = (Ok tt, σ)) ∧
  SumMatrix a a σ = (Ok tt, σ) ∧
  SubMatrix a a σ = (Ok tt, σ) ∧
  MulMatrix a a σ = (Throw MatrixInvalidArgumentException, σ) ∧
  (∀ b B, σ !! b = Some B → live B →
     SumMatrix a b σ =
       (Throw (MatrixLogicErrorException "Different dimensions of matrices"), σ) ∧
     SubMatrix a b σ =
       (Throw (MatrixLogicErrorException "Different dimensions of matrices"), σ)) ∧
  (∀ b, σ !! b = Some invalid → EqMatrix a b σ = (Ok true, σ)) ∧
  Matrix_dtor a σ = (Ok tt, σ).
Proof.
  intros Ha.
  split.
  { intros i j. apply (run_operator_call_outside _ _ _ _ invalid Ha). cbn. lia. }
  split.
  { intros n. split.
    - rewrite (run_SetRows _ _ _ _ Ha). apply run_SetDimension_invalid. right. done.
    - rewrite (run_SetCols _ _ _ _ Ha). apply run_SetDimension_invalid. left. done. }
  split.
  { unfold call. by rewrite (run_bind _ _ _ _ _ (run_load _ _ _ Ha)). }
  split.
  { intros num. rewrite (run_MulNumber _ _ _ _ Ha).
    by rewrite list_insert_id. }
  split.
  { unfold SumMatrix.
    rewrite (run_bind _ _ _ _ _ (run_load _ _ _ Ha)).
    rewrite (run_bind _ _ _ _ _ (run_load _ _ _ Ha)). cbn [negb IsSameDimensionMatrix
      invalid rows_ cols_ Z.eqb andb].
    rewrite (run_bind _ _ _ _ _ (run_field _ _ _ Ha rows_)).
    rewrite (run_bind _ _ _ _ _ (run_field _ _ _ Ha cols_)).
    by apply forM_nonpos. }
  split.
  { unfold SubMatrix.
    rewrite (run_bind _ _ _ _ _ (run_load _ _ _ Ha)).
    rewrite (run_bind _ _ _ _ _ (run_load _ _ _ Ha)). cbn [negb IsSameDimensionMatrix
      invalid rows_ cols_ Z.eqb andb].
    rewrite (run_bind _ _ _ _ _ (run_field _ _ _ Ha rows_)).
    rewrite (run_bind _ _ _ _ _ (run_field _ _ _ Ha cols_)).
    by apply forM_nonpos. }
  split.
  { unfold MulMatrix.
    rewrite (run_bind _ _ _ _ _ (run_load _ _ _ Ha)).
    rewrite (run_bind _ _ _ _ _ (run_load _ _ _ Ha)). cbn [negb invalid rows_ cols_ Z.eqb].
    apply run_local_throw, run_Matrix_ctor_throw. by left. }
  split.
  { intros b B Hb (HBr & HBc & _). split.
    - apply (run_SumMatrix_mismatch _ _ _ _ _ Ha Hb). cbn. lia.
    - apply (run_SubMatrix_mismatch _ _ _ _ _ Ha Hb). cbn. lia. }
  split.
  { intros b Hb. destruct (decide (a = b)) as [<-|Hne].
    - apply run_EqMatrix_self.
    - by rewrite (run_EqMatrix _ _ _ _ _ Hne Ha Hb). }
  unfold Matrix_dtor. by rewrite (run_bind _ _ _ _ _ (run_load _ _ _ Ha)).
Qed.

Lemma moved_from_object_witness :
  snd (Matrix_move_ctor 0%nat [of_rows [[1; 2]]%float]) =
    [invalid; of_rows [[1; 2]]%float] ∧
  operator_call 0%nat 0 0 [invalid; of_rows [[1; 2]]%float] =
    (Throw MatrixOutOfRangeException, [invalid; of_rows [[1; 2]]%float]) ∧
  SetRows 0%nat 5 [invalid; of_rows [[1; 2]]%float] =
    (Throw MatrixInvalidArgumentException, [invalid; of_rows [[1; 2]]%float]).
Proof.
  split; [vm_compute; reflexivity|].
  destruct (moved_from_object 0%nat [invalid; of_rows [[1; 2]]%float] eq_refl)
    as (Hcall & Hset & _).
  split; [exact (Hcall 0 0)|exact (proj1 (Hset 5))].
Defined.

(* ================================================================= *)
(** ** X20: the move constructor *)

(** X20: the move constructor never throws; the new object has the
    dimensions and the grid of the source, whatever state the source is
    in; the source is left with the dimensions 0 and 0 and no storage;
    every other object is as it was.  For a live source, assigning the
    new object back to the source gives the source its matrix again. *)
Theorem Matrix_move_ctor_spec (other : addr) (σ : store) (A : Matrix) :
  σ !! other = Some A →
  ∃ σ', Matrix_move_ctor other σ = (Ok (length σ), σ') ∧
        length σ' = S (length σ) ∧
        σ' !! length σ = Some A ∧
        σ' !! other = Some invalid ∧
        (∀ a, a ≠ other → a ≠ length σ → σ' !! a = σ !! a) ∧
        (live A →
           (let! b := Matrix_move_ctor other in operator_assign other b) σ =
             (Ok other, σ ++ [A])).
Proof.
  intros Ho. pose proof (lookup_old_ne_new _ _ _ Ho) as Hne.
  pose proof (run_Matrix_move_ctor other σ A Ho) as Hrun.
  assert (length (<[other := invalid]> σ) = length σ) as Hlen by apply length_insert.
  exists (<[other := invalid]> σ ++ [A]).
  split; [done|].
  split; [rewrite length_app, Hlen; cbn; lia|].
  split; [rewrite <- Hlen; apply snoc_lookup_new|].
  split.
  { apply (snoc_lookup_old _ _ _ invalid). by eapply lookup_insert_same. }
  split.
  { intros a Ha1 Ha2. destruct (decide (a < length σ)%nat) as [Hlt|Hge].
    - rewrite lookup_app_l by lia. by rewrite list_lookup_insert_ne.
    - rewrite !lookup_ge_None_2; [done|lia|].
      rewrite length_app, Hlen. cbn. lia. }
  intros HA. rewrite (run_bind _ _ _ _ _ Hrun).
  rewrite (run_operator_assign other (length σ) _ invalid A);
    [|done| |rewrite <- Hlen; apply snoc_lookup_new|done|].
  - rewrite (snoc_insert_old _ _ _ _ invalid) by (by eapply lookup_insert_same).
    by rewrite list_insert_insert_eq, list_insert_id.
  - apply (snoc_lookup_old _ _ _ invalid). by eapply lookup_insert_same.
  - right. destruct HA as (Hr & Hc & _). unfold IsSameDimensionMatrix, invalid.
    cbn [rows_ cols_]. by rewrite (proj2 (Z.eqb_neq 0 (cols_ A))) by lia.
Qed.

Lemma Matrix_move_ctor_spec_witness :
  (let! b := Matrix_move_ctor 0%nat in operator_assign 0%nat b)
    [of_rows [[1; 2]; [3; 4]]%float] =
  (Ok 0%nat, [of_rows [[1; 2]; [3; 4]]%float] ++ [of_rows [[1; 2]; [3; 4]]%float]).
Proof.
  destruct (Matrix_move_ctor_spec 0%nat [of_rows [[1; 2]; [3; 4]]%float]
              (of_rows [[1; 2]; [3; 4]]%float) eq_refl)
    as (σ' & _ & _ & _ & _ & _ & Hback).
  exact (Hback (liveb_live (of_rows [[1; 2]; [3; 4]]%float) eq_refl)).
Defined.

(* ================================================================= *)
(** ** X21: only the receiver is written, and it stays live *)

(** X21: on a live receiver with a live argument, each call that changes
    a matrix in place ([SumMatrix], [SubMatrix], [MulMatrix],
    [MulNumber], [SetRows], [SetCols], the copy assignment, a write
    through the indexed access) writes no object of the store but the
    receiver, adds none and removes none, and leaves the receiver live:
    with positive dimensions and a grid of that shape.  This holds when
    the call returns and when it throws, and when the argument is the
    receiver. *)
Theorem receiver_stays_live (this other : addr) (σ : store) (A B : Matrix)
    (n i j : Z) (num v : float) :
  σ !! this = Some A → σ !! other = Some B → live A → live B →
  writes_only (SumMatrix this other) this σ ∧
  writes_only (SubMatrix this other) this σ ∧
  writes_only (MulMatrix this other) this σ ∧
  writes_only (MulNumber this num) this σ ∧
  writes_only (SetRows this n) this σ ∧
  writes_only (SetCols this n) this σ ∧
  writes_only (operator_assign this other) this σ ∧
  writes_only (let! r := operator_call this i j in write_ref r v) this σ.
Proof.
  intros Ha Hb HA HB.
  pose proof HA as (HAr & HAc & _). pose proof HB as (HBr & HBc & _).
  assert (∀ {R} (m : M R) (r0 : result R) (A' : Matrix),
    m σ = (r0, <[this := A']> σ) → live A' → writes_only m this σ) as Hto.
  { intros R m r0 A' Hm HA' r σ' Hrun. rewrite Hm in Hrun.
    exists A'. split; [done|]. congruence. }
  assert (∀ {R} (m : M R) (r0 : result R),
    m σ = (r0, σ) → writes_only m this σ) as Hsame.
  { intros R m r0 Hm. apply (Hto R m r0 A); [|done]. by rewrite list_insert_id. }
  split.
  { destruct (decide (rows_ A = rows_ B ∧ cols_ A = cols_ B)) as [[Hr Hc]|Hne].
    - eapply Hto; [by apply (run_SumMatrix _ _ _ A B)|by apply live_table].
    - eapply Hsame. apply (run_SumMatrix_mismatch _ _ _ A B); [done|done|lia]. }
  split.
  { destruct (decide (rows_ A = rows_ B ∧ cols_ A = cols_ B)) as [[Hr Hc]|Hne].
    - eapply Hto; [by apply (run_SubMatrix _ _ _ A B)|by apply live_table].
    - eapply Hsame. apply (run_SubMatrix_mismatch _ _ _ A B); [done|done|lia]. }
  split.
  { destruct (decide (cols_ A = rows_ B)) as [Hdim|Hne].
    - eapply Hto; [by apply (run_MulMatrix _ _ _ A B)|by apply live_product].
    - eapply Hsame. by apply (run_MulMatrix_mismatch _ _ _ A B). }
  split.
  { eapply Hto; [by apply run_MulNumber|].
    rewrite MulNumber_val_live by done. by apply live_table. }
  split.
  { destruct (decide (0 < n)) as [Hn|Hn].
    - eapply Hto.
      + rewrite (run_SetRows _ _ _ _ Ha). by apply run_SetDimension_live.
      + by apply live_table.
    - eapply Hsame. rewrite (run_SetRows _ _ _ _ Ha).
      apply run_SetDimension_invalid. lia. }
  split.
  { destruct (decide (0 < n)) as [Hn|Hn].
    - eapply Hto.
      + rewrite (run_SetCols _ _ _ _ Ha). by apply run_SetDimension_live.
      + by apply live_table.
    - eapply Hsame. rewrite (run_SetCols _ _ _ _ Ha).
      apply run_SetDimension_invalid. lia. }
  split.
  { destruct (decide (this = other)) as [<-|Hne].
    - eapply Hsame. apply run_operator_assign_self.
    - eapply Hto; [|exact HB].
      apply (run_operator_assign _ _ _ A B); [done..|by left]. }
  destruct (decide (0 ≤ i < rows_ A ∧ 0 ≤ j < cols_ A)) as [[Hi Hj]|Hout].
  - eapply Hto.
    + rewrite (run_bind _ _ _ _ _ (run_operator_call this i j σ A Ha Hi Hj)).
      cbn [write_ref]. apply (run_write_cell _ _ _ Ha).
    + rewrite put_live by (done || lia). by apply live_table.
  - eapply Hsame.
    by rewrite (run_bind_throw _ _ _ _ _ (run_operator_call_outside this i j σ A Ha Hout)).
Qed.

Lemma receiver_stays_live_witness :
  writes_only (MulMatrix 0%nat 1%nat) 0%nat
    [of_rows [[1; 2]; [3; 4]]; of_rows [[5]; [6]]]%float.
Proof.
  exact (proj1 (proj2 (proj2 (receiver_stays_live 0%nat 1%nat
    [of_rows [[1; 2]; [3; 4]]; of_rows [[5]; [6]]]%float
    (of_rows [[1; 2]; [3; 4]]%float) (of_rows [[5]; [6]]%float)
    0 0 0 0%float 0%float eq_refl eq_refl
    (liveb_live (of_rows [[1; 2]; [3; 4]]%float) eq_refl)
    (liveb_live (of_rows [[5]; [6]]%float) eq_refl))))).
Defined.

(* ================================================================= *)
(** ** X22: NaN under the comparison *)

(** X22: [EqMatrix] and [operator==] return [true] for two matrices of
    the same dimensions whenever, at every place, the two elements are
    the same double or one of them is a NaN: the difference with a NaN
    is a NaN, which is not above the tolerance.  A matrix that holds a
    NaN so compares equal to every matrix that agrees with it elsewhere. *)
Theorem EqMatrix_NaN (this other : addr) (σ : store) (A B : Matrix) :
  σ !! this = Some A → σ !! other = Some B →
  rows_ A = rows_ B → cols_ A = cols_ B →
  (∀ i j, 0 ≤ i < rows_ A → 0 ≤ j < cols_ A →
     get A i j = get B i j ∨
     is_nan (get A i j) = true ∨ is_nan (get B i j) = true) →
  EqMatrix this other σ = (Ok true, σ) ∧
  operator_eq this other σ = (Ok true, σ).
Proof.
  intros Ha Hb Hr Hc Hnan.
  assert (EqMatrix this other σ = (Ok true, σ)) as H; [|done].
  destruct (decide (this = other)) as [<-|Hne]; [apply run_EqMatrix_self|].
  rewrite (run_EqMatrix _ _ _ _ _ Hne Ha Hb). do 2 f_equal.
  apply EqMatrix_val_true. split; [done|]. split; [done|].
  intros i j Hi Hj. destruct (Hnan i j Hi Hj) as [->|H].
  - apply not_above_self.
  - by apply not_above_nan.
Qed.

Lemma EqMatrix_NaN_witness :
  EqMatrix 0%nat 1%nat [of_rows [[1; nan]]; of_rows [[1; 7]]]%float =
    (Ok true, [of_rows [[1; nan]]; of_rows [[1; 7]]]%float).
Proof.
  apply (EqMatrix_NaN 0%nat 1%nat [of_rows [[1; nan]]; of_rows [[1; 7]]]%float
           (of_rows [[1; nan]]%float) (of_rows [[1; 7]]%float)
           eq_refl eq_refl eq_refl eq_refl).
  intros i j Hi Hj.
  assert (i = 0) as -> by (cbn in Hi; lia).
  assert (j = 0 ∨ j = 1) as [-> | ->] by (cbn in Hj; lia).
  - left. reflexivity.
  - right. left. reflexivity.
Defined.

(* ================================================================= *)
(** ** X23: the determinant of the identity matrix *)

(** X23: for every size [n] of 1 or more, [Determinant] returns exactly 1
    on the [n]-by-[n] identity matrix: in each expansion the first term is
    [0 + 1 * 1 * 1], and the other elements of the first row are 0, which
    the tolerance test skips. *)
Theorem Determinant_identity (n : Z) :
  0 < n → Determinant (identity n) = Ok 1%float.
Proof.
  intros Hn.
  assert (∀ k : nat, Determinant (identity (Z.of_nat k + 1)) = Ok 1%float) as H.
  { induction k as [|k IH].
    - by rewrite Determinant_number.
    - replace (Z.of_nat (S k) + 1) with (Z.of_nat k + 2) by lia.
      rewrite Determinant_expansion by (cbn; lia). f_equal.
      cbn [cols_ identity table].
      assert (minor (identity (Z.of_nat k + 2)) 0 0 = identity (Z.of_nat k + 1))
        as Hminor.
      { unfold minor, identity. cbn [rows_ cols_ table].
        replace (Z.of_nat k + 2 - 1) with (Z.of_nat k + 1) by lia.
        apply table_ext. intros i j Hi Hj. unfold skip.
        rewrite get_table by ztests. ztests. }
      pose proof (for_ind (λ i s, if i =? 0 then s = 0%float else s = 1%float)
        (Z.of_nat k + 2)
        (λ j acc,
           if (kAccuracy <? abs (get (identity (Z.of_nat k + 2)) 0 j))%float
           then (acc + get (identity (Z.of_nat k + 2)) 0 j *
                       det (minor (identity (Z.of_nat k + 2)) 0 j) * sign j)%float
           else acc) 0%float ltac:(lia) eq_refl) as Hloop.
      cbn beta in Hloop.
      rewrite (proj2 (Z.eqb_neq (Z.of_nat k + 2) 0)) in Hloop by lia.
      apply Hloop. intros j acc Hj Hacc.
      rewrite (proj2 (Z.eqb_neq (j + 1) 0)) by lia.
      unfold identity at 1 2. rewrite get_table by lia.
      destruct (Z.eqb_spec j 0) as [->|Hj0].
      + subst acc. cbn [Z.eqb]. unfold det. rewrite Hminor, IH. reflexivity.
      + rewrite (proj2 (Z.eqb_neq 0 j)) by lia. exact Hacc. }
  specialize (H (Z.to_nat (n - 1))).
  by replace (Z.of_nat (Z.to_nat (n - 1)) + 1) with n in H by lia.
Qed.

Lemma Determinant_identity_witness :
  Determinant (of_rows [[1; 0; 0]; [0; 1; 0]; [0; 0; 1]]%float) = Ok 1%float.
Proof. exact (Determinant_identity 3 eq_refl). Defined.

(* ================================================================= *)
(** ** X24: the inverse of a 2x2 matrix *)

(** X24: for a live 2x2 matrix with the rows [a b] and [c d] whose
    determinant [D], as [Determinant] returns it, is not below the
    tolerance in absolute value, [InverseMatrix] returns the 2x2 matrix
    with the rows [(d * 1) * (1 / D)], [(b * -1) * (1 / D)] and
    [(c * -1) * (1 / D)], [(a * 1) * (1 / D)]: the cofactors, transposed,
    times the reciprocal of the determinant. *)
Theorem InverseMatrix_2x2 (A : Matrix) (D : float) :
  live A → rows_ A = 2 → cols_ A = 2 →
  Determinant A = Ok D → (abs D <? kAccuracy)%float = false →
  InverseMatrix A =
    Ok (of_rows [[get A 1 1 * 1 * (1 / D); get A 0 1 * (-1) * (1 / D)];
                 [get A 1 0 * (-1) * (1 / D); get A 0 0 * 1 * (1 / D)]]%float).
Proof.
  intros HA Hr Hc HD Hbig.
  set (C := table (rows_ A) (cols_ A)
              (λ i j, (det (minor A i j) * sign (i + j))%float)).
  assert (CalcComplements A = Ok C) as HC by (apply CalcComplements_table; lia).
  assert (Transpose C = Ok (table (cols_ C) (rows_ C) (λ j i, get C i j))) as HT
    by (apply Transpose_table; cbn; lia).
  rewrite (InverseMatrix_regular A D C _ HD Hbig HC HT). unfold C.
  rewrite operator_mul_number_live by (apply live_table; cbn; lia).
  cbn [rows_ cols_ table]. rewrite Hr, Hc. f_equal.
  assert (∀ i j, 0 ≤ i < 2 → 0 ≤ j < 2 →
    det (minor A i j) = get A (1 - i) (1 - j)) as Hminor.
  { intros i j Hi Hj. rewrite det_number by (cbn; lia). unfold minor.
    rewrite get_table by lia. unfold skip.
    assert (i = 0 ∨ i = 1) as [-> | ->] by lia;
      assert (j = 0 ∨ j = 1) as [-> | ->] by lia; reflexivity. }
  transitivity (table 2 2 (λ i j,
    (get A (1 - j) (1 - i) * sign (j + i) * (1 / D))%float)).
  { apply table_ext. intros i j Hi Hj.
    rewrite !get_table by lia. by rewrite Hminor by lia. }
  reflexivity.
Qed.

Lemma InverseMatrix_2x2_witness :
  InverseMatrix (of_rows [[1; 2]; [3; 4]]%float) =
    Ok (of_rows [[-2; 1]; [1.5; -0.5]]%float).
Proof.
  rewrite (InverseMatrix_2x2 (of_rows [[1; 2]; [3; 4]]%float) (-2)%float
             (liveb_live (of_rows [[1; 2]; [3; 4]]%float) eq_refl) eq_refl eq_refl).
  - vm_compute. reflexivity.
  - vm_compute. reflexivity.
  - vm_compute. reflexivity.
Defined.

